(** * Dining philosophers: three deadlock-avoidance strategies

    A shallow embedding of [C-codes/dinning-philosophers.cpp].  Each of the
    three classes of the program ([DiningPhilosophersSemaphore],
    [DiningPhilosophersWaiter], [DiningPhilosophersTimeout]) becomes a module
    holding
    - the shared objects of the class (mutexes, the counting semaphore, the
      availability array, the atomic counters) as a record,
    - one program counter per statement of [philosopher(int id)] that touches
      shared state or blocks, and
    - an executable [step] function: the thread [id] runs its next statement
      against the shared state; [None] means the statement cannot run now
      (the thread is blocked, or it has returned).
    The five threads started by [demonstrate] interleave their steps in any
    order; a [run] is any finite interleaving from the initial state.

    Integers: every [int] of the program stays within [0, 50] (thread ids
    0..4, meal counters up to 3, attempt counters up to 10, the atomic totals
    up to 15 and 50), so [nat] arithmetic and [mod] coincide with the C++
    [int] operations and no wrap-around arises. *)

From stdpp Require Import base list.

(** ** Interleavings *)

Section Runs.
Context {State Choice Event : Type}.
(** [step s c]: the scheduler's choice [c] names the thread to run (and,
    where a statement has several outcomes, the outcome). *)
Variable step : State → Choice → option (Event * State).
Variable actor : Choice → nat.
Variable init : State.

(** Traces list the events oldest first, tagged by the acting thread. *)
Inductive run : list (nat * Event) → State → Prop :=
| run_init : run [] init
| run_step tr s c ev s' :
    run tr s → step s c = Some (ev, s') → run (tr ++ [(actor c, ev)]) s'.

(** Running a schedule, for concrete interleavings. *)
Fixpoint exec (s : State) (tr : list (nat * Event)) (sched : list Choice)
  : option (list (nat * Event) * State) :=
  match sched with
  | [] => Some (tr, s)
  | c :: sched' =>
      match step s c with
      | Some (ev, s') => exec s' (tr ++ [(actor c, ev)]) sched'
      | None => None
      end
  end.
End Runs.

(** The events of one thread, in order. *)
Definition proj {Event : Type} (id : nat) (tr : list (nat * Event)) : list Event :=
  map snd (List.filter (λ x, fst x =? id) tr).

(** How often an event satisfying [P] occurs. *)
Definition occurrences {Event : Type} (P : Event → bool) (l : list Event) : nat :=
  length (List.filter P l).

(** ** Mutexes

    A [std::mutex] (or [std::timed_mutex]) is either free or owned by one
    thread.  [lock] blocks while the mutex is owned; [unlock] by a thread
    that does not own the mutex is undefined behaviour, which the model
    reports as a stuck step. *)

Definition mutex_lock (id : nat) (ms : list (option nat)) (k : nat)
  : option (list (option nat)) :=
  match ms !! k with
  | Some None => Some (<[k := Some id]> ms)
  | _ => None
  end.

Definition mutex_unlock (id : nat) (ms : list (option nat)) (k : nat)
  : option (list (option nat)) :=
  match ms !! k with
  | Some (Some o) => if o =? id then Some (<[k := None]> ms) else None
  | _ => None
  end.

(** The mutex array agrees with the threads' program counters: mutex [k]
    is owned by [o] exactly when thread [o] is at a statement between its
    [lock] of [k] and its [unlock] of [k]. *)
Definition agree {T : Type} (owns : nat → T → nat → bool)
    (ms : list (option nat)) (ts : list T) : Prop :=
  ∀ k o, ms !! k = Some (Some o) ↔ ∃ t, ts !! o = Some t ∧ owns o t k = true.

(** The availability array agrees with the threads' program counters: an
    entry is [false] exactly when some thread has marked it and not yet
    given it back, and no entry is marked by two threads. *)
Definition reserved {T : Type} (marks : nat → T → nat → bool)
    (l : list bool) (ts : list T) : Prop :=
  (∀ k b, l !! k = Some b →
          (b = false ↔ ∃ i t, ts !! i = Some t ∧ marks i t k = true)) ∧
  (∀ i j ti tj k, ts !! i = Some ti → ts !! j = Some tj →
                  marks i ti k = true → marks j tj k = true → i = j).

(** ** Solution 1: the counting semaphore *)

Module DiningPhilosophersSemaphore.

Definition NUM_PHILOSOPHERS : nat := 5.

(** The statements of [philosopher(int id)] that a thread can be about to
    run (source lines in comments). *)
Inductive pc :=
| LoopHead      (* 30-33: test [meal < 3], then think *)
| SemAcquire    (* 39: dining_semaphore.acquire() *)
| LockLeft      (* 48: chopsticks[left_chopstick].lock() *)
| LockRight     (* 51: chopsticks[right_chopstick].lock() *)
| Eating        (* 55-56: eat *)
| UnlockRight   (* 59: chopsticks[right_chopstick].unlock() *)
| UnlockLeft    (* 60: chopsticks[left_chopstick].unlock() *)
| SemRelease    (* 64: dining_semaphore.release() *)
| Rest          (* 68: short break, then ++meal *)
| Finished.     (* 70: the loop is over *)

Inductive event :=
| EThink
| EAcquire
| ELock (k : nat)
| EEat
| EUnlock (k : nat)
| ERelease
| ERest
| EFinish.

Record state := State {
  dining_semaphore : nat;            (* free permits *)
  chopsticks : list (option nat);    (* owner of each mutex *)
  philosophers : list (pc * nat)     (* per thread: next statement, [meal] *)
}.

Definition left_chopstick (id : nat) : nat := id.
Definition right_chopstick (id : nat) : nat := (id + 1) mod NUM_PHILOSOPHERS.

Definition goto (s : state) (id : nat) (p : pc) (meal : nat) : state :=
  State (dining_semaphore s) (chopsticks s) (<[id := (p, meal)]> (philosophers s)).

Definition with_chopsticks (s : state) (cs : list (option nat)) : state :=
  State (dining_semaphore s) cs (philosophers s).

Definition with_semaphore (s : state) (n : nat) : state :=
  State n (chopsticks s) (philosophers s).

Definition step (s : state) (id : nat) : option (event * state) :=
  match philosophers s !! id with
  | None => None
  | Some (p, meal) =>
      match p with
      | LoopHead =>
          if meal <? 3 then Some (EThink, goto s id SemAcquire meal)
          else Some (EFinish, goto s id Finished meal)
      | SemAcquire =>
          if 0 <? dining_semaphore s
          then Some (EAcquire,
                     goto (with_semaphore s (dining_semaphore s - 1)) id LockLeft meal)
          else None
      | LockLeft =>
          cs ← mutex_lock id (chopsticks s) (left_chopstick id);
          Some (ELock (left_chopstick id), goto (with_chopsticks s cs) id LockRight meal)
      | LockRight =>
          cs ← mutex_lock id (chopsticks s) (right_chopstick id);
          Some (ELock (right_chopstick id), goto (with_chopsticks s cs) id Eating meal)
      | Eating => Some (EEat, goto s id UnlockRight meal)
      | UnlockRight =>
          cs ← mutex_unlock id (chopsticks s) (right_chopstick id);
          Some (EUnlock (right_chopstick id), goto (with_chopsticks s cs) id UnlockLeft meal)
      | UnlockLeft =>
          cs ← mutex_unlock id (chopsticks s) (left_chopstick id);
          Some (EUnlock (left_chopstick id), goto (with_chopsticks s cs) id SemRelease meal)
      | SemRelease =>
          Some (ERelease, goto (with_semaphore s (dining_semaphore s + 1)) id Rest meal)
      | Rest => Some (ERest, goto s id LoopHead (meal + 1))
      | Finished => None
      end
  end.

(** [demonstrate]: the semaphore starts with [NUM_PHILOSOPHERS-1] permits
    (line 96), every mutex is free, and the five threads are at the top of
    [philosopher] with [meal = 0]. *)
Definition init : state :=
  State (NUM_PHILOSOPHERS - 1)
        (replicate NUM_PHILOSOPHERS None)
        (replicate NUM_PHILOSOPHERS (LoopHead, 0)).

Definition sem_run := run step (λ id : nat, id) init.
Definition sem_exec := exec step (λ id : nat, id) init [].

(** One pass through the loop body, as the events of thread [id]. *)
Definition cycle (id : nat) : list event :=
  [EThink; EAcquire; ELock (left_chopstick id); ELock (right_chopstick id); EEat;
   EUnlock (right_chopstick id); EUnlock (left_chopstick id); ERelease; ERest].

(** Position of a statement inside the loop body. *)
Definition position (p : pc) : nat :=
  match p with
  | LoopHead => 0 | SemAcquire => 1 | LockLeft => 2 | LockRight => 3
  | Eating => 4 | UnlockRight => 5 | UnlockLeft => 6 | SemRelease => 7
  | Rest => 8 | Finished => 0
  end.

(** A thread is past admission from the moment [acquire] returned until it
    calls [release]. *)
Definition admitted (p : pc) : bool :=
  match p with
  | LockLeft | LockRight | Eating | UnlockRight | UnlockLeft | SemRelease => true
  | _ => false
  end.

Definition attempting (s : state) : nat :=
  sum_list_with (λ t : pc * nat, if admitted (fst t) then 1 else 0) (philosophers s).

Definition holds_left (p : pc) : bool :=
  match p with LockRight | Eating | UnlockRight | UnlockLeft => true | _ => false end.

Definition holds_right (p : pc) : bool :=
  match p with Eating | UnlockRight => true | _ => false end.

(** Thread [id], about to run [p], owns mutex [k]. *)
Definition owns (id : nat) (p : pc) (k : nat) : bool :=
  (k =? left_chopstick id) && holds_left p || (k =? right_chopstick id) && holds_right p.

Definition all_finished (s : state) : Prop :=
  ∀ id t, philosophers s !! id = Some t → fst t = Finished.

Definition is_eat (e : event) : bool :=
  match e with EEat => true | _ => false end.

(** What thread [id] has done so far when it is about to run [p] in
    iteration [meal]. *)
Definition thread_trace (id : nat) (t : pc * nat) : list event :=
  concat (replicate (snd t) (cycle id)) ++ take (position (fst t)) (cycle id)
  ++ match fst t with Finished => [EFinish] | _ => [] end.

Definition meal_ok (t : pc * nat) : Prop :=
  match fst t with
  | LoopHead => snd t ≤ 3
  | Finished => snd t = 3
  | _ => snd t < 3
  end.

(** The control flow of [philosopher(id)] alone: the statement at [p] and
    where it continues, whatever the shared state. *)
Definition local_next (id : nat) (t : pc * nat) : option (event * (pc * nat)) :=
  let meal := snd t in
  match fst t with
  | LoopHead => if meal <? 3 then Some (EThink, (SemAcquire, meal))
                else Some (EFinish, (Finished, meal))
  | SemAcquire => Some (EAcquire, (LockLeft, meal))
  | LockLeft => Some (ELock (left_chopstick id), (LockRight, meal))
  | LockRight => Some (ELock (right_chopstick id), (Eating, meal))
  | Eating => Some (EEat, (UnlockRight, meal))
  | UnlockRight => Some (EUnlock (right_chopstick id), (UnlockLeft, meal))
  | UnlockLeft => Some (EUnlock (left_chopstick id), (SemRelease, meal))
  | SemRelease => Some (ERelease, (Rest, meal))
  | Rest => Some (ERest, (LoopHead, meal + 1))
  | Finished => None
  end.

(** Meals eaten so far by a thread. *)
Definition meals_done (t : pc * nat) : nat :=
  snd t + match fst t with
          | UnlockRight | UnlockLeft | SemRelease | Rest => 1
          | _ => 0
          end.

(** Statements run so far by a thread. *)
Definition steps_done (t : pc * nat) : nat :=
  9 * snd t + position (fst t) + match fst t with Finished => 1 | _ => 0 end.

Definition is_acquire (e : event) : bool :=
  match e with EAcquire => true | _ => false end.

Definition is_release (e : event) : bool :=
  match e with ERelease => true | _ => false end.

(** Calls of [release] made so far by a thread. *)
Definition releases_done (t : pc * nat) : nat :=
  snd t + match fst t with Rest => 1 | _ => 0 end.

(** Two concrete interleavings.  In [contended] the threads 0..3 take the
    four permits and their left chopsticks, and thread 4 arrives at
    [acquire]; in [sequential] the threads run to completion one after the
    other. *)
Definition contended : list nat :=
  [0; 1; 2; 3; 4; 0; 1; 2; 3; 0; 1; 2; 3].

Definition sequential : list nat :=
  concat (map (replicate 28) (seq 0 NUM_PHILOSOPHERS)).

Definition after (sched : list nat) : list (nat * event) * state :=
  default ([], init) (sem_exec sched).

(** Threads 0 and 2 both reach the table and start to eat. *)
Definition two_eating : list nat := [0; 0; 0; 0; 2; 2; 2; 2].

Record invariant (s : state) : Prop := Invariant {
  inv_threads : length (philosophers s) = NUM_PHILOSOPHERS;
  inv_mutexes : length (chopsticks s) = NUM_PHILOSOPHERS;
  inv_permits : dining_semaphore s + attempting s = NUM_PHILOSOPHERS - 1;
  inv_agree : agree (λ id (t : pc * nat), owns id (fst t)) (chopsticks s) (philosophers s)
}.

End DiningPhilosophersSemaphore.

(** ** Solution 2: the waiter *)

Module DiningPhilosophersWaiter.

Definition NUM_PHILOSOPHERS : nat := 5.

(** The statements of [philosopher], [request_chopsticks] and
    [return_chopsticks] that a thread can be about to run. *)
Inductive pc :=
| LoopHead        (* 154-157: test [meal < 3], then think *)
| RequestLock     (* 118: unique_lock<mutex> lock(waiter_mutex) *)
| RequestCheck    (* 121: wait evaluates the predicate can_eat(philosopher_id) *)
| RequestWait     (* 121: blocked inside wait, waiter_mutex released *)
| ReserveLeft     (* 126: chopstick_available[left] = false *)
| ReserveRight    (* 127: chopstick_available[right] = false *)
| RequestReturn   (* 129-131: print; the lock's destructor unlocks *)
| Eating          (* 164-165: eat *)
| ReturnLock      (* 135: unique_lock<mutex> lock(waiter_mutex) *)
| ReturnLeft      (* 139: chopstick_available[left] = true *)
| ReturnRight     (* 140: chopstick_available[right] = true *)
| ReturnNotify    (* 146: waiter_cv.notify_all() *)
| ReturnUnlock    (* 147: the lock's destructor unlocks; 169; ++meal *)
| Finished.       (* 171: the loop is over *)

Inductive event :=
| EThink
| ELockWaiter
| EGranted                   (* the predicate held *)
| EBlocked                   (* the predicate failed: wait unlocks and sleeps *)
| EWoken                     (* wait re-locked the mutex *)
| ESet (k : nat) (b : bool)  (* chopstick_available[k] = b *)
| EUnlockWaiter
| EEat
| ENotifyAll
| EFinish.

Record state := State {
  waiter_mutex : option nat;          (* owner of the waiter's mutex *)
  chopstick_available : list bool;
  philosophers : list (pc * nat)      (* per thread: next statement, [meal] *)
}.

Definition left_of (philosopher_id : nat) : nat := philosopher_id.
Definition right_of (philosopher_id : nat) : nat :=
  (philosopher_id + 1) mod NUM_PHILOSOPHERS.

(** [can_eat]; an index outside the array has no value. *)
Definition can_eat (chopstick_available : list bool) (philosopher_id : nat)
  : option bool :=
  a ← chopstick_available !! left_of philosopher_id;
  b ← chopstick_available !! right_of philosopher_id;
  Some (a && b).

(** The critical section of [request_chopsticks] on the array alone: [None]
    while the predicate fails and the caller keeps waiting. *)
Definition request_chopsticks (chopstick_available : list bool) (philosopher_id : nat)
  : option (list bool) :=
  match can_eat chopstick_available philosopher_id with
  | Some true =>
      Some (<[right_of philosopher_id := false]>
              (<[left_of philosopher_id := false]> chopstick_available))
  | _ => None
  end.

(** The critical section of [return_chopsticks] on the array alone. *)
Definition return_chopsticks (chopstick_available : list bool) (philosopher_id : nat)
  : list bool :=
  <[right_of philosopher_id := true]>
    (<[left_of philosopher_id := true]> chopstick_available).

Definition goto (s : state) (id : nat) (p : pc) (meal : nat) : state :=
  State (waiter_mutex s) (chopstick_available s) (<[id := (p, meal)]> (philosophers s)).

Definition with_mutex (s : state) (m : option nat) : state :=
  State m (chopstick_available s) (philosophers s).

Definition with_available (s : state) (l : list bool) : state :=
  State (waiter_mutex s) l (philosophers s).

(** Locking and unlocking [waiter_mutex]. *)
Definition lock_waiter (s : state) (id : nat) : option state :=
  match waiter_mutex s with
  | None => Some (with_mutex s (Some id))
  | Some _ => None
  end.

Definition unlock_waiter (s : state) (id : nat) : option state :=
  match waiter_mutex s with
  | Some o => if o =? id then Some (with_mutex s None) else None
  | None => None
  end.

(** A thread blocked in [wait] resumes when it is notified, or spuriously,
    as the standard permits; [wait] then re-locks the mutex and evaluates
    the predicate again.  The model lets a waiting thread resume whenever
    the mutex is free, which covers both. *)
Definition step (s : state) (id : nat) : option (event * state) :=
  match philosophers s !! id with
  | None => None
  | Some (p, meal) =>
      match p with
      | LoopHead =>
          if meal <? 3 then Some (EThink, goto s id RequestLock meal)
          else Some (EFinish, goto s id Finished meal)
      | RequestLock =>
          s1 ← lock_waiter s id;
          Some (ELockWaiter, goto s1 id RequestCheck meal)
      | RequestCheck =>
          match can_eat (chopstick_available s) id with
          | Some true => Some (EGranted, goto s id ReserveLeft meal)
          | Some false =>
              s1 ← unlock_waiter s id;
              Some (EBlocked, goto s1 id RequestWait meal)
          | None => None
          end
      | RequestWait =>
          s1 ← lock_waiter s id;
          Some (EWoken, goto s1 id RequestCheck meal)
      | ReserveLeft =>
          Some (ESet (left_of id) false,
                goto (with_available s (<[left_of id := false]> (chopstick_available s)))
                     id ReserveRight meal)
      | ReserveRight =>
          Some (ESet (right_of id) false,
                goto (with_available s (<[right_of id := false]> (chopstick_available s)))
                     id RequestReturn meal)
      | RequestReturn =>
          s1 ← unlock_waiter s id;
          Some (EUnlockWaiter, goto s1 id Eating meal)
      | Eating => Some (EEat, goto s id ReturnLock meal)
      | ReturnLock =>
          s1 ← lock_waiter s id;
          Some (ELockWaiter, goto s1 id ReturnLeft meal)
      | ReturnLeft =>
          Some (ESet (left_of id) true,
                goto (with_available s (<[left_of id := true]> (chopstick_available s)))
                     id ReturnRight meal)
      | ReturnRight =>
          Some (ESet (right_of id) true,
                goto (with_available s (<[right_of id := true]> (chopstick_available s)))
                     id ReturnNotify meal)
      | ReturnNotify => Some (ENotifyAll, goto s id ReturnUnlock meal)
      | ReturnUnlock =>
          s1 ← unlock_waiter s id;
          Some (EUnlockWaiter, goto s1 id LoopHead (meal + 1))
      | Finished => None
      end
  end.

(** [demonstrate]: every entry is made available (line 181) before the
    threads start. *)
Definition init : state :=
  State None
        (replicate NUM_PHILOSOPHERS true)
        (replicate NUM_PHILOSOPHERS (LoopHead, 0)).

Definition waiter_run := run step (λ id : nat, id) init.
Definition waiter_exec := exec step (λ id : nat, id) init [].

(** Statements run while holding [waiter_mutex]. *)
Definition critical (p : pc) : bool :=
  match p with
  | RequestCheck | ReserveLeft | ReserveRight | RequestReturn
  | ReturnLeft | ReturnRight | ReturnNotify | ReturnUnlock => true
  | _ => false
  end.

(** Between the two assignments of [request_chopsticks], and up to its
    return. *)
Definition granting (p : pc) : bool :=
  match p with ReserveLeft | ReserveRight | RequestReturn => true | _ => false end.

(** The thread has set its left (right) entry to [false] and not yet back
    to [true]. *)
Definition marked_left (p : pc) : bool :=
  match p with
  | ReserveRight | RequestReturn | Eating | ReturnLock | ReturnLeft => true
  | _ => false
  end.

Definition marked_right (p : pc) : bool :=
  match p with
  | RequestReturn | Eating | ReturnLock | ReturnLeft | ReturnRight => true
  | _ => false
  end.

(** Thread [id], about to run [p], owns resource [k]. *)
Definition marks (id : nat) (p : pc) (k : nat) : bool :=
  (k =? left_of id) && marked_left p || (k =? right_of id) && marked_right p.

(** Events that read or write [chopstick_available]. *)
Definition touches_ledger (e : event) : bool :=
  match e with EGranted | EBlocked | ESet _ _ => true | _ => false end.

Record invariant (s : state) : Prop := Invariant {
  inv_threads : length (philosophers s) = NUM_PHILOSOPHERS;
  inv_ledger : length (chopstick_available s) = NUM_PHILOSOPHERS;
  inv_mutex :
    agree (λ id (t : pc * nat) k, (k =? 0) && critical (fst t))
          [waiter_mutex s] (philosophers s);
  inv_reserved :
    reserved (λ id (t : pc * nat), marks id (fst t))
             (chopstick_available s) (philosophers s);
  inv_granting : ∀ id p meal, philosophers s !! id = Some (p, meal) →
    (p = ReserveLeft → chopstick_available s !! left_of id = Some true) ∧
    (p = ReserveLeft ∨ p = ReserveRight →
       chopstick_available s !! right_of id = Some true)
}.

(** Three concrete interleavings: thread 1 is granted its pair and has set
    the first entry while thread 2 is blocked at [waiter_mutex]; thread 0
    runs one whole iteration alone; thread 0 is eating when thread 1 asks
    for its pair and has to wait. *)
Definition half_granted : list nat := [1; 2; 1; 1; 1].
Definition one_meal : list nat := replicate 12 0.
Definition neighbour_waits : list nat := replicate 6 0 ++ replicate 3 1.

Definition after (sched : list nat) : list (nat * event) * state :=
  default ([], init) (waiter_exec sched).

(** The control flow of [philosopher(id)] alone; [granted] is the value of
    the predicate when the thread is at [wait]. *)
Definition local_next (id : nat) (granted : bool) (t : pc * nat)
  : option (event * (pc * nat)) :=
  let meal := snd t in
  match fst t with
  | LoopHead => if meal <? 3 then Some (EThink, (RequestLock, meal))
                else Some (EFinish, (Finished, meal))
  | RequestLock => Some (ELockWaiter, (RequestCheck, meal))
  | RequestCheck => if granted then Some (EGranted, (ReserveLeft, meal))
                    else Some (EBlocked, (RequestWait, meal))
  | RequestWait => Some (EWoken, (RequestCheck, meal))
  | ReserveLeft => Some (ESet (left_of id) false, (ReserveRight, meal))
  | ReserveRight => Some (ESet (right_of id) false, (RequestReturn, meal))
  | RequestReturn => Some (EUnlockWaiter, (Eating, meal))
  | Eating => Some (EEat, (ReturnLock, meal))
  | ReturnLock => Some (ELockWaiter, (ReturnLeft, meal))
  | ReturnLeft => Some (ESet (left_of id) true, (ReturnRight, meal))
  | ReturnRight => Some (ESet (right_of id) true, (ReturnNotify, meal))
  | ReturnNotify => Some (ENotifyAll, (ReturnUnlock, meal))
  | ReturnUnlock => Some (EUnlockWaiter, (LoopHead, meal + 1))
  | Finished => None
  end.

Definition all_finished (s : state) : Prop :=
  ∀ id t, philosophers s !! id = Some t → fst t = Finished.

Definition is_finished (t : pc * nat) : bool :=
  match fst t with Finished => true | _ => false end.

Definition is_eat (e : event) : bool :=
  match e with EEat => true | _ => false end.

Definition meal_ok (t : pc * nat) : Prop :=
  match fst t with
  | LoopHead => snd t ≤ 3
  | Finished => snd t = 3
  | _ => snd t < 3
  end.

(** Meals eaten so far by a thread. *)
Definition meals_done (t : pc * nat) : nat :=
  snd t + match fst t with
          | ReturnLock | ReturnLeft | ReturnRight | ReturnNotify | ReturnUnlock => 1
          | _ => 0
          end.

(** Position of a statement inside the loop body; a thread sent to sleep
    by [wait] has got further than one that still has to look. *)
Definition position (p : pc) : nat :=
  match p with
  | LoopHead => 0 | RequestLock => 1 | RequestCheck => 2 | RequestWait => 3
  | ReserveLeft => 4 | ReserveRight => 5 | RequestReturn => 6 | Eating => 7
  | ReturnLock => 8 | ReturnLeft => 9 | ReturnRight => 10 | ReturnNotify => 11
  | ReturnUnlock => 12 | Finished => 0
  end.

(** Statements a thread still has to run when it is never sent to sleep
    again. *)
Definition weight (t : pc * nat) : nat :=
  match fst t with
  | Finished => 0
  | p => 13 * (3 - snd t) + 1 - position p
  end.

(** Statements that run without [waiter_mutex] and cannot wait for the
    array. *)
Definition movable (t : pc * nat) : bool :=
  match fst t with
  | LoopHead | RequestLock | Eating | ReturnLock => true
  | _ => false
  end.

Definition is_waiting (t : pc * nat) : bool :=
  match fst t with RequestWait => true | _ => false end.

(** One pass through the loop body in which the thread never has to wait,
    as the events of thread [id]. *)
Definition cycle (id : nat) : list event :=
  [EThink; ELockWaiter; EGranted; ESet (left_of id) false; ESet (right_of id) false;
   EUnlockWaiter; EEat; ELockWaiter; ESet (left_of id) true; ESet (right_of id) true;
   ENotifyAll; EUnlockWaiter].

(** Going to sleep in [wait] and waking up again. *)
Definition is_wait_event (e : event) : bool :=
  match e with EBlocked | EWoken => true | _ => false end.

(** Events of the current pass behind a thread, the rounds of [wait] left
    out. *)
Definition progress_in_cycle (p : pc) : nat :=
  match p with
  | LoopHead => 0 | RequestLock => 1 | RequestCheck => 2 | RequestWait => 2
  | ReserveLeft => 3 | ReserveRight => 4 | RequestReturn => 5 | Eating => 6
  | ReturnLock => 7 | ReturnLeft => 8 | ReturnRight => 9 | ReturnNotify => 10
  | ReturnUnlock => 11 | Finished => 0
  end.

Definition thread_trace (id : nat) (t : pc * nat) : list event :=
  concat (replicate (snd t) (cycle id)) ++ take (progress_in_cycle (fst t)) (cycle id)
  ++ match fst t with Finished => [EFinish] | _ => [] end.

(** Threads 0 and 2 are both granted their pairs and eat. *)
Definition two_eating : list nat := replicate 6 0 ++ replicate 6 2.

(** The threads run to completion one after the other. *)
Definition sequential : list nat :=
  concat (map (replicate 37) (seq 0 NUM_PHILOSOPHERS)).

(** ** The condition variable

    [step] lets a thread in [wait] resume whenever the mutex is free, as a
    spurious wake-up would.  Whether the program can come to a halt must not
    rest on such wake-ups, so [step_cv] keeps, beside the shared state, the
    threads blocked on [waiter_cv]: [wait] on a false predicate unlocks the
    mutex and blocks the caller in one step, a blocked thread does not run,
    and only [notify_all] unblocks (all of) them. *)
Record cv_state : Type := CvState {
  shared : state;
  waiter_cv : list bool
}.

Definition blocked (c : cv_state) (id : nat) : bool :=
  default false (waiter_cv c !! id).

Definition step_cv (c : cv_state) (id : nat) : option (event * cv_state) :=
  if blocked c id then None
  else
    match step (shared c) id with
    | Some (EBlocked, s') =>
        Some (EBlocked, CvState s' (<[id := true]> (waiter_cv c)))
    | Some (ENotifyAll, s') =>
        Some (ENotifyAll, CvState s' (replicate (length (waiter_cv c)) false))
    | Some (ev, s') => Some (ev, CvState s' (waiter_cv c))
    | None => None
    end.

Definition init_cv : cv_state := CvState init (replicate NUM_PHILOSOPHERS false).

Definition cv_run := run step_cv (λ id : nat, id) init_cv.
Definition cv_exec := exec step_cv (λ id : nat, id) init_cv [].

Definition after_cv (sched : list nat) : list (nat * event) * cv_state :=
  default ([], init_cv) (cv_exec sched).

(** Statements between the grant of a pair and the [notify_all] that
    follows its return: a thread there has a [notify_all] ahead of it that
    needs no other thread's return. *)
Definition will_notify (p : pc) : bool :=
  match p with
  | ReserveLeft | ReserveRight | RequestReturn | Eating
  | ReturnLock | ReturnLeft | ReturnRight | ReturnNotify => true
  | _ => false
  end.

(** A measure that every step of [step_cv] lowers: the statements a thread
    has ahead of it, a [notify_all] counting for the wake-ups it causes, and
    two for every thread that is not blocked. *)
Definition cv_position (p : pc) : nat :=
  match p with
  | LoopHead => 0 | RequestLock => 1 | RequestWait => 2 | RequestCheck => 3
  | ReserveLeft => 4 | ReserveRight => 5 | RequestReturn => 6 | Eating => 7
  | ReturnLock => 8 | ReturnLeft => 9 | ReturnRight => 10 | ReturnNotify => 11
  | ReturnUnlock => 22 | Finished => 0
  end.

Definition cv_weight (t : pc * nat) : nat :=
  match fst t with
  | Finished => 0
  | p => 30 * (3 - snd t) + 1 - cv_position p
  end.

Definition awake (b : bool) : nat := if b then 0 else 1.

Definition potential (c : cv_state) : nat :=
  sum_list_with cv_weight (philosophers (shared c))
  + 2 * sum_list_with awake (waiter_cv c).

(** The condition variable and the program counters: only a thread inside
    [wait] is blocked, and while a thread is blocked some thread has a
    [notify_all] ahead of it. *)
Record cv_invariant (c : cv_state) : Prop := CvInvariant {
  cv_length : length (waiter_cv c) = NUM_PHILOSOPHERS;
  cv_blocked : ∀ id, waiter_cv c !! id = Some true →
    ∃ meal, philosophers (shared c) !! id = Some (RequestWait, meal);
  cv_notifier : ∀ id, waiter_cv c !! id = Some true →
    ∃ j p meal, philosophers (shared c) !! j = Some (p, meal) ∧ will_notify p = true
}.

(** Thread 0 is eating when thread 1 is about to call
    [request_chopsticks]; then thread 1 has to wait, thread 0 returns its
    pair, and thread 1 is granted its pair, eats and returns it. *)
Definition request_refused : list nat := replicate 6 0 ++ [1].
Definition request_delayed : list nat :=
  request_refused ++ [1; 1] ++ replicate 6 0 ++ replicate 11 1.

End DiningPhilosophersWaiter.

(** ** Solution 3: timeouts and back-off *)

Module DiningPhilosophersTimeout.

Definition NUM_PHILOSOPHERS : nat := 5.

(** The statements of [philosopher(int id)] that a thread can be about to
    run. *)
Inductive pc :=
| LoopHead        (* 221-226: test, attempts++, think *)
| TryFirst        (* 238: chopsticks[left].try_lock_for(1000ms) *)
| TrySecond       (* 242: chopsticks[right].try_lock_for(1000ms) *)
| Success         (* 246-247: meals_eaten++; successful_meals++ *)
| Eating          (* 248-249: eat *)
| UnlockSecond    (* 252: chopsticks[right].unlock() *)
| UnlockFirst     (* 253: chopsticks[left].unlock() *)
| SecondTimedOut  (* 258: timeouts++ *)
| GiveBackFirst   (* 260: chopsticks[left].unlock(); 263: back off *)
| FirstTimedOut   (* 267: timeouts++; 271: back off *)
| Finished.       (* 275: the loop is over *)

Inductive event :=
| EAttempt
| ETryLock (k : nat) (ok : bool)
| ESuccess
| EEat
| EUnlock (k : nat)
| ETimeout
| EFinish.

Record thread := Thread {
  at_pc : pc;
  meals_eaten : nat;
  attempts : nat
}.

Record state := State {
  chopsticks : list (option nat);   (* owner of each timed_mutex *)
  successful_meals : nat;
  timeouts : nat;
  philosophers : list thread
}.

(** Lines 229-233: [left = id], [right = (id + 1) % NUM_PHILOSOPHERS], and
    [if (left > right) swap(left, right)]; the pair is ([left], [right])
    after the swap. *)
Definition acquisition_order (id : nat) : nat * nat :=
  let left := id in
  let right := (id + 1) mod NUM_PHILOSOPHERS in
  if right <? left then (right, left) else (left, right).

Definition first_chopstick (id : nat) : nat := fst (acquisition_order id).
Definition second_chopstick (id : nat) : nat := snd (acquisition_order id).

Definition goto (s : state) (id : nat) (t : thread) : state :=
  State (chopsticks s) (successful_meals s) (timeouts s) (<[id := t]> (philosophers s)).

Definition with_chopsticks (s : state) (cs : list (option nat)) : state :=
  State cs (successful_meals s) (timeouts s) (philosophers s).

Definition count_success (s : state) : state :=
  State (chopsticks s) (successful_meals s + 1) (timeouts s) (philosophers s).

Definition count_timeout (s : state) : state :=
  State (chopsticks s) (successful_meals s) (timeouts s + 1) (philosophers s).

(** [try_lock_for] returns [true] after taking the mutex, which it can do
    only when the mutex is free; it returns [false] when the wait ran out
    (it may also fail spuriously).  The scheduler's choice [(id, ok)] names
    the thread and, at a [try_lock_for], the outcome. *)
Definition step (s : state) (c : nat * bool) : option (event * state) :=
  let id := fst c in
  let ok := snd c in
  match philosophers s !! id with
  | None => None
  | Some t =>
      let m := meals_eaten t in
      let a := attempts t in
      match at_pc t with
      | LoopHead =>
          if (m <? 3) && (a <? 10)
          then Some (EAttempt, goto s id (Thread TryFirst m (a + 1)))
          else Some (EFinish, goto s id (Thread Finished m a))
      | TryFirst =>
          if ok then
            cs ← mutex_lock id (chopsticks s) (first_chopstick id);
            Some (ETryLock (first_chopstick id) true,
                  goto (with_chopsticks s cs) id (Thread TrySecond m a))
          else Some (ETryLock (first_chopstick id) false,
                     goto s id (Thread FirstTimedOut m a))
      | TrySecond =>
          if ok then
            cs ← mutex_lock id (chopsticks s) (second_chopstick id);
            Some (ETryLock (second_chopstick id) true,
                  goto (with_chopsticks s cs) id (Thread Success m a))
          else Some (ETryLock (second_chopstick id) false,
                     goto s id (Thread SecondTimedOut m a))
      | Success =>
          Some (ESuccess, goto (count_success s) id (Thread Eating (m + 1) a))
      | Eating => Some (EEat, goto s id (Thread UnlockSecond m a))
      | UnlockSecond =>
          cs ← mutex_unlock id (chopsticks s) (second_chopstick id);
          Some (EUnlock (second_chopstick id),
                goto (with_chopsticks s cs) id (Thread UnlockFirst m a))
      | UnlockFirst =>
          cs ← mutex_unlock id (chopsticks s) (first_chopstick id);
          Some (EUnlock (first_chopstick id),
                goto (with_chopsticks s cs) id (Thread LoopHead m a))
      | SecondTimedOut =>
          Some (ETimeout, goto (count_timeout s) id (Thread GiveBackFirst m a))
      | GiveBackFirst =>
          cs ← mutex_unlock id (chopsticks s) (first_chopstick id);
          Some (EUnlock (first_chopstick id),
                goto (with_chopsticks s cs) id (Thread LoopHead m a))
      | FirstTimedOut =>
          Some (ETimeout, goto (count_timeout s) id (Thread LoopHead m a))
      | Finished => None
      end
  end.

(** [demonstrate]: both counters are reset (lines 284-285), every mutex is
    free, and each thread starts with [meals_eaten = 0], [attempts = 0]. *)
Definition init : state :=
  State (replicate NUM_PHILOSOPHERS None) 0 0
        (replicate NUM_PHILOSOPHERS (Thread LoopHead 0 0)).

Definition timeout_run := run step (λ c : nat * bool, fst c) init.
Definition timeout_exec := exec step (λ c : nat * bool, fst c) init [].

(** The control flow of [philosopher(id)] alone. *)
Definition local_next (id : nat) (ok : bool) (t : thread) : option (event * thread) :=
  let m := meals_eaten t in
  let a := attempts t in
  match at_pc t with
  | LoopHead =>
      if (m <? 3) && (a <? 10) then Some (EAttempt, Thread TryFirst m (a + 1))
      else Some (EFinish, Thread Finished m a)
  | TryFirst =>
      if ok then Some (ETryLock (first_chopstick id) true, Thread TrySecond m a)
      else Some (ETryLock (first_chopstick id) false, Thread FirstTimedOut m a)
  | TrySecond =>
      if ok then Some (ETryLock (second_chopstick id) true, Thread Success m a)
      else Some (ETryLock (second_chopstick id) false, Thread SecondTimedOut m a)
  | Success => Some (ESuccess, Thread Eating (m + 1) a)
  | Eating => Some (EEat, Thread UnlockSecond m a)
  | UnlockSecond => Some (EUnlock (second_chopstick id), Thread UnlockFirst m a)
  | UnlockFirst => Some (EUnlock (first_chopstick id), Thread LoopHead m a)
  | SecondTimedOut => Some (ETimeout, Thread GiveBackFirst m a)
  | GiveBackFirst => Some (EUnlock (first_chopstick id), Thread LoopHead m a)
  | FirstTimedOut => Some (ETimeout, Thread LoopHead m a)
  | Finished => None
  end.

(** How one pass through the loop body ends. *)
Inductive outcome := Ate | SecondFailed | FirstFailed.

(** The events of one pass of thread [id]. *)
Definition attempt_events (id : nat) (o : outcome) : list event :=
  match o with
  | Ate =>
      [EAttempt; ETryLock (first_chopstick id) true; ETryLock (second_chopstick id) true;
       ESuccess; EEat; EUnlock (second_chopstick id); EUnlock (first_chopstick id)]
  | SecondFailed =>
      [EAttempt; ETryLock (first_chopstick id) true; ETryLock (second_chopstick id) false;
       ETimeout; EUnlock (first_chopstick id)]
  | FirstFailed =>
      [EAttempt; ETryLock (first_chopstick id) false; ETimeout]
  end.

(** The events of the pass under way when the thread is about to run [p]. *)
Definition current_events (id : nat) (p : pc) : list event :=
  match p with
  | LoopHead => []
  | TryFirst => take 1 (attempt_events id Ate)
  | TrySecond => take 2 (attempt_events id Ate)
  | Success => take 3 (attempt_events id Ate)
  | Eating => take 4 (attempt_events id Ate)
  | UnlockSecond => take 5 (attempt_events id Ate)
  | UnlockFirst => take 6 (attempt_events id Ate)
  | SecondTimedOut => take 3 (attempt_events id SecondFailed)
  | GiveBackFirst => take 4 (attempt_events id SecondFailed)
  | FirstTimedOut => take 2 (attempt_events id FirstFailed)
  | Finished => [EFinish]
  end.

Definition in_progress (p : pc) : nat :=
  match p with LoopHead | Finished => 0 | _ => 1 end.

Definition eaten_now (p : pc) : nat :=
  match p with Eating | UnlockSecond | UnlockFirst => 1 | _ => 0 end.

Definition is_ate (o : outcome) : bool :=
  match o with Ate => true | _ => false end.

Definition is_attempt (e : event) : bool :=
  match e with EAttempt => true | _ => false end.

Definition is_success (e : event) : bool :=
  match e with ESuccess => true | _ => false end.

Definition is_eat (e : event) : bool :=
  match e with EEat => true | _ => false end.

Definition is_timeout (e : event) : bool :=
  match e with ETimeout => true | _ => false end.

(** The events of thread [id] so far are the passes [outs] and the pass
    under way. *)
Definition history (id : nat) (t : thread) (outs : list outcome) (l : list event) : Prop :=
  l = concat (map (attempt_events id) outs) ++ current_events id (at_pc t) ∧
  attempts t = length outs + in_progress (at_pc t) ∧
  meals_eaten t = occurrences is_ate outs + eaten_now (at_pc t).

(** Counter bounds at each statement. *)
Definition thread_ok (t : thread) : Prop :=
  attempts t ≤ 10 ∧
  match at_pc t with
  | LoopHead => meals_eaten t ≤ 3 ∧ meals_eaten t ≤ attempts t
  | Eating | UnlockSecond | UnlockFirst =>
      meals_eaten t ≤ 3 ∧ meals_eaten t ≤ attempts t
  | Finished =>
      meals_eaten t ≤ 3 ∧ meals_eaten t ≤ attempts t ∧
      (meals_eaten t = 3 ∨ attempts t = 10)
  | _ => meals_eaten t < 3 ∧ meals_eaten t < attempts t
  end.

Definition holds_first (p : pc) : bool :=
  match p with
  | TrySecond | Success | Eating | UnlockSecond | UnlockFirst
  | SecondTimedOut | GiveBackFirst => true
  | _ => false
  end.

Definition holds_second (p : pc) : bool :=
  match p with Success | Eating | UnlockSecond => true | _ => false end.

(** Thread [id], about to run [p], owns mutex [k]. *)
Definition owns (id : nat) (p : pc) (k : nat) : bool :=
  (k =? first_chopstick id) && holds_first p || (k =? second_chopstick id) && holds_second p.

Definition all_finished (s : state) : Prop :=
  ∀ id t, philosophers s !! id = Some t → at_pc t = Finished.

Definition is_finished (t : thread) : bool :=
  match at_pc t with Finished => true | _ => false end.

(** An upper bound on the statements a thread still has to run. *)
Definition remaining (t : thread) : nat :=
  match at_pc t with
  | Finished => 0
  | LoopHead => 7 * (10 - attempts t) + 1
  | TryFirst => 7 * (10 - attempts t) + 7
  | TrySecond => 7 * (10 - attempts t) + 6
  | Success => 7 * (10 - attempts t) + 5
  | Eating => 7 * (10 - attempts t) + 4
  | UnlockSecond => 7 * (10 - attempts t) + 3
  | UnlockFirst => 7 * (10 - attempts t) + 2
  | SecondTimedOut => 7 * (10 - attempts t) + 3
  | GiveBackFirst => 7 * (10 - attempts t) + 2
  | FirstTimedOut => 7 * (10 - attempts t) + 2
  end.

Record invariant (s : state) : Prop := Invariant {
  inv_threads : length (philosophers s) = NUM_PHILOSOPHERS;
  inv_mutexes : length (chopsticks s) = NUM_PHILOSOPHERS;
  inv_agree : agree (λ id t, owns id (at_pc t)) (chopsticks s) (philosophers s);
  inv_total : successful_meals s = sum_list_with meals_eaten (philosophers s)
}.

(** Four concrete interleavings: thread 0 takes both chopsticks and
    counts its meal; the same run continued until thread 0 is back at the
    loop head; thread 4 alone, timing out on its first chopstick ten times;
    and thread 4 taking chopstick 0, then chopstick 4. *)
Definition counted : list (nat * bool) := replicate 4 (0, true).
Definition one_meal : list (nat * bool) := replicate 7 (0, true).
Definition starved : list (nat * bool) := replicate 31 (4, false).
Definition swapped : list (nat * bool) := replicate 3 (4, true).

Definition after (sched : list (nat * bool)) : list (nat * event) * state :=
  default ([], init) (timeout_exec sched).

(** A pass that has begun and is not yet counted in [successful_meals] or
    in [timeouts]. *)
Definition pending (t : thread) : nat :=
  match at_pc t with
  | TryFirst | TrySecond | Success | SecondTimedOut | FirstTimedOut => 1
  | _ => 0
  end.

(** Statements at which the outcome of [try_lock_for] matters. *)
Definition is_trying (t : thread) : bool :=
  match at_pc t with TryFirst | TrySecond => true | _ => false end.

(** Threads 0 and 2 both take their chopsticks and start to eat. *)
Definition two_eating : list (nat * bool) :=
  replicate 4 (0, true) ++ replicate 4 (2, true).

(** The threads run to completion one after the other, no wait running
    out. *)
Definition sequential : list (nat * bool) :=
  concat (map (λ id, replicate 22 (id, true)) (seq 0 NUM_PHILOSOPHERS)).

(** Thread 0 takes chopstick 0; thread 1 takes chopstick 1, runs out of
    time on chopstick 2 and gives chopstick 1 back. *)
Definition second_fails : list (nat * bool) :=
  [(0, true); (0, true); (1, true); (1, true); (1, false); (1, true); (1, true)].

End DiningPhilosophersTimeout.

(** * Proofs *)

(** ** Interleavings and traces *)

Section RunFacts.
Context {State Choice Event : Type}.
Variable step : State → Choice → option (Event * State).
Variable actor : Choice → nat.
Variable init : State.

Lemma exec_run_from sched : ∀ s tr tr' s',
  run step actor init tr s → exec step actor s tr sched = Some (tr', s') →
  run step actor init tr' s'.
Proof.
  induction sched as [|c sched IH]; intros s tr tr' s' Hrun Hex; simpl in Hex.
  - by simplify_eq.
  - destruct (step s c) as [[ev s1]|] eqn:Hstep; [|done].
    eapply IH; [|exact Hex]. by eapply run_step.
Qed.

Lemma exec_run sched tr s :
  exec step actor init [] sched = Some (tr, s) → run step actor init tr s.
Proof. apply exec_run_from. constructor. Qed.

(** Invariants are proved once for all interleavings. *)
Lemma run_invariant (I : list (nat * Event) → State → Prop) :
  I [] init →
  (∀ tr s c ev s', I tr s → step s c = Some (ev, s') → I (tr ++ [(actor c, ev)]) s') →
  ∀ tr s, run step actor init tr s → I tr s.
Proof. intros H0 HS tr s Hrun. induction Hrun; eauto. Qed.

(** When runs have bounded length and only final states are stuck, every
    run can be continued to a final state. *)
Lemma run_completes (final : State → Prop) (bound : nat) :
  (∀ tr s, run step actor init tr s → length tr ≤ bound) →
  (∀ tr s, run step actor init tr s →
           final s ∨ ∃ c ev s', step s c = Some (ev, s')) →
  ∀ tr s, run step actor init tr s →
          ∃ tr' s', run step actor init (tr ++ tr') s' ∧ final s'.
Proof.
  intros Hbound Hlive tr s Hrun.
  remember (bound - length tr) as n eqn:Hn.
  revert tr s Hrun Hn. induction n as [n IH] using lt_wf_ind. intros tr s Hrun Hn.
  destruct (Hlive _ _ Hrun) as [Hfin|(c & ev & s' & Hstep)].
  - exists [], s. by rewrite app_nil_r.
  - assert (run step actor init (tr ++ [(actor c, ev)]) s') as Hrun'
      by (by eapply run_step).
    pose proof (Hbound _ _ Hrun') as Hle. rewrite length_app in Hle. simpl in Hle.
    destruct (IH (bound - length (tr ++ [(actor c, ev)]))) with (2 := Hrun')
      as (tr' & s'' & Hrun'' & Hfin); [rewrite length_app; simpl; lia|done|].
    exists ((actor c, ev) :: tr'), s''. split; [|done].
    by rewrite <- app_assoc in Hrun''.
Qed.
End RunFacts.

Lemma proj_snoc_eq {Event : Type} (id : nat) (tr : list (nat * Event)) ev :
  proj id (tr ++ [(id, ev)]) = proj id tr ++ [ev].
Proof.
  unfold proj. rewrite List.filter_app, map_app. simpl.
  by rewrite Nat.eqb_refl.
Qed.

Lemma proj_snoc_ne {Event : Type} (id j : nat) (tr : list (nat * Event)) ev :
  j ≠ id → proj id (tr ++ [(j, ev)]) = proj id tr.
Proof.
  intros Hne. unfold proj. rewrite List.filter_app, map_app. simpl.
  apply Nat.eqb_neq in Hne. rewrite Hne. simpl. by rewrite app_nil_r.
Qed.

Lemma occurrences_app {Event : Type} (P : Event → bool) l1 l2 :
  occurrences P (l1 ++ l2) = occurrences P l1 + occurrences P l2.
Proof. unfold occurrences. by rewrite List.filter_app, length_app. Qed.

Lemma occurrences_concat_replicate {Event : Type} (P : Event → bool) n l :
  occurrences P (concat (replicate n l)) = n * occurrences P l.
Proof.
  induction n as [|n IH]; simpl; [done|].
  by rewrite occurrences_app, IH.
Qed.

(** ** Arrays updated in place *)

Lemma sum_list_with_insert {A : Type} (f : A → nat) (l : list A) i x y :
  l !! i = Some x →
  sum_list_with f (<[i:=y]> l) + f x = sum_list_with f l + f y.
Proof.
  revert i. induction l as [|a l IH]; intros [|i] Hl; simpl in *; try done.
  - simplify_eq. lia.
  - specialize (IH _ Hl). lia.
Qed.

Lemma sum_list_with_const {A : Type} (f : A → nat) (l : list A) c :
  (∀ i x, l !! i = Some x → f x = c) → sum_list_with f l = c * length l.
Proof.
  induction l as [|a l IH]; intros H; simpl; [lia|].
  rewrite (H 0 a eq_refl), IH; [lia|].
  intros i x Hi. by apply (H (S i)).
Qed.

Lemma sum_list_with_lookup_le {A : Type} (f : A → nat) (l : list A) i x :
  l !! i = Some x → f x ≤ sum_list_with f l.
Proof.
  revert i. induction l as [|a l IH]; intros [|i] Hl; simpl in *; try done.
  - simplify_eq. lia.
  - specialize (IH _ Hl). lia.
Qed.

(** ** The ring of five

    Among three different seats of a round table of five, two are next to
    each other. *)
Lemma ring_three_adjacent i j k :
  i < 5 → j < 5 → k < 5 → i ≠ j → j ≠ k → i ≠ k →
  j = (i + 1) mod 5 ∨ i = (j + 1) mod 5 ∨ k = (j + 1) mod 5 ∨
  j = (k + 1) mod 5 ∨ k = (i + 1) mod 5 ∨ i = (k + 1) mod 5.
Proof.
  intros Hi Hj Hk Hij Hjk Hik.
  do 5 (destruct i as [|i]; [
    do 5 (destruct j as [|j]; [
      do 5 (destruct k as [|k]; [vm_compute; lia|]); lia|]); lia|]).
  lia.
Qed.

(** ** Mutex ownership *)

Lemma mutex_lock_Some id (ms : list (option nat)) k ms' :
  mutex_lock id ms k = Some ms' ↔ ms !! k = Some None ∧ ms' = <[k := Some id]> ms.
Proof.
  unfold mutex_lock. destruct (ms !! k) as [[o|]|]; split.
  all: try (intros [? ?]); try intros ?; simplify_eq; done.
Qed.

Lemma mutex_unlock_Some id (ms : list (option nat)) k ms' :
  mutex_unlock id ms k = Some ms' ↔ ms !! k = Some (Some id) ∧ ms' = <[k := None]> ms.
Proof.
  unfold mutex_unlock. destruct (ms !! k) as [[o|]|].
  - destruct (Nat.eqb_spec o id); split.
    all: try (intros [? ?]); try intros ?; simplify_eq; done.
  - split; [done|]. by intros [? ?].
  - split; [done|]. by intros [? ?].
Qed.

Section Ownership.
Context {T : Type} (owns : nat → T → nat → bool).
Implicit Types (ms : list (option nat)) (ts : list T).

(** A statement that neither locks nor unlocks. *)
Lemma agree_goto ms ts id t t' :
  agree owns ms ts → ts !! id = Some t →
  (∀ k, owns id t' k = owns id t k) →
  agree owns ms (<[id := t']> ts).
Proof.
  intros Hag Hid Hsame k o. rewrite (Hag k o).
  destruct (decide (o = id)) as [->|Hne].
  - rewrite list_lookup_insert_eq by (by eapply lookup_lt_Some).
    split.
    + intros (t0 & Ht0 & Ho). exists t'. split; [done|]. rewrite Hsame. naive_solver.
    + intros (t0 & Ht0 & Ho). exists t. split; [done|]. rewrite <- Hsame. naive_solver.
  - by rewrite list_lookup_insert_ne.
Qed.

(** [lock] of mutex [k] by thread [id]. *)
Lemma agree_lock ms ts id t t' k :
  agree owns ms ts → ts !! id = Some t → ms !! k = Some None →
  (∀ k', owns id t' k' = (k' =? k) || owns id t k') →
  agree owns (<[k := Some id]> ms) (<[id := t']> ts).
Proof.
  intros Hag Hid Hfree Hgain k' o.
  assert (id < length ts) by (by eapply lookup_lt_Some).
  assert (k < length ms) by (by eapply lookup_lt_Some).
  destruct (decide (k' = k)) as [->|Hk].
  - rewrite list_lookup_insert_eq by done. split.
    + intros ?; simplify_eq. exists t'.
      rewrite list_lookup_insert_eq, Hgain, Nat.eqb_refl by done. done.
    + intros (t0 & Ht0 & Ho). destruct (decide (o = id)) as [->|Hne]; [done|].
      rewrite list_lookup_insert_ne in Ht0 by done.
      assert (ms !! k = Some (Some o)) by (apply Hag; eauto). congruence.
  - rewrite list_lookup_insert_ne by done. rewrite (Hag k' o).
    destruct (decide (o = id)) as [->|Hne].
    + rewrite list_lookup_insert_eq by done.
      assert (owns id t' k' = owns id t k') as Hsame.
      { rewrite Hgain. apply Nat.eqb_neq in Hk. by rewrite Hk. }
      split; intros (t0 & Ht0 & Ho); simplify_eq.
      * exists t'. by rewrite Hsame.
      * exists t. by rewrite <- Hsame.
    + by rewrite list_lookup_insert_ne.
Qed.

(** [unlock] of mutex [k] by its owner [id]. *)
Lemma agree_unlock ms ts id t t' k :
  agree owns ms ts → ts !! id = Some t → ms !! k = Some (Some id) →
  (∀ k', owns id t k' = (k' =? k) || owns id t' k') →
  owns id t' k = false →
  agree owns (<[k := None]> ms) (<[id := t']> ts).
Proof.
  intros Hag Hid Hmine Hlose Hgone k' o.
  assert (id < length ts) by (by eapply lookup_lt_Some).
  assert (k < length ms) by (by eapply lookup_lt_Some).
  destruct (decide (k' = k)) as [->|Hk].
  - rewrite list_lookup_insert_eq by done. split; [done|].
    intros (t0 & Ht0 & Ho). destruct (decide (o = id)) as [->|Hne].
    + rewrite list_lookup_insert_eq in Ht0 by done. simplify_eq. congruence.
    + rewrite list_lookup_insert_ne in Ht0 by done.
      assert (ms !! k = Some (Some o)) by (apply Hag; eauto). congruence.
  - rewrite list_lookup_insert_ne by done. rewrite (Hag k' o).
    destruct (decide (o = id)) as [->|Hne].
    + rewrite list_lookup_insert_eq by done.
      assert (owns id t' k' = owns id t k') as Hsame.
      { rewrite Hlose. apply Nat.eqb_neq in Hk. by rewrite Hk. }
      split; intros (t0 & Ht0 & Ho); simplify_eq.
      * exists t'. by rewrite Hsame.
      * exists t. by rewrite <- Hsame.
    + by rewrite list_lookup_insert_ne.
Qed.

Lemma agree_init n (t0 : T) :
  (∀ id k, owns id t0 k = false) →
  agree owns (replicate n None) (replicate n t0).
Proof.
  intros Hnone k o. split.
  - intros [? _]%lookup_replicate. done.
  - intros (t & [-> _]%lookup_replicate & Ho). by rewrite Hnone in Ho.
Qed.
End Ownership.

(** ** Entries of the availability array *)

Section Reservation.
Context {T : Type} (marks : nat → T → nat → bool).
Implicit Types (l : list bool) (ts : list T).

(** A statement that writes no entry. *)
Lemma reserved_goto l ts id t t' :
  reserved marks l ts → ts !! id = Some t →
  (∀ k, marks id t' k = marks id t k) →
  reserved marks l (<[id := t']> ts).
Proof using Type.
  intros [Hshown Huniq] Hid Hsame.
  assert (id < length ts) by (by eapply lookup_lt_Some).
  assert (∀ i ti k, <[id := t']> ts !! i = Some ti → marks i ti k = true →
            ∃ ti0, ts !! i = Some ti0 ∧ marks i ti0 k = true) as Hback.
  { intros i ti k Hi Hm. destruct (decide (i = id)) as [->|Hne].
    - rewrite list_lookup_insert_eq in Hi by done. simplify_eq.
      exists t. by rewrite <- Hsame.
    - rewrite list_lookup_insert_ne in Hi by done. eauto. }
  split.
  - intros k b Hk. rewrite (Hshown k b Hk). split.
    + intros (i & ti & Hi & Hm). destruct (decide (i = id)) as [->|Hne].
      * exists id, t'. rewrite list_lookup_insert_eq, Hsame by done.
        by simplify_eq.
      * exists i, ti. by rewrite list_lookup_insert_ne.
    + intros (i & ti & Hi & Hm). destruct (Hback _ _ _ Hi Hm) as (ti0 & ? & ?). eauto.
  - intros i j ti tj k Hi Hj Hmi Hmj.
    destruct (Hback _ _ _ Hi Hmi) as (ti0 & ? & ?).
    destruct (Hback _ _ _ Hj Hmj) as (tj0 & ? & ?). eauto.
Qed.

(** [available[k] = false] by thread [id], from an available entry. *)
Lemma reserved_take l ts id t t' k :
  reserved marks l ts → ts !! id = Some t → l !! k = Some true →
  (∀ k', marks id t' k' = (k' =? k) || marks id t k') →
  reserved marks (<[k := false]> l) (<[id := t']> ts).
Proof using Type.
  intros [Hshown Huniq] Hid Hfree Hgain.
  assert (id < length ts) by (by eapply lookup_lt_Some).
  assert (k < length l) by (by eapply lookup_lt_Some).
  assert (∀ i ti, ts !! i = Some ti → marks i ti k = false) as Hnobody.
  { intros i ti Hi. destruct (marks i ti k) eqn:Hm; [|done].
    assert (true = false); [|done]. apply (Hshown k true Hfree). eauto. }
  assert (∀ i ti k', <[id := t']> ts !! i = Some ti → marks i ti k' = true →
            (i = id ∧ k' = k) ∨ ∃ ti0, ts !! i = Some ti0 ∧ marks i ti0 k' = true)
    as Hback.
  { intros i ti k' Hi Hm. destruct (decide (i = id)) as [->|Hne].
    - rewrite list_lookup_insert_eq in Hi by done. simplify_eq.
      rewrite Hgain in Hm. destruct (Nat.eqb_spec k' k); [by left|]. right. eauto.
    - rewrite list_lookup_insert_ne in Hi by done. eauto. }
  split.
  - intros k' b Hk'. destruct (decide (k' = k)) as [->|Hk].
    + rewrite list_lookup_insert_eq in Hk' by done. simplify_eq.
      split; [|done]. intros _. exists id, t'.
      by rewrite list_lookup_insert_eq, Hgain, Nat.eqb_refl.
    + rewrite list_lookup_insert_ne in Hk' by done. rewrite (Hshown k' b Hk'). split.
      * intros (i & ti & Hi & Hm). destruct (decide (i = id)) as [->|Hne].
        -- exists id, t'. rewrite list_lookup_insert_eq, Hgain by done.
           simplify_eq. by rewrite Hm, orb_true_r.
        -- exists i, ti. by rewrite list_lookup_insert_ne.
      * intros (i & ti & Hi & Hm).
        destruct (Hback _ _ _ Hi Hm) as [[_ ?]|(ti0 & ? & ?)]; [done|eauto].
  - intros i j ti tj k' Hi Hj Hmi Hmj.
    destruct (Hback _ _ _ Hi Hmi) as [[-> ->]|(ti0 & Hi0 & Hmi0)];
      destruct (Hback _ _ _ Hj Hmj) as [[-> ?]|(tj0 & Hj0 & Hmj0)]; subst; eauto.
    + rewrite (Hnobody _ _ Hj0) in Hmj0. done.
    + rewrite (Hnobody _ _ Hi0) in Hmi0. done.
Qed.

(** [available[k] = true] by the thread [id] that had marked [k]. *)
Lemma reserved_give l ts id t t' k :
  reserved marks l ts → ts !! id = Some t → k < length l →
  marks id t k = true →
  (∀ k', marks id t k' = (k' =? k) || marks id t' k') →
  marks id t' k = false →
  reserved marks (<[k := true]> l) (<[id := t']> ts).
Proof using Type.
  intros [Hshown Huniq] Hid Hk Hmine Hlose Hgone.
  assert (id < length ts) by (by eapply lookup_lt_Some).
  assert (∀ i ti k', <[id := t']> ts !! i = Some ti → marks i ti k' = true →
            k' ≠ k ∧ ∃ ti0, ts !! i = Some ti0 ∧ marks i ti0 k' = true) as Hback.
  { intros i ti k' Hi Hm. destruct (decide (i = id)) as [->|Hne].
    - rewrite list_lookup_insert_eq in Hi by done. simplify_eq. split.
      + intros ->. congruence.
      + exists t. by rewrite Hlose, Hm, orb_true_r.
    - rewrite list_lookup_insert_ne in Hi by done. split; [|eauto].
      intros ->. apply Hne. eauto. }
  split.
  - intros k' b Hk'. destruct (decide (k' = k)) as [->|Hne].
    + rewrite list_lookup_insert_eq in Hk' by done. simplify_eq.
      split; [done|]. intros (i & ti & Hi & Hm).
      by destruct (Hback _ _ _ Hi Hm) as [? _].
    + rewrite list_lookup_insert_ne in Hk' by done. rewrite (Hshown k' b Hk'). split.
      * intros (i & ti & Hi & Hm). destruct (decide (i = id)) as [->|Hni].
        -- exists id, t'. rewrite list_lookup_insert_eq by done. simplify_eq.
           rewrite Hlose in Hm. apply Nat.eqb_neq in Hne. by rewrite Hne in Hm.
        -- exists i, ti. by rewrite list_lookup_insert_ne.
      * intros (i & ti & Hi & Hm).
        destruct (Hback _ _ _ Hi Hm) as (_ & ti0 & ? & ?). eauto.
  - intros i j ti tj k' Hi Hj Hmi Hmj.
    destruct (Hback _ _ _ Hi Hmi) as (_ & ti0 & ? & ?).
    destruct (Hback _ _ _ Hj Hmj) as (_ & tj0 & ? & ?). eauto.
Qed.

Lemma reserved_init n (t0 : T) :
  (∀ id k, marks id t0 k = false) →
  reserved marks (replicate n true) (replicate n t0).
Proof using Type.
  intros Hnone. split.
  - intros k b [-> _]%lookup_replicate. split; [done|].
    intros (i & t & [-> _]%lookup_replicate & Hm). by rewrite Hnone in Hm.
  - intros i j ti tj k [-> _]%lookup_replicate _ Hm. by rewrite Hnone in Hm.
Qed.
End Reservation.

(** ** Solution 1: the counting semaphore *)

Module SemaphoreProofs.
Import DiningPhilosophersSemaphore.

Lemma sem_left_right_distinct id :
  id < NUM_PHILOSOPHERS → right_chopstick id ≠ left_chopstick id.
Proof.
  unfold right_chopstick, left_chopstick, NUM_PHILOSOPHERS. intros Hid Heq.
  do 5 (destruct id as [|id]; [vm_compute in Heq; lia|]). lia.
Qed.

Lemma sem_right_chopstick_lt id : right_chopstick id < NUM_PHILOSOPHERS.
Proof. apply Nat.mod_upper_bound. done. Qed.

Lemma sem_right_chopstick_inj i j :
  i < NUM_PHILOSOPHERS → j < NUM_PHILOSOPHERS →
  right_chopstick i = right_chopstick j → i = j.
Proof.
  unfold right_chopstick, NUM_PHILOSOPHERS. intros Hi Hj.
  do 5 (destruct i as [|i]; [do 5 (destruct j as [|j]; [vm_compute; lia|]); lia|]).
  lia.
Qed.

Lemma sem_attempting_goto s id t p' meal' :
  philosophers s !! id = Some t →
  attempting (goto s id p' meal') + (if admitted (fst t) then 1 else 0)
  = attempting s + (if admitted p' then 1 else 0).
Proof.
  intros Hid. unfold attempting, goto. cbn [philosophers].
  apply (sum_list_with_insert (λ t : pc * nat, if admitted (fst t) then 1 else 0)
           _ _ _ (p', meal') Hid).
Qed.

Lemma sem_invariant_init : invariant init.
Proof.
  split; try done.
  apply (agree_init (λ id (t : pc * nat), owns id (fst t))).
  intros id k. unfold owns. simpl. by rewrite !andb_false_r.
Qed.

Ltac owns_cases :=
  intros; unfold owns; simpl;
  rewrite ?andb_true_r, ?andb_false_r, ?orb_false_r, ?orb_false_l; try done.

Ltac permits p m :=
  match goal with
  | Hcount : ∀ p' m', _ |- _ =>
      specialize (Hcount p m); unfold attempting, goto, NUM_PHILOSOPHERS in *;
      simpl in *; lia
  end.

Lemma sem_invariant_step s id ev s' :
  invariant s → step s id = Some (ev, s') → invariant s'.
Proof.
  intros [Hlen Hmlen Hperm Hag] Hstep. unfold step in Hstep.
  destruct (philosophers s !! id) as [[p meal]|] eqn:Hid; [|done].
  assert (id < NUM_PHILOSOPHERS) as Hlt by (rewrite <- Hlen; by eapply lookup_lt_Some).
  pose proof (λ p' m', sem_attempting_goto s id (p, meal) p' m' Hid) as Hcount.
  destruct p; simpl in Hstep.
  - (* LoopHead *)
    destruct (meal <? 3); simplify_eq; split; simpl; rewrite ?length_insert; try done.
    + permits SemAcquire meal.
    + eapply agree_goto; eauto.
    + permits Finished meal.
    + eapply agree_goto; eauto.
  - (* SemAcquire *)
    destruct (Nat.ltb_spec 0 (dining_semaphore s)); simplify_eq.
    split; simpl; rewrite ?length_insert; try done.
    + permits LockLeft meal.
    + eapply agree_goto; eauto.
  - (* LockLeft *)
    destruct (mutex_lock id (chopsticks s) (left_chopstick id)) as [cs|] eqn:Hl;
      simpl in Hstep; simplify_eq.
    apply mutex_lock_Some in Hl as [Hfree ->].
    split; simpl; rewrite ?length_insert; try done.
    + permits LockRight meal.
    + eapply agree_lock; eauto. owns_cases.
  - (* LockRight *)
    destruct (mutex_lock id (chopsticks s) (right_chopstick id)) as [cs|] eqn:Hl;
      simpl in Hstep; simplify_eq.
    apply mutex_lock_Some in Hl as [Hfree ->].
    split; simpl; rewrite ?length_insert; try done.
    + permits Eating meal.
    + eapply agree_lock; eauto. owns_cases. apply orb_comm.
  - (* Eating *)
    simplify_eq. split; simpl; rewrite ?length_insert; try done.
    + permits UnlockRight meal.
    + eapply agree_goto; eauto.
  - (* UnlockRight *)
    destruct (mutex_unlock id (chopsticks s) (right_chopstick id)) as [cs|] eqn:Hl;
      simpl in Hstep; simplify_eq.
    apply mutex_unlock_Some in Hl as [Hmine ->].
    split; simpl; rewrite ?length_insert; try done.
    + permits UnlockLeft meal.
    + eapply agree_unlock; eauto.
      * owns_cases. apply orb_comm.
      * owns_cases. apply Nat.eqb_neq. by apply sem_left_right_distinct.
  - (* UnlockLeft *)
    destruct (mutex_unlock id (chopsticks s) (left_chopstick id)) as [cs|] eqn:Hl;
      simpl in Hstep; simplify_eq.
    apply mutex_unlock_Some in Hl as [Hmine ->].
    split; simpl; rewrite ?length_insert; try done.
    + permits SemRelease meal.
    + eapply agree_unlock; eauto; owns_cases.
  - (* SemRelease *)
    simplify_eq. split; simpl; rewrite ?length_insert; try done.
    + permits Rest meal.
    + eapply agree_goto; eauto.
  - (* Rest *)
    simplify_eq. split; simpl; rewrite ?length_insert; try done.
    + permits LoopHead (meal + 1).
    + eapply agree_goto; eauto.
  - done.
Qed.

Lemma sem_invariant_run tr s : sem_run tr s → invariant s.
Proof.
  intros Hrun. induction Hrun; [apply sem_invariant_init|].
  by eapply sem_invariant_step.
Qed.

(** *** Deadlock freedom *)

Section Stuck.
Variable s : state.
Hypothesis Hinv : invariant s.
Hypothesis Hstuck : ∀ id, step s id = None.

Lemma sem_stuck_pc id p meal :
  philosophers s !! id = Some (p, meal) →
  p = SemAcquire ∨ p = LockLeft ∨ p = LockRight ∨ p = Finished.
Proof using Hinv Hstuck.
  intros Hid. specialize (Hstuck id). unfold step in Hstuck. rewrite Hid in Hstuck.
  destruct Hinv as [_ _ _ Hag].
  destruct p; simpl in Hstuck; eauto; try done.
  - by destruct (meal <? 3).
  - assert (chopsticks s !! right_chopstick id = Some (Some id)) as Hmine.
    { apply Hag. eexists. split; [done|]. unfold owns. simpl.
      by rewrite Nat.eqb_refl, orb_true_r. }
    unfold mutex_unlock in Hstuck. rewrite Hmine, Nat.eqb_refl in Hstuck. done.
  - assert (chopsticks s !! left_chopstick id = Some (Some id)) as Hmine.
    { apply Hag. eexists. split; [done|]. unfold owns. simpl.
      by rewrite Nat.eqb_refl. }
    unfold mutex_unlock, left_chopstick in *. rewrite Hmine, Nat.eqb_refl in Hstuck. done.
Qed.

(** A mutex that blocks a thread is the left chopstick of its owner, and
    the owner is itself waiting for its right chopstick. *)
Lemma sem_stuck_owner k o :
  chopsticks s !! k = Some (Some o) →
  k = left_chopstick o ∧ ∃ meal, philosophers s !! o = Some (LockRight, meal).
Proof using Hinv Hstuck.
  intros Hk. destruct Hinv as [_ _ _ Hag].
  apply Hag in Hk as ([p meal] & Ho & Howns).
  unfold owns in Howns. simpl in Howns.
  destruct (sem_stuck_pc _ _ _ Ho) as [->|[->|[->| ->]]]; simpl in Howns;
    rewrite ?andb_false_r, ?andb_true_r, ?orb_false_r in Howns; try done.
  apply Nat.eqb_eq in Howns. eauto.
Qed.

Lemma sem_stuck_blocked id k :
  id < NUM_PHILOSOPHERS → k < NUM_PHILOSOPHERS →
  mutex_lock id (chopsticks s) k = None →
  ∃ o, chopsticks s !! k = Some (Some o).
Proof using Hinv.
  intros Hid Hk Hlock. destruct Hinv as [_ Hmlen _ _].
  unfold mutex_lock in Hlock.
  destruct (chopsticks s !! k) as [[o|]|] eqn:Hlk; [eauto|done|].
  apply lookup_ge_None in Hlk. lia.
Qed.

Lemma sem_stuck_not_LockLeft id meal :
  philosophers s !! id ≠ Some (LockLeft, meal).
Proof using Hinv Hstuck.
  intros Hid.
  assert (id < NUM_PHILOSOPHERS) as Hlt.
  { destruct Hinv as [Hlen _ _ _]. rewrite <- Hlen. by eapply lookup_lt_Some. }
  pose proof (Hstuck id) as Hst. unfold step in Hst. rewrite Hid in Hst.
  destruct (mutex_lock id (chopsticks s) (left_chopstick id)) eqn:Hl; [done|].
  apply sem_stuck_blocked in Hl as [o Ho]; [|done..].
  apply sem_stuck_owner in Ho as [Heq [meal' Ho]].
  unfold left_chopstick in Heq. subst o. congruence.
Qed.

Lemma sem_stuck_LockRight_next id meal :
  philosophers s !! id = Some (LockRight, meal) →
  ∃ meal', philosophers s !! right_chopstick id = Some (LockRight, meal').
Proof using Hinv Hstuck.
  intros Hid.
  assert (id < NUM_PHILOSOPHERS) as Hlt.
  { destruct Hinv as [Hlen _ _ _]. rewrite <- Hlen. by eapply lookup_lt_Some. }
  pose proof (Hstuck id) as Hst. unfold step in Hst. rewrite Hid in Hst.
  destruct (mutex_lock id (chopsticks s) (right_chopstick id)) eqn:Hl; [done|].
  apply sem_stuck_blocked in Hl as [o Ho]; [|done|apply sem_right_chopstick_lt].
  apply sem_stuck_owner in Ho as [Heq Ho].
  unfold left_chopstick in Heq. by subst o.
Qed.

Lemma sem_stuck_LockRight_all id meal n :
  philosophers s !! id = Some (LockRight, meal) →
  ∃ meal', philosophers s !! ((id + n) mod NUM_PHILOSOPHERS) = Some (LockRight, meal').
Proof using Hinv Hstuck.
  intros Hid.
  assert (id < NUM_PHILOSOPHERS) as Hlt.
  { destruct Hinv as [Hlen _ _ _]. rewrite <- Hlen. by eapply lookup_lt_Some. }
  induction n as [|n [meal' IH]].
  - rewrite Nat.add_0_r, Nat.mod_small by done. eauto.
  - apply sem_stuck_LockRight_next in IH. unfold right_chopstick in IH.
    rewrite Nat.Div0.add_mod_idemp_l in IH.
    by replace (id + S n) with (id + n + 1) by lia.
Qed.

Lemma sem_stuck_not_LockRight id meal :
  philosophers s !! id ≠ Some (LockRight, meal).
Proof using Hinv Hstuck.
  intros Hid.
  assert (id < NUM_PHILOSOPHERS) as Hlt.
  { destruct Hinv as [Hlen _ _ _]. rewrite <- Hlen. by eapply lookup_lt_Some. }
  assert (attempting s = 1 * length (philosophers s)) as Hall.
  { apply sum_list_with_const. intros j [p m] Hj.
    assert (j < NUM_PHILOSOPHERS) as Hjlt.
    { destruct Hinv as [Hlen _ _ _]. rewrite <- Hlen. by eapply lookup_lt_Some. }
    destruct (sem_stuck_LockRight_all id meal (j + NUM_PHILOSOPHERS - id) Hid) as [m' Hj'].
    replace (id + (j + NUM_PHILOSOPHERS - id)) with (j + 1 * NUM_PHILOSOPHERS) in Hj' by lia.
    rewrite Nat.Div0.mod_add, Nat.mod_small in Hj' by done.
    by simplify_eq. }
  destruct Hinv as [Hlen _ Hperm _]. rewrite Hlen in Hall.
  unfold NUM_PHILOSOPHERS in *. lia.
Qed.

Lemma sem_stuck_all_finished : all_finished s.
Proof using Hinv Hstuck.
  assert (∀ id p meal, philosophers s !! id = Some (p, meal) →
                       p = SemAcquire ∨ p = Finished) as Hout.
  { intros id p meal Hid.
    destruct (sem_stuck_pc _ _ _ Hid) as [->|[->|[->| ->]]]; eauto.
    - by apply sem_stuck_not_LockLeft in Hid.
    - by apply sem_stuck_not_LockRight in Hid. }
  assert (attempting s = 0 * length (philosophers s)) as Hnone.
  { apply sum_list_with_const. intros j [p m] Hj.
    by destruct (Hout _ _ _ Hj) as [->| ->]. }
  intros id [p meal] Hid. simpl.
  destruct (Hout _ _ _ Hid) as [->| ->]; [|done].
  pose proof (Hstuck id) as Hst. unfold step in Hst. rewrite Hid in Hst.
  destruct Hinv as [_ _ Hperm _]. unfold NUM_PHILOSOPHERS in *.
  destruct (Nat.ltb_spec 0 (dining_semaphore s)); [done|lia].
Qed.
End Stuck.

Lemma sem_progress s :
  invariant s → all_finished s ∨ ∃ id ev s', step s id = Some (ev, s').
Proof.
  intros Hinv.
  destruct (decide (Exists (λ id, is_Some (step s id)) (seq 0 NUM_PHILOSOPHERS)))
    as [Hex|Hnone].
  - right. apply Exists_exists in Hex as (id & _ & [[ev s'] Hstep]). eauto.
  - left. apply sem_stuck_all_finished; [done|].
    intros id. destruct (step s id) as [[ev s']|] eqn:Hstep; [|done].
    exfalso. apply Hnone, Exists_exists. exists id. split; [|by rewrite Hstep].
    apply elem_of_seq. split; [lia|]. simpl.
    destruct Hinv as [Hlen _ _ _]. rewrite <- Hlen.
    unfold step in Hstep.
    destruct (philosophers s !! id) eqn:Hid; [|done]. by eapply lookup_lt_Some.
Qed.

(** *** The order of a thread's statements *)

Lemma sem_step_local s id ev s' :
  step s id = Some (ev, s') →
  ∃ t t', philosophers s !! id = Some t ∧ local_next id t = Some (ev, t') ∧
          philosophers s' = <[id := t']> (philosophers s).
Proof.
  unfold step. intros Hstep.
  destruct (philosophers s !! id) as [[p meal]|] eqn:Hid; [|done].
  exists (p, meal). unfold local_next. simpl.
  destruct p; simpl in Hstep.
  - destruct (meal <? 3); simplify_eq; eauto.
  - destruct (0 <? dining_semaphore s); simplify_eq; eauto.
  - destruct (mutex_lock _ _ _); simpl in Hstep; simplify_eq; eauto.
  - destruct (mutex_lock _ _ _); simpl in Hstep; simplify_eq; eauto.
  - simplify_eq; eauto.
  - destruct (mutex_unlock _ _ _); simpl in Hstep; simplify_eq; eauto.
  - destruct (mutex_unlock _ _ _); simpl in Hstep; simplify_eq; eauto.
  - simplify_eq; eauto.
  - simplify_eq; eauto.
  - done.
Qed.

Lemma sem_local_next_trace id t ev t' :
  local_next id t = Some (ev, t') → meal_ok t →
  meal_ok t' ∧ thread_trace id t' = thread_trace id t ++ [ev].
Proof.
  destruct t as [p meal]. unfold local_next, meal_ok, thread_trace.
  intros Hnext Hok.
  destruct p; simpl in *; [destruct (Nat.ltb_spec meal 3)|..]; simplify_eq; simpl;
    (split; [lia|]); rewrite <- ?app_assoc; try done.
  rewrite replicate_add, concat_app. simpl. by rewrite <- !app_assoc.
Qed.

Lemma sem_threads_run tr s :
  sem_run tr s →
  ∀ id t, philosophers s !! id = Some t → meal_ok t ∧ proj id tr = thread_trace id t.
Proof.
  intros Hrun. induction Hrun as [|tr s j ev s' Hrun IH Hstep].
  - intros id t [-> _]%lookup_replicate. split; [|done]. unfold meal_ok. simpl. lia.
  - apply sem_step_local in Hstep as (t0 & t1 & Hj & Hnext & ->).
    intros id t Hid. destruct (decide (id = j)) as [->|Hne].
    + rewrite list_lookup_insert_eq in Hid by (by eapply lookup_lt_Some).
      simplify_eq. destruct (IH _ _ Hj) as [Hok Htr].
      destruct (sem_local_next_trace _ _ _ _ Hnext Hok) as [Hok' Htr'].
      by rewrite proj_snoc_eq, Htr, Htr'.
    + rewrite list_lookup_insert_ne in Hid by done.
      rewrite proj_snoc_ne by done. eauto.
Qed.

(** Sums over the trace against sums over the threads. *)
Lemma sem_accounting (w : event → nat) (g : pc * nat → nat) :
  g (LoopHead, 0) = 0 →
  (∀ id t ev t', local_next id t = Some (ev, t') → meal_ok t → g t' = g t + w ev) →
  ∀ tr s, sem_run tr s →
  sum_list_with (λ x, w (snd x)) tr = sum_list_with g (philosophers s).
Proof.
  intros H0 Hstep tr s Hrun.
  induction Hrun as [|tr s j ev s' Hrun IH Hst].
  - simpl. by rewrite !H0.
  - apply sem_step_local in Hst as (t0 & t1 & Hj & Hnext & ->).
    destruct (sem_threads_run _ _ Hrun _ _ Hj) as [Hok _].
    pose proof (sum_list_with_insert g _ _ _ t1 Hj) as Hsum.
    rewrite sum_list_with_app. simpl.
    rewrite (Hstep _ _ _ _ Hnext Hok) in Hsum. lia.
Qed.

Lemma sem_occurrences_sum {A : Type} (P : A → bool) (l : list A) :
  occurrences P l = sum_list_with (λ x, if P x then 1 else 0) l.
Proof.
  unfold occurrences. induction l as [|a l IH]; simpl; [done|].
  destruct (P a); simpl; lia.
Qed.

Lemma sem_meals_accounting tr s :
  sem_run tr s →
  occurrences (λ x, is_eat (snd x)) tr = sum_list_with meals_done (philosophers s).
Proof.
  intros Hrun. rewrite sem_occurrences_sum.
  apply (sem_accounting (λ e, if is_eat e then 1 else 0) meals_done); [done| |done].
  intros id [p meal] ev t'. unfold local_next, meals_done. simpl. intros Hnext _.
  destruct p; try (destruct (meal <? 3)); simplify_eq; simpl; lia.
Qed.

Lemma sem_steps_accounting tr s :
  sem_run tr s → length tr = sum_list_with steps_done (philosophers s).
Proof.
  intros Hrun.
  rewrite <- (sem_accounting (λ _, 1) steps_done eq_refl) with (tr := tr); [| |done].
  - clear. induction tr; simpl; lia.
  - intros id [p meal] ev t'. unfold local_next, steps_done, meal_ok. simpl.
    intros Hnext Hok.
    destruct p; try (destruct (Nat.ltb_spec meal 3)); simplify_eq; simpl; lia.
Qed.

Lemma sem_acquire_accounting tr s :
  sem_run tr s →
  occurrences (λ x, is_acquire (snd x)) tr
  = occurrences (λ x, is_release (snd x)) tr + attempting s.
Proof.
  intros Hrun. rewrite !sem_occurrences_sum.
  rewrite (sem_accounting (λ e, if is_release e then 1 else 0) releases_done eq_refl)
    with (s := s); [| |done].
  - rewrite (sem_accounting (λ e, if is_acquire e then 1 else 0)
               (λ t, releases_done t + (if admitted (fst t) then 1 else 0)) eq_refl)
      with (s := s); [| |done].
    + unfold attempting. generalize (philosophers s).
      intros l; induction l as [|a l IH]; simpl; lia.
    + intros id [p meal] ev t'. unfold local_next, releases_done. simpl. intros Hnext _.
      destruct p; simpl in *; [destruct (meal <? 3)|..]; simplify_eq; simpl; lia.
  - intros id [p meal] ev t'. unfold local_next, releases_done. simpl. intros Hnext _.
    destruct p; simpl in *; [destruct (meal <? 3)|..]; simplify_eq; simpl; lia.
Qed.

Lemma sem_owns_admitted id p k : owns id p k = true → admitted p = true.
Proof.
  unfold owns. destruct p; simpl; rewrite ?andb_false_r; done.
Qed.

(** *** The claims *)

(** C1.  The semaphore is created with [NUM_PHILOSOPHERS - 1] permits, and in
    every state of every interleaving: the threads that are past [acquire]
    and have not yet called [release] are as many as [acquire] events exceed
    [release] events, they are at most [NUM_PHILOSOPHERS - 1], together with
    the free permits they are exactly [NUM_PHILOSOPHERS - 1]; every owner of
    a chopstick is one of them; and there is no deadlock: unless all five
    threads have finished, some thread can run its next statement. *)
Theorem sem_admission_bound tr s :
  sem_run tr s →
  dining_semaphore init = NUM_PHILOSOPHERS - 1 ∧
  occurrences (λ x, is_acquire (snd x)) tr
    = occurrences (λ x, is_release (snd x)) tr + attempting s ∧
  attempting s ≤ NUM_PHILOSOPHERS - 1 ∧
  dining_semaphore s + attempting s = NUM_PHILOSOPHERS - 1 ∧
  (∀ k o, chopsticks s !! k = Some (Some o) →
          ∃ p meal, philosophers s !! o = Some (p, meal) ∧ admitted p = true) ∧
  (all_finished s ∨ ∃ id ev s', step s id = Some (ev, s')).
Proof.
  intros Hrun. pose proof (sem_invariant_run _ _ Hrun) as Hinv.
  split; [done|]. split; [by apply sem_acquire_accounting|].
  pose proof Hinv as [Hlen Hmlen Hperm Hag].
  split; [lia|]. split; [done|]. split; [|by apply sem_progress].
  intros k o ([p meal] & Ho & Howns)%Hag. exists p, meal. split; [done|].
  by eapply sem_owns_admitted.
Qed.

Lemma sem_admission_bound_witness :
  attempting (snd (after contended)) = 4 ∧
  dining_semaphore (snd (after contended)) = 0 ∧
  (all_finished (snd (after contended)) ∨
   ∃ id ev s', step (snd (after contended)) id = Some (ev, s')).
Proof.
  destruct (sem_admission_bound (fst (after contended)) (snd (after contended)))
    as (_ & _ & _ & _ & _ & Hlive).
  - apply (exec_run _ _ _ contended). vm_compute. reflexivity.
  - split; [vm_compute; reflexivity|]. split; [vm_compute; reflexivity|]. exact Hlive.
Defined.

Lemma sem_step_effect s id ev s' :
  step s id = Some (ev, s') →
  match ev with
  | EAcquire =>
      0 < dining_semaphore s ∧ dining_semaphore s' = dining_semaphore s - 1 ∧
      chopsticks s' = chopsticks s
  | ELock k =>
      chopsticks s !! k = Some None ∧ chopsticks s' = <[k := Some id]> (chopsticks s) ∧
      dining_semaphore s' = dining_semaphore s
  | EUnlock k =>
      chopsticks s !! k = Some (Some id) ∧ chopsticks s' = <[k := None]> (chopsticks s) ∧
      dining_semaphore s' = dining_semaphore s
  | ERelease =>
      dining_semaphore s' = dining_semaphore s + 1 ∧ chopsticks s' = chopsticks s
  | _ => dining_semaphore s' = dining_semaphore s ∧ chopsticks s' = chopsticks s
  end.
Proof.
  unfold step. intros Hstep.
  destruct (philosophers s !! id) as [[p meal]|] eqn:Hid; [|done].
  destruct p; simpl in Hstep.
  - destruct (meal <? 3); by simplify_eq.
  - destruct (Nat.ltb_spec 0 (dining_semaphore s)); by simplify_eq.
  - destruct (mutex_lock _ _ _) as [cs|] eqn:Hl; simpl in Hstep; simplify_eq.
    by apply mutex_lock_Some in Hl as [? ->].
  - destruct (mutex_lock _ _ _) as [cs|] eqn:Hl; simpl in Hstep; simplify_eq.
    by apply mutex_lock_Some in Hl as [? ->].
  - by simplify_eq.
  - destruct (mutex_unlock _ _ _) as [cs|] eqn:Hl; simpl in Hstep; simplify_eq.
    by apply mutex_unlock_Some in Hl as [? ->].
  - destruct (mutex_unlock _ _ _) as [cs|] eqn:Hl; simpl in Hstep; simplify_eq.
    by apply mutex_unlock_Some in Hl as [? ->].
  - by simplify_eq.
  - by simplify_eq.
  - done.
Qed.

(** C7.  The events of thread [id] in any interleaving are whole passes
    through the loop body followed by the part of the current pass that lies
    before the thread's next statement, and one pass is: think, acquire a
    permit, lock the left chopstick [id], lock the right chopstick
    [(id + 1) mod NUM_PHILOSOPHERS], eat, unlock the right chopstick, unlock
    the left chopstick, release the permit, rest.  These events are what
    they are called: [EAcquire] happens only with a free permit and takes
    it, [ELock k] happens only on a free mutex and makes the thread its
    owner, [EUnlock k] frees a mutex the thread owns, [ERelease] gives the
    permit back, and no other statement changes the semaphore or a mutex; so
    the thread owns its left chopstick exactly from its [ELock id] to its
    [EUnlock id], and its right chopstick exactly from the second [ELock] to
    the first [EUnlock]. *)
Theorem sem_cycle_order tr s id :
  sem_run tr s → id < NUM_PHILOSOPHERS →
  cycle id = [EThink; EAcquire; ELock id; ELock ((id + 1) mod NUM_PHILOSOPHERS); EEat;
              EUnlock ((id + 1) mod NUM_PHILOSOPHERS); EUnlock id; ERelease; ERest] ∧
  (∃ p meal, philosophers s !! id = Some (p, meal) ∧ meal ≤ 3 ∧
     proj id tr = concat (replicate meal (cycle id)) ++ take (position p) (cycle id)
                  ++ match p with Finished => [EFinish] | _ => [] end ∧
     (chopsticks s !! id = Some (Some id) ↔ 3 ≤ position p ≤ 6) ∧
     (chopsticks s !! ((id + 1) mod NUM_PHILOSOPHERS) = Some (Some id)
      ↔ 4 ≤ position p ≤ 5)) ∧
  (∀ ev s', step s id = Some (ev, s') →
     match ev with
     | EAcquire =>
         0 < dining_semaphore s ∧ dining_semaphore s' = dining_semaphore s - 1 ∧
         chopsticks s' = chopsticks s
     | ELock k =>
         chopsticks s !! k = Some None ∧
         chopsticks s' = <[k := Some id]> (chopsticks s) ∧
         dining_semaphore s' = dining_semaphore s
     | EUnlock k =>
         chopsticks s !! k = Some (Some id) ∧
         chopsticks s' = <[k := None]> (chopsticks s) ∧
         dining_semaphore s' = dining_semaphore s
     | ERelease =>
         dining_semaphore s' = dining_semaphore s + 1 ∧ chopsticks s' = chopsticks s
     | _ => dining_semaphore s' = dining_semaphore s ∧ chopsticks s' = chopsticks s
     end).
Proof.
  intros Hrun Hid. split; [done|].
  pose proof (sem_invariant_run _ _ Hrun) as [Hlen _ _ Hag].
  split; [|intros ev s'; apply sem_step_effect].
  destruct (philosophers s !! id) as [[p meal]|] eqn:Ht;
    [|apply lookup_ge_None in Ht; lia].
  exists p, meal. destruct (sem_threads_run _ _ Hrun _ _ Ht) as [Hok Htr].
  split; [done|]. split; [unfold meal_ok in Hok; destruct p; simpl in Hok; lia|].
  split; [done|].
  pose proof (sem_left_right_distinct id Hid) as Hdist.
  assert (∀ k, chopsticks s !! k = Some (Some id) ↔ owns id p k = true) as Hown.
  { intros k. rewrite (Hag k id). split.
    - intros (t & Ht' & Ho). by simplify_eq.
    - intros Ho. exists (p, meal). eauto. }
  unfold left_chopstick in Hdist.
  assert ((id =? right_chopstick id) = false) as Hlr
    by (apply Nat.eqb_neq; intros Heq; by apply Hdist).
  assert ((right_chopstick id =? id) = false) as Hrl by (by apply Nat.eqb_neq).
  split.
  - rewrite (Hown id). unfold owns, left_chopstick. rewrite Nat.eqb_refl, Hlr.
    destruct p; simpl; split; intros; try done; lia.
  - change ((id + 1) mod NUM_PHILOSOPHERS) with (right_chopstick id).
    rewrite Hown. unfold owns, left_chopstick. rewrite Nat.eqb_refl, Hrl.
    destruct p; simpl; split; intros; try done; lia.
Qed.

Lemma sem_cycle_order_witness :
  proj 1 (fst (after contended)) = [EThink; EAcquire; ELock 1] ∧
  chopsticks (snd (after contended)) !! 1 = Some (Some 1) ∧
  proj 4 (fst (after sequential))
  = concat (replicate 3 [EThink; EAcquire; ELock 4; ELock 0; EEat;
                         EUnlock 0; EUnlock 4; ERelease; ERest]) ++ [EFinish].
Proof.
  split; [|split].
  - destruct (sem_cycle_order (fst (after contended)) (snd (after contended)) 1)
      as (_ & (p & meal & Ht & _ & Htr & _) & _).
    + apply (exec_run _ _ _ contended). vm_compute. reflexivity.
    + unfold NUM_PHILOSOPHERS. lia.
    + vm_compute in Ht. injection Ht as <- <-. rewrite Htr. reflexivity.
  - destruct (sem_cycle_order (fst (after contended)) (snd (after contended)) 1)
      as (_ & (p & meal & Ht & _ & _ & Hleft & _) & _).
    + apply (exec_run _ _ _ contended). vm_compute. reflexivity.
    + unfold NUM_PHILOSOPHERS. lia.
    + vm_compute in Ht. injection Ht as <- <-. apply Hleft. simpl. lia.
  - destruct (sem_cycle_order (fst (after sequential)) (snd (after sequential)) 4)
      as (_ & (p & meal & Ht & _ & Htr & _) & _).
    + apply (exec_run _ _ _ sequential). vm_compute. reflexivity.
    + unfold NUM_PHILOSOPHERS. lia.
    + vm_compute in Ht. injection Ht as <- <-. rewrite Htr. reflexivity.
Defined.

Lemma sem_run_bounded tr s :
  sem_run tr s → length tr ≤ 28 * NUM_PHILOSOPHERS.
Proof.
  intros Hrun. pose proof (sem_invariant_run _ _ Hrun) as [Hlen _ _ _].
  rewrite (sem_steps_accounting _ _ Hrun), <- Hlen, Nat.mul_comm.
  assert (∀ id t, philosophers s !! id = Some t → meal_ok t) as Hmeals.
  { intros id t Ht. by destruct (sem_threads_run _ _ Hrun _ _ Ht). }
  revert Hmeals. generalize (philosophers s).
  intros l. induction l as [|[p meal] l IH]; intros Hok; simpl; [lia|].
  assert (steps_done (p, meal) ≤ 28).
  { pose proof (Hok 0 _ eq_refl) as Hm. unfold meal_ok, steps_done in *.
    destruct p; simpl in *; lia. }
  assert (sum_list_with steps_done l ≤ length l * 28); [|lia].
  apply IH. intros id t Ht. apply (Hok (S id) t Ht).
Qed.

(** C6.  Every interleaving has at most 140 events, is never deadlocked,
    and can be continued until all five threads have finished; in a
    complete run every thread has eaten exactly 3 times and the run holds
    exactly [NUM_PHILOSOPHERS * 3 = 15] eat events, so any two complete runs
    agree on that total. *)
Theorem sem_total_consumptions tr s :
  sem_run tr s →
  (all_finished s ∨ ∃ id ev s', step s id = Some (ev, s')) ∧
  length tr ≤ 28 * NUM_PHILOSOPHERS ∧
  (∃ tr' s', sem_run (tr ++ tr') s' ∧ all_finished s') ∧
  (all_finished s →
     (∀ id, id < NUM_PHILOSOPHERS → occurrences is_eat (proj id tr) = 3) ∧
     occurrences (λ x, is_eat (snd x)) tr = NUM_PHILOSOPHERS * 3 ∧
     occurrences (λ x, is_eat (snd x)) tr = 15 ∧
     ∀ tr' s', sem_run tr' s' → all_finished s' →
       occurrences (λ x, is_eat (snd x)) tr' = occurrences (λ x, is_eat (snd x)) tr).
Proof.
  intros Hrun. pose proof (sem_invariant_run _ _ Hrun) as Hinv.
  split; [by apply sem_progress|]. split; [by eapply sem_run_bounded|]. split.
  - eapply (run_completes step (λ id : nat, id) init all_finished
              (28 * NUM_PHILOSOPHERS)); [intros ???; by eapply sem_run_bounded| |exact Hrun].
    intros tr0 s0 Hrun0. apply sem_progress. by eapply sem_invariant_run.
  - intros Hfin.
    assert (∀ tr0 s0, sem_run tr0 s0 → all_finished s0 →
              occurrences (λ x, is_eat (snd x)) tr0 = 15) as Htotal.
    { intros tr0 s0 Hrun0 Hfin0. rewrite (sem_meals_accounting _ _ Hrun0).
      pose proof (sem_invariant_run _ _ Hrun0) as [Hlen0 _ _ _].
      rewrite (sum_list_with_const _ _ 3), Hlen0; [done|].
      intros i [p meal] Hi. specialize (Hfin0 _ _ Hi). simpl in Hfin0. subst p.
      destruct (sem_threads_run _ _ Hrun0 _ _ Hi) as [Hok _].
      unfold meal_ok, meals_done in *. simpl in *. lia. }
    split; [|split; [by eapply Htotal|split; [by eapply Htotal|]]].
    + intros id Hid. destruct Hinv as [Hlen _ _ _].
      destruct (philosophers s !! id) as [[p meal]|] eqn:Ht.
      * destruct (sem_threads_run _ _ Hrun _ _ Ht) as [Hok ->].
        specialize (Hfin _ _ Ht). simpl in Hfin. subst p.
        unfold meal_ok in Hok. simpl in Hok. subst meal.
        unfold thread_trace. simpl. reflexivity.
      * apply lookup_ge_None in Ht. lia.
    + intros tr' s' Hrun' Hfin'. by rewrite (Htotal _ _ Hrun' Hfin'), (Htotal _ _ Hrun Hfin).
Qed.

Lemma sem_sequential_finished : all_finished (snd (after sequential)).
Proof.
  intros id t. vm_compute.
  do 5 (destruct id as [|id]; [intros ?; simplify_eq; reflexivity|]).
  intros ?. discriminate.
Defined.

Lemma sem_total_consumptions_witness :
  length (fst (after sequential)) = 140 ∧
  occurrences (λ x, is_eat (snd x)) (fst (after sequential)) = 15 ∧
  occurrences is_eat (proj 2 (fst (after sequential))) = 3.
Proof.
  destruct (sem_total_consumptions (fst (after sequential)) (snd (after sequential)))
    as (_ & _ & _ & Hcomplete).
  - apply (exec_run _ _ _ sequential). vm_compute. reflexivity.
  - destruct (Hcomplete sem_sequential_finished) as (Heach & _ & Htotal & _).
    split; [vm_compute; reflexivity|]. split; [exact Htotal|].
    apply Heach. unfold NUM_PHILOSOPHERS. lia.
Defined.

End SemaphoreProofs.

(** ** Solution 2: the waiter *)

Module WaiterProofs.
Import DiningPhilosophersWaiter.

Lemma waiter_left_right_distinct id :
  id < NUM_PHILOSOPHERS → right_of id ≠ left_of id.
Proof.
  unfold right_of, left_of, NUM_PHILOSOPHERS. intros Hid Heq.
  do 5 (destruct id as [|id]; [vm_compute in Heq; lia|]). lia.
Qed.

Lemma waiter_right_of_lt id : right_of id < NUM_PHILOSOPHERS.
Proof. apply Nat.mod_upper_bound. done. Qed.

Lemma waiter_lock_waiter_Some s id s1 :
  lock_waiter s id = Some s1 ↔ waiter_mutex s = None ∧ s1 = with_mutex s (Some id).
Proof.
  unfold lock_waiter. destruct (waiter_mutex s); split.
  all: try (intros [? ?]); try intros ?; simplify_eq; done.
Qed.

Lemma waiter_unlock_waiter_Some s id s1 :
  unlock_waiter s id = Some s1 ↔ waiter_mutex s = Some id ∧ s1 = with_mutex s None.
Proof.
  unfold unlock_waiter. destruct (waiter_mutex s) as [o|].
  - destruct (Nat.eqb_spec o id); split.
    all: try (intros [? ?]); try intros ?; simplify_eq; done.
  - split; [done|]. by intros [? ?].
Qed.

Lemma waiter_can_eat_true l id :
  can_eat l id = Some true ↔ l !! left_of id = Some true ∧ l !! right_of id = Some true.
Proof.
  unfold can_eat.
  destruct (l !! left_of id) as [[]|], (l !! right_of id) as [[]|]; simpl; split.
  all: try (intros [? ?]); try intros ?; simplify_eq; done.
Qed.

(** The owner of [waiter_mutex] is the one thread inside a critical section. *)
Lemma waiter_critical_owner s id p meal :
  invariant s → philosophers s !! id = Some (p, meal) → critical p = true →
  waiter_mutex s = Some id.
Proof.
  intros [_ _ Hmx _ _] Hid Hcrit.
  assert ([waiter_mutex s] !! 0 = Some (Some id)) as Hm; [|by simplify_eq/=].
  apply Hmx. exists (p, meal). split; [done|]. simpl. by rewrite Hcrit.
Qed.

Lemma waiter_critical_unique s i j pi mi pj mj :
  invariant s →
  philosophers s !! i = Some (pi, mi) → philosophers s !! j = Some (pj, mj) →
  critical pi = true → critical pj = true → i = j.
Proof.
  intros Hinv Hi Hj Hci Hcj.
  pose proof (waiter_critical_owner _ _ _ _ Hinv Hi Hci).
  pose proof (waiter_critical_owner _ _ _ _ Hinv Hj Hcj). congruence.
Qed.

Lemma waiter_invariant_init : invariant init.
Proof.
  split; try done.
  - intros k o. split.
    + intros Hk. destruct k; simplify_eq/=.
    + intros (t & [-> _]%lookup_replicate & Ho). simpl in Ho.
      by rewrite andb_false_r in Ho.
  - apply (reserved_init (λ id (t : pc * nat), marks id (fst t))).
    intros id k. unfold marks. simpl. by rewrite !andb_false_r.
  - intros id p meal [? _]%lookup_replicate. simplify_eq.
    split; [intros ?|intros [?|?]]; simplify_eq.
Qed.

(** The five kinds of statement. *)

Lemma waiter_invariant_plain s id p meal p' meal' :
  invariant s → philosophers s !! id = Some (p, meal) →
  critical p' = critical p →
  (∀ k, marks id p' k = marks id p k) →
  (p' = ReserveLeft → can_eat (chopstick_available s) id = Some true) →
  p' ≠ ReserveRight →
  invariant (goto s id p' meal').
Proof.
  intros [Hlen Hllen Hmx Hres Hgr] Hid Hcrit Hmarks Hgrant Hnot.
  assert (id < length (philosophers s)) by (by eapply lookup_lt_Some).
  split; simpl; rewrite ?length_insert; try done.
  - eapply agree_goto; eauto. intros k. simpl. by rewrite Hcrit.
  - eapply reserved_goto; eauto.
  - intros j q m Hj. destruct (decide (j = id)) as [->|Hne].
    + rewrite list_lookup_insert_eq in Hj by done. simplify_eq.
      split.
      * intros ->. by apply waiter_can_eat_true, Hgrant.
      * intros [->|?]; [|done]. by apply waiter_can_eat_true, Hgrant.
    + rewrite list_lookup_insert_ne in Hj by done. eauto.
Qed.

Lemma waiter_invariant_lock s id p meal p' meal' :
  invariant s → philosophers s !! id = Some (p, meal) →
  waiter_mutex s = None →
  critical p = false → critical p' = true →
  (∀ k, marks id p' k = marks id p k) →
  p' ≠ ReserveLeft → p' ≠ ReserveRight →
  invariant (goto (with_mutex s (Some id)) id p' meal').
Proof.
  intros [Hlen Hllen Hmx Hres Hgr] Hid Hfree Hout Hin Hmarks Hn1 Hn2.
  assert (id < length (philosophers s)) by (by eapply lookup_lt_Some).
  split; simpl; rewrite ?length_insert; try done.
  - change [Some id] with (<[0 := Some id]> [waiter_mutex s]).
    eapply agree_lock; eauto; simpl; rewrite ?Hfree, ?Hin, ?Hout; try done.
    intros k'. by rewrite andb_true_r, andb_false_r, orb_false_r.
  - eapply reserved_goto; eauto.
  - intros j q m Hj. destruct (decide (j = id)) as [->|Hne].
    + rewrite list_lookup_insert_eq in Hj by done. simplify_eq.
      split; [intros ?|intros [?|?]]; simplify_eq.
    + rewrite list_lookup_insert_ne in Hj by done. eauto.
Qed.

Lemma waiter_invariant_unlock s id p meal p' meal' :
  invariant s → philosophers s !! id = Some (p, meal) →
  waiter_mutex s = Some id →
  critical p = true → critical p' = false →
  (∀ k, marks id p' k = marks id p k) →
  invariant (goto (with_mutex s None) id p' meal').
Proof.
  intros [Hlen Hllen Hmx Hres Hgr] Hid Hmine Hin Hout Hmarks.
  assert (id < length (philosophers s)) by (by eapply lookup_lt_Some).
  split; simpl; rewrite ?length_insert; try done.
  - change [None] with (<[0 := @None nat]> [waiter_mutex s]).
    eapply agree_unlock; eauto; simpl; rewrite ?Hmine, ?Hin, ?Hout; try done.
    intros k'. by rewrite andb_true_r, andb_false_r, orb_false_r.
  - eapply reserved_goto; eauto.
  - intros j q m Hj. destruct (decide (j = id)) as [->|Hne].
    + rewrite list_lookup_insert_eq in Hj by done. simplify_eq.
      split; [intros ->; done|intros [->| ->]; done].
    + rewrite list_lookup_insert_ne in Hj by done. eauto.
Qed.

Lemma waiter_invariant_take s id p meal p' k :
  invariant s → philosophers s !! id = Some (p, meal) →
  critical p = true → critical p' = true →
  chopstick_available s !! k = Some true →
  (∀ k', marks id p' k' = (k' =? k) || marks id p k') →
  p' ≠ ReserveLeft →
  (p' = ReserveRight →
     k ≠ right_of id ∧ chopstick_available s !! right_of id = Some true) →
  invariant (goto (with_available s (<[k := false]> (chopstick_available s))) id p' meal).
Proof.
  intros Hinv Hid Hin Hin' Hfree Hgain Hn1 Hn2.
  pose proof (waiter_critical_unique s id) as Huniq.
  pose proof Hinv as [Hlen Hllen Hmx Hres Hgr].
  assert (id < length (philosophers s)) by (by eapply lookup_lt_Some).
  split; simpl; rewrite ?length_insert; try done.
  - eapply agree_goto; eauto. intros k'. simpl. by rewrite Hin, Hin'.
  - eapply reserved_take; eauto.
  - intros j q m Hj. destruct (decide (j = id)) as [->|Hne].
    + rewrite list_lookup_insert_eq in Hj by done. simplify_eq.
      split; [done|]. intros [?|Hp]; [done|].
      destruct (Hn2 Hp) as [? ?]. by rewrite list_lookup_insert_ne.
    + rewrite list_lookup_insert_ne in Hj by done.
      split; [intros ->|intros [->| ->]]; exfalso; apply Hne; symmetry;
        eapply Huniq; eauto.
Qed.

Lemma waiter_invariant_give s id p meal p' k :
  invariant s → philosophers s !! id = Some (p, meal) →
  critical p = true → critical p' = true →
  k < NUM_PHILOSOPHERS →
  marks id p k = true →
  (∀ k', marks id p k' = (k' =? k) || marks id p' k') →
  marks id p' k = false →
  p' ≠ ReserveLeft → p' ≠ ReserveRight →
  invariant (goto (with_available s (<[k := true]> (chopstick_available s))) id p' meal).
Proof.
  intros Hinv Hid Hin Hin' Hk Hmine Hlose Hgone Hn1 Hn2.
  pose proof (waiter_critical_unique s id) as Huniq.
  pose proof Hinv as [Hlen Hllen Hmx Hres Hgr].
  assert (id < length (philosophers s)) by (by eapply lookup_lt_Some).
  split; simpl; rewrite ?length_insert; try done.
  - eapply agree_goto; eauto. intros k'. simpl. by rewrite Hin, Hin'.
  - eapply (reserved_give _ _ _ _ (p, meal)); eauto. by rewrite Hllen.
  - intros j q m Hj. destruct (decide (j = id)) as [->|Hne].
    + rewrite list_lookup_insert_eq in Hj by done. simplify_eq.
      split; [done|]. by intros [?|?].
    + rewrite list_lookup_insert_ne in Hj by done.
      split; [intros ->|intros [->| ->]]; exfalso; apply Hne; symmetry;
        eapply Huniq; eauto.
Qed.

Ltac marks_cases :=
  intros; unfold marks; simpl;
  rewrite ?andb_true_r, ?andb_false_r, ?orb_false_r, ?orb_false_l; try done.

Ltac side :=
  try done;
  try (marks_cases; rewrite ?Nat.eqb_refl, ?orb_true_r; try done; apply orb_comm).

Lemma waiter_invariant_step s id ev s' :
  invariant s → step s id = Some (ev, s') → invariant s'.
Proof.
  intros Hinv Hstep. unfold step in Hstep.
  destruct (philosophers s !! id) as [[p meal]|] eqn:Hid; [|done].
  assert (id < NUM_PHILOSOPHERS) as Hlt.
  { destruct Hinv as [Hlen _ _ _ _]. rewrite <- Hlen. by eapply lookup_lt_Some. }
  pose proof (waiter_left_right_distinct id Hlt) as Hdist.
  pose proof (waiter_right_of_lt id) as Hrlt.
  destruct p; simpl in Hstep.
  - (* LoopHead *)
    destruct (meal <? 3); simplify_eq; eapply waiter_invariant_plain; eauto; side.
  - (* RequestLock *)
    destruct (lock_waiter s id) as [s1|] eqn:Hl; simpl in Hstep; simplify_eq.
    apply waiter_lock_waiter_Some in Hl as [Hfree ->].
    eapply waiter_invariant_lock; eauto; side.
  - (* RequestCheck *)
    destruct (can_eat (chopstick_available s) id) as [[]|] eqn:Hcan; [| |done].
    + simplify_eq. eapply waiter_invariant_plain; eauto; side.
    + destruct (unlock_waiter s id) as [s1|] eqn:Hu; simpl in Hstep; simplify_eq.
      apply waiter_unlock_waiter_Some in Hu as [Hmine ->].
      eapply waiter_invariant_unlock; eauto; side.
  - (* RequestWait *)
    destruct (lock_waiter s id) as [s1|] eqn:Hl; simpl in Hstep; simplify_eq.
    apply waiter_lock_waiter_Some in Hl as [Hfree ->].
    eapply waiter_invariant_lock; eauto; side.
  - (* ReserveLeft *)
    simplify_eq. destruct (inv_granting _ Hinv _ _ _ Hid) as [Hl Hr].
    eapply waiter_invariant_take; eauto; side.
  - (* ReserveRight *)
    simplify_eq. destruct (inv_granting _ Hinv _ _ _ Hid) as [Hl Hr].
    eapply waiter_invariant_take; eauto; side.
  - (* RequestReturn *)
    destruct (unlock_waiter s id) as [s1|] eqn:Hu; simpl in Hstep; simplify_eq.
    apply waiter_unlock_waiter_Some in Hu as [Hmine ->].
    eapply waiter_invariant_unlock; eauto; side.
  - (* Eating *)
    simplify_eq. eapply waiter_invariant_plain; eauto; side.
  - (* ReturnLock *)
    destruct (lock_waiter s id) as [s1|] eqn:Hl; simpl in Hstep; simplify_eq.
    apply waiter_lock_waiter_Some in Hl as [Hfree ->].
    eapply waiter_invariant_lock; eauto; side.
  - (* ReturnLeft *)
    simplify_eq. eapply waiter_invariant_give; eauto; side.
    marks_cases. apply Nat.eqb_neq. intros Heq. by apply Hdist.
  - (* ReturnRight *)
    simplify_eq. eapply waiter_invariant_give; eauto; side.
  - (* ReturnNotify *)
    simplify_eq. eapply waiter_invariant_plain; eauto; side.
  - (* ReturnUnlock *)
    destruct (unlock_waiter s id) as [s1|] eqn:Hu; simpl in Hstep; simplify_eq.
    apply waiter_unlock_waiter_Some in Hu as [Hmine ->].
    eapply waiter_invariant_unlock; eauto; side.
  - done.
Qed.

Lemma waiter_invariant_run tr s : waiter_run tr s → invariant s.
Proof.
  intros Hrun. induction Hrun; [apply waiter_invariant_init|].
  by eapply waiter_invariant_step.
Qed.

(** One iteration of thread 0 on its own. *)
Example waiter_one_meal_trace :
  proj 0 (fst (after one_meal))
  = [EThink; ELockWaiter; EGranted; ESet 0 false; ESet 1 false; EUnlockWaiter; EEat;
     ELockWaiter; ESet 0 true; ESet 1 true; ENotifyAll; EUnlockWaiter] ∧
  chopstick_available (snd (after one_meal)) = replicate NUM_PHILOSOPHERS true ∧
  philosophers (snd (after one_meal)) !! 0 = Some (LoopHead, 1).
Proof. vm_compute. done. Qed.

(** A thread whose neighbour is eating is sent to sleep by [wait]. *)
Example waiter_neighbour_waits_trace :
  proj 1 (fst (after neighbour_waits)) = [EThink; ELockWaiter; EBlocked] ∧
  chopstick_available (snd (after neighbour_waits)) = [false; false; true; true; true] ∧
  waiter_mutex (snd (after neighbour_waits)) = None ∧
  philosophers (snd (after neighbour_waits)) !! 1 = Some (RequestWait, 0).
Proof. vm_compute. done. Qed.

(** While a thread is between the grant and the return of
    [request_chopsticks], the other threads can only think, eat or finish. *)
Lemma waiter_others_excluded s id p meal j ev s' :
  invariant s → philosophers s !! id = Some (p, meal) → critical p = true →
  j ≠ id → step s j = Some (ev, s') →
  touches_ledger ev = false ∧
  chopstick_available s' = chopstick_available s ∧
  philosophers s' !! id = Some (p, meal).
Proof.
  intros Hinv Hid Hcrit Hne Hstep.
  pose proof (waiter_critical_owner _ _ _ _ Hinv Hid Hcrit) as Hmine.
  unfold step in Hstep.
  destruct (philosophers s !! j) as [[q m]|] eqn:Hj; [|done].
  assert (critical q = false) as Hout.
  { destruct (critical q) eqn:Hq; [|done]. exfalso. apply Hne.
    eapply (waiter_critical_unique s j id); eauto. }
  unfold lock_waiter in Hstep. rewrite Hmine in Hstep.
  destruct q; simpl in Hstep, Hout; try done.
  - destruct (meal <? 3), (m <? 3); simplify_eq; simpl;
      by rewrite list_lookup_insert_ne.
  - simplify_eq. simpl. by rewrite list_lookup_insert_ne.
Qed.

(** *** The claims *)



(** C3.  In every state of every interleaving no resource index is owned
    by two threads, where a thread owns an index from its assignment of
    [false] to that entry until its assignment of [true]; and an entry of
    the array is [false] exactly when some thread owns its index. *)
Theorem waiter_exclusive_ownership tr s :
  waiter_run tr s →
  (∀ i j pi mi pj mj k,
     philosophers s !! i = Some (pi, mi) → philosophers s !! j = Some (pj, mj) →
     marks i pi k = true → marks j pj k = true → i = j) ∧
  (∀ k, k < NUM_PHILOSOPHERS →
     chopstick_available s !! k = Some false ↔
     ∃ i p meal, philosophers s !! i = Some (p, meal) ∧ marks i p k = true) ∧
  (∀ k, k < NUM_PHILOSOPHERS →
     chopstick_available s !! k = Some true ↔
     ∀ i p meal, philosophers s !! i = Some (p, meal) → marks i p k = false).
Proof.
  intros Hrun. destruct (waiter_invariant_run _ _ Hrun) as [_ Hllen _ [Hshown Huniq] _].
  split; [|split].
  - intros i j pi mi pj mj k Hi Hj Hmi Hmj.
    eapply (Huniq i j (pi, mi) (pj, mj)); eauto.
  - intros k Hk.
    destruct (chopstick_available s !! k) as [b|] eqn:Hl;
      [|apply lookup_ge_None in Hl; lia].
    specialize (Hshown k b Hl). split.
    + intros ?; simplify_eq. destruct Hshown as [Hs _].
      destruct (Hs eq_refl) as (i & [p m] & ? & ?). eauto.
    + intros (i & p & m & Hi & Hm). f_equal. apply Hshown.
      exists i, (p, m). eauto.
  - intros k Hk.
    destruct (chopstick_available s !! k) as [b|] eqn:Hl;
      [|apply lookup_ge_None in Hl; lia].
    specialize (Hshown k b Hl). split.
    + intros ? i p m Hi; simplify_eq.
      destruct (marks i p k) eqn:Hm; [|done].
      assert (true = false); [|done]. apply Hshown. exists i, (p, m). eauto.
    + intros Hnone. destruct b; [done|]. destruct Hshown as [Hs _].
      destruct (Hs eq_refl) as (i & [p m] & Hi & Hm).
      simpl in Hm. by rewrite (Hnone _ _ _ Hi) in Hm.
Qed.

Lemma waiter_exclusive_ownership_witness :
  chopstick_available (snd (after half_granted)) !! 1 = Some false ∧
  chopstick_available (snd (after half_granted)) !! 3 = Some true.
Proof.
  destruct (waiter_exclusive_ownership (fst (after half_granted))
              (snd (after half_granted))) as (_ & Hfalse & Htrue).
  - apply (exec_run _ _ _ half_granted). vm_compute. reflexivity.
  - split.
    + apply Hfalse; [unfold NUM_PHILOSOPHERS; lia|].
      exists 1, ReserveRight, 0. split; vm_compute; reflexivity.
    + apply Htrue; [unfold NUM_PHILOSOPHERS; lia|].
      intros i p meal. vm_compute.
      do 5 (destruct i as [|i]; [intros ?; simplify_eq; reflexivity|]).
      intros ?. discriminate.
Defined.

(** What a granted request does to the array, and what the return after
    it does. *)
Lemma waiter_request_return_granted (l l' : list bool) id :
  id < NUM_PHILOSOPHERS → length l = NUM_PHILOSOPHERS →
  request_chopsticks l id = Some l' →
  return_chopsticks l' id = l ∧
  l' !! id = Some false ∧ l' !! ((id + 1) mod NUM_PHILOSOPHERS) = Some false ∧
  (∀ k, k ≠ id → k ≠ (id + 1) mod NUM_PHILOSOPHERS → l' !! k = l !! k) ∧
  (∀ l0 : list bool, length l0 = NUM_PHILOSOPHERS →
     return_chopsticks l0 id !! id = Some true ∧
     return_chopsticks l0 id !! ((id + 1) mod NUM_PHILOSOPHERS) = Some true ∧
     ∀ k, k ≠ id → k ≠ (id + 1) mod NUM_PHILOSOPHERS →
          return_chopsticks l0 id !! k = l0 !! k) ∧
  (∀ s meal, chopstick_available s = l →
     philosophers s !! id = Some (RequestCheck, meal) →
     ∃ tr1 s1, exec step (λ i : nat, i) s [] [id; id; id] = Some (tr1, s1) ∧
               chopstick_available s1 = l' ∧
               philosophers s1 !! id = Some (RequestReturn, meal)) ∧
  (∀ s meal, chopstick_available s = l' →
     philosophers s !! id = Some (ReturnLeft, meal) →
     ∃ tr1 s1, exec step (λ i : nat, i) s [] [id; id] = Some (tr1, s1) ∧
               chopstick_available s1 = l ∧
               philosophers s1 !! id = Some (ReturnNotify, meal)).
Proof.
  intros Hlt Hlen Hreq.
  pose proof (waiter_left_right_distinct id Hlt) as Hdist.
  pose proof (waiter_right_of_lt id) as Hrlt.
  unfold request_chopsticks in Hreq.
  destruct (can_eat l id) as [[]|] eqn:Hcan; simplify_eq.
  pose proof Hcan as Hcan'. apply waiter_can_eat_true in Hcan' as [Hl Hr].
  fold (right_of id). unfold left_of in *.
  assert (∀ (l0 : list bool) b k, length l0 = NUM_PHILOSOPHERS →
            (<[right_of id := b]> (<[id := b]> l0)) !! k
            = if decide (k = id ∨ k = right_of id) then Some b else l0 !! k) as Hwrite.
  { intros l0 b k Hl0. destruct (decide (k = right_of id)) as [->|Hkr].
    - rewrite list_lookup_insert_eq by (rewrite length_insert; lia).
      rewrite decide_True; eauto.
    - rewrite list_lookup_insert_ne by done.
      destruct (decide (k = id)) as [->|Hkl].
      + rewrite list_lookup_insert_eq by lia. rewrite decide_True; eauto.
      + rewrite list_lookup_insert_ne by done. rewrite decide_False; [done|].
        intros [?|?]; done. }
  assert (return_chopsticks (<[right_of id := false]> (<[id := false]> l)) id = l)
    as Hround.
  { apply list_eq. intros k. unfold return_chopsticks, left_of.
    rewrite Hwrite by (by rewrite !length_insert).
    destruct (decide (k = id ∨ k = right_of id)) as [[->| ->]|Hk]; [done..|].
    rewrite Hwrite by done. by rewrite decide_False. }
  split; [done|].
  split; [rewrite Hwrite by done; rewrite decide_True; eauto|].
  split; [rewrite Hwrite by done; rewrite decide_True; eauto|].
  split.
  { intros k Hk1 Hk2. rewrite Hwrite by done. rewrite decide_False; [done|].
    intros [?|?]; done. }
  split.
  { intros l0 Hl0. unfold return_chopsticks, left_of.
    rewrite !Hwrite by done. rewrite !decide_True by eauto.
    split; [done|]. split; [done|]. intros k Hk1 Hk2.
    rewrite Hwrite by done. rewrite decide_False; [done|]. intros [?|?]; done. }
  split.
  - intros s meal <- Hid.
    assert (id < length (philosophers s)) by (by eapply lookup_lt_Some).
    simpl. unfold step at 1. rewrite Hid, Hcan.
    unfold step at 1. cbn [philosophers goto].
    rewrite list_lookup_insert_eq by done.
    unfold step at 1. cbn [philosophers goto with_available].
    rewrite list_lookup_insert_eq by (by rewrite length_insert).
    eexists _, _. split; [reflexivity|]. cbn.
    split; [done|]. apply list_lookup_insert_eq. by rewrite !length_insert.
  - intros s meal Hs Hid.
    assert (id < length (philosophers s)) by (by eapply lookup_lt_Some).
    simpl. unfold step at 1. rewrite Hid.
    unfold step at 1. cbn [philosophers goto with_available].
    rewrite list_lookup_insert_eq by done.
    eexists _, _. split; [reflexivity|]. cbn.
    split; [by rewrite Hs|]. apply list_lookup_insert_eq. by rewrite !length_insert.
Qed.

(** C9.  [request_chopsticks id] is granted on an array exactly when the
    entries [id] and [(id + 1) mod 5] are both available.  On every such
    array the request sets the two entries of the pair to [false] and
    changes no other entry, and [return_chopsticks id] after it gives back
    the array as it was before the request; the statements of the thread
    compute these two functions (three steps from the predicate of [wait]
    make the request's array, two steps from the first assignment of
    [return_chopsticks] make the returned one).  On an array with an entry
    of the pair taken the predicate of [wait] fails: the caller unlocks the
    mutex and sleeps, and the array stays as it is.  On any array,
    [return_chopsticks id] sets exactly the two entries of the pair to
    [true] and changes no other entry. *)
Theorem waiter_request_return_roundtrip (l : list bool) id :
  id < NUM_PHILOSOPHERS → length l = NUM_PHILOSOPHERS →
  (is_Some (request_chopsticks l id)
   ↔ l !! id = Some true ∧ l !! ((id + 1) mod NUM_PHILOSOPHERS) = Some true) ∧
  (l !! id = Some true → l !! ((id + 1) mod NUM_PHILOSOPHERS) = Some true →
   ∃ l', request_chopsticks l id = Some l' ∧
     return_chopsticks l' id = l ∧
     l' !! id = Some false ∧ l' !! ((id + 1) mod NUM_PHILOSOPHERS) = Some false ∧
     (∀ k, k ≠ id → k ≠ (id + 1) mod NUM_PHILOSOPHERS → l' !! k = l !! k) ∧
     (∀ s meal, chopstick_available s = l →
        philosophers s !! id = Some (RequestCheck, meal) →
        ∃ tr1 s1, exec step (λ i : nat, i) s [] [id; id; id] = Some (tr1, s1) ∧
                  chopstick_available s1 = l' ∧
                  philosophers s1 !! id = Some (RequestReturn, meal)) ∧
     (∀ s meal, chopstick_available s = l' →
        philosophers s !! id = Some (ReturnLeft, meal) →
        ∃ tr1 s1, exec step (λ i : nat, i) s [] [id; id] = Some (tr1, s1) ∧
                  chopstick_available s1 = l ∧
                  philosophers s1 !! id = Some (ReturnNotify, meal))) ∧
  (¬ (l !! id = Some true ∧ l !! ((id + 1) mod NUM_PHILOSOPHERS) = Some true) →
   request_chopsticks l id = None ∧
   ∀ s meal, chopstick_available s = l → waiter_mutex s = Some id →
     philosophers s !! id = Some (RequestCheck, meal) →
     ∃ s1, step s id = Some (EBlocked, s1) ∧ chopstick_available s1 = l ∧
           philosophers s1 !! id = Some (RequestWait, meal)) ∧
  (∀ l0 : list bool, length l0 = NUM_PHILOSOPHERS →
     return_chopsticks l0 id !! id = Some true ∧
     return_chopsticks l0 id !! ((id + 1) mod NUM_PHILOSOPHERS) = Some true ∧
     ∀ k, k ≠ id → k ≠ (id + 1) mod NUM_PHILOSOPHERS →
          return_chopsticks l0 id !! k = l0 !! k).
Proof.
  intros Hlt Hlen.
  pose proof (waiter_right_of_lt id) as Hrlt.
  assert (is_Some (request_chopsticks l id)
          ↔ l !! id = Some true ∧ l !! ((id + 1) mod NUM_PHILOSOPHERS) = Some true)
    as Hgranted.
  { fold (right_of id). change (l !! id) with (l !! left_of id).
    rewrite <- waiter_can_eat_true. unfold request_chopsticks.
    destruct (can_eat l id) as [[]|]; split; intros H; try done;
      by (eexists || destruct H). }
  split; [exact Hgranted|].
  split; [|split].
  - intros Hl Hr. destruct (proj2 Hgranted (conj Hl Hr)) as [l' Hreq].
    exists l'. split; [done|].
    destruct (waiter_request_return_granted l l' id Hlt Hlen Hreq)
      as (? & ? & ? & ? & _ & ? & ?).
    done.
  - intros Hnot.
    assert (can_eat l id = Some false) as Hcan.
    { unfold can_eat, left_of. fold (right_of id) in Hnot.
      destruct (l !! id) as [a|] eqn:Ha; [|apply lookup_ge_None in Ha; lia].
      destruct (l !! right_of id) as [b|] eqn:Hb; [|apply lookup_ge_None in Hb; lia].
      simpl. destruct a, b; try done. by destruct Hnot. }
    split; [unfold request_chopsticks; by rewrite Hcan|].
    intros s meal <- Hmx Hid.
    assert (id < length (philosophers s)) by (by eapply lookup_lt_Some).
    unfold step, unlock_waiter. rewrite Hid, Hcan, Hmx, Nat.eqb_refl. simpl.
    eexists. split; [done|]. split; [done|]. simpl.
    by apply list_lookup_insert_eq.
  - intros l0 Hl0.
    pose proof (waiter_left_right_distinct id Hlt) as Hdist.
    unfold return_chopsticks, left_of in *. fold (right_of id).
    split; [|split].
    + rewrite list_lookup_insert_ne by done. apply list_lookup_insert_eq. lia.
    + apply list_lookup_insert_eq. rewrite length_insert. lia.
    + intros k Hk1 Hk2. by rewrite !list_lookup_insert_ne.
Qed.

Lemma waiter_request_return_roundtrip_witness :
  request_chopsticks [true; false; true; true; true] 2
    = Some [true; false; false; false; true] ∧
  return_chopsticks [true; false; false; false; true] 2
    = [true; false; true; true; true].
Proof.
  destruct (waiter_request_return_roundtrip [true; false; true; true; true] 2)
    as (_ & Hgranted & _).
  - unfold NUM_PHILOSOPHERS. lia.
  - reflexivity.
  - destruct (Hgranted eq_refl eq_refl) as (l' & Hreq & Hret & _).
    vm_compute in Hreq. injection Hreq as <-. split; [reflexivity|exact Hret].
Defined.

(** C9, as the specification words it ("for every ledger state"), fails on
    an array with an entry of the pair taken.  Thread 0 is eating when
    thread 1 calls [request_chopsticks]: the array is
    [[false; false; true; true; true]], entry 1 is taken, and the request
    is not granted there.  No return could give that array back, for
    [return_chopsticks 1] leaves entry 1 [true] on every array.  In the
    program thread 1 sleeps until thread 0 has returned its pair, reserves
    from the array thread 0 left, and after its own return every entry is
    [true]: not the array of the call. *)
Lemma waiter_request_return_roundtrip_counterexample :
  waiter_run (fst (after request_refused)) (snd (after request_refused)) ∧
  philosophers (snd (after request_refused)) !! 1 = Some (RequestLock, 0) ∧
  chopstick_available (snd (after request_refused)) = [false; false; true; true; true] ∧
  request_chopsticks [false; false; true; true; true] 1 = None ∧
  (∀ l', return_chopsticks l' 1 ≠ [false; false; true; true; true]) ∧
  waiter_run (fst (after request_delayed)) (snd (after request_delayed)) ∧
  proj 1 (fst (after request_delayed))
  = [EThink; ELockWaiter; EBlocked; EWoken; EGranted; ESet 1 false; ESet 2 false;
     EUnlockWaiter; EEat; ELockWaiter; ESet 1 true; ESet 2 true; ENotifyAll;
     EUnlockWaiter] ∧
  chopstick_available (snd (after request_delayed)) = [true; true; true; true; true] ∧
  chopstick_available (snd (after request_delayed))
  ≠ chopstick_available (snd (after request_refused)).
Proof.
  split; [apply (exec_run _ _ _ request_refused); vm_compute; reflexivity|].
  split; [vm_compute; reflexivity|].
  split; [vm_compute; reflexivity|].
  split; [vm_compute; reflexivity|].
  split.
  { intros l' H. apply (f_equal (λ l : list bool, l !! 1)) in H.
    unfold return_chopsticks in H. destruct l' as [|a [|b l']]; vm_compute in H;
      discriminate. }
  split; [apply (exec_run _ _ _ request_delayed); vm_compute; reflexivity|].
  split; [vm_compute; reflexivity|].
  split; [vm_compute; reflexivity|].
  vm_compute. discriminate.
Qed.

End WaiterProofs.

(** ** Solution 3: timeouts and back-off *)

Module TimeoutProofs.
Import DiningPhilosophersTimeout.

Lemma timeout_acquisition_order_spec id :
  id < NUM_PHILOSOPHERS →
  acquisition_order id
  = (id `min` ((id + 1) mod NUM_PHILOSOPHERS), id `max` ((id + 1) mod NUM_PHILOSOPHERS)) ∧
  first_chopstick id < second_chopstick id ∧
  second_chopstick id < NUM_PHILOSOPHERS.
Proof.
  unfold first_chopstick, second_chopstick, NUM_PHILOSOPHERS. intros Hid.
  do 5 (destruct id as [|id]; [vm_compute; repeat split; lia|]). lia.
Qed.

Lemma timeout_first_second_distinct id :
  id < NUM_PHILOSOPHERS → first_chopstick id ≠ second_chopstick id.
Proof. intros Hid. destruct (timeout_acquisition_order_spec id Hid) as (_ & ? & _). lia. Qed.

Lemma timeout_meals_goto s id t t' :
  philosophers s !! id = Some t →
  sum_list_with meals_eaten (<[id := t']> (philosophers s)) + meals_eaten t
  = sum_list_with meals_eaten (philosophers s) + meals_eaten t'.
Proof. apply sum_list_with_insert. Qed.

Lemma timeout_invariant_init : invariant init.
Proof.
  split; try done.
  apply (agree_init (λ id t, owns id (at_pc t))).
  intros id k. unfold owns. simpl. by rewrite !andb_false_r.
Qed.

Ltac owns_cases :=
  intros; unfold owns; simpl;
  rewrite ?andb_true_r, ?andb_false_r, ?orb_false_r, ?orb_false_l; try done;
  try apply orb_comm.

Ltac total m' a' p' :=
  match goal with
  | Hid : philosophers ?s !! ?id = Some ?t |- _ =>
      pose proof (timeout_meals_goto s id t (Thread p' m' a') Hid); simpl in *; lia
  end.

Lemma timeout_invariant_step s c ev s' :
  invariant s → step s c = Some (ev, s') → invariant s'.
Proof.
  intros [Hlen Hmlen Hag Htot] Hstep. destruct c as [id ok].
  unfold step in Hstep. simpl in Hstep.
  destruct (philosophers s !! id) as [[p m a]|] eqn:Hid; [|done].
  assert (id < NUM_PHILOSOPHERS) as Hlt by (rewrite <- Hlen; by eapply lookup_lt_Some).
  pose proof (timeout_first_second_distinct id Hlt) as Hdist.
  simpl in Hstep. destruct p.
  - (* LoopHead *)
    destruct ((m <? 3) && (a <? 10)); simplify_eq;
      (split; simpl; rewrite ?length_insert; try done;
       [eapply agree_goto; eauto; owns_cases|]).
    + total m (a + 1) TryFirst.
    + total m a Finished.
  - (* TryFirst *)
    destruct ok.
    + destruct (mutex_lock id (chopsticks s) (first_chopstick id)) as [cs|] eqn:Hl;
        simpl in Hstep; simplify_eq.
      apply mutex_lock_Some in Hl as [Hfree ->].
      split; simpl; rewrite ?length_insert; try done.
      * eapply agree_lock; eauto. owns_cases.
      * total m a TrySecond.
    + simplify_eq. split; simpl; rewrite ?length_insert; try done.
      * eapply agree_goto; eauto; owns_cases.
      * total m a FirstTimedOut.
  - (* TrySecond *)
    destruct ok.
    + destruct (mutex_lock id (chopsticks s) (second_chopstick id)) as [cs|] eqn:Hl;
        simpl in Hstep; simplify_eq.
      apply mutex_lock_Some in Hl as [Hfree ->].
      split; simpl; rewrite ?length_insert; try done.
      * eapply agree_lock; eauto. owns_cases.
      * total m a Success.
    + simplify_eq. split; simpl; rewrite ?length_insert; try done.
      * eapply agree_goto; eauto; owns_cases.
      * total m a SecondTimedOut.
  - (* Success *)
    simplify_eq. split; simpl; rewrite ?length_insert; try done.
    + eapply agree_goto; eauto; owns_cases.
    + total (m + 1) a Eating.
  - (* Eating *)
    simplify_eq. split; simpl; rewrite ?length_insert; try done.
    + eapply agree_goto; eauto; owns_cases.
    + total m a UnlockSecond.
  - (* UnlockSecond *)
    destruct (mutex_unlock id (chopsticks s) (second_chopstick id)) as [cs|] eqn:Hl;
      simpl in Hstep; simplify_eq.
    apply mutex_unlock_Some in Hl as [Hmine ->].
    split; simpl; rewrite ?length_insert; try done.
    + eapply agree_unlock; eauto; owns_cases.
      apply Nat.eqb_neq. intros Heq. by apply Hdist.
    + total m a UnlockFirst.
  - (* UnlockFirst *)
    destruct (mutex_unlock id (chopsticks s) (first_chopstick id)) as [cs|] eqn:Hl;
      simpl in Hstep; simplify_eq.
    apply mutex_unlock_Some in Hl as [Hmine ->].
    split; simpl; rewrite ?length_insert; try done.
    + eapply agree_unlock; eauto; owns_cases.
    + total m a LoopHead.
  - (* SecondTimedOut *)
    simplify_eq. split; simpl; rewrite ?length_insert; try done.
    + eapply agree_goto; eauto; owns_cases.
    + total m a GiveBackFirst.
  - (* GiveBackFirst *)
    destruct (mutex_unlock id (chopsticks s) (first_chopstick id)) as [cs|] eqn:Hl;
      simpl in Hstep; simplify_eq.
    apply mutex_unlock_Some in Hl as [Hmine ->].
    split; simpl; rewrite ?length_insert; try done.
    + eapply agree_unlock; eauto; owns_cases.
    + total m a LoopHead.
  - (* FirstTimedOut *)
    simplify_eq. split; simpl; rewrite ?length_insert; try done.
    + eapply agree_goto; eauto; owns_cases.
    + total m a LoopHead.
  - done.
Qed.

Lemma timeout_invariant_run tr s : timeout_run tr s → invariant s.
Proof.
  intros Hrun. induction Hrun; [apply timeout_invariant_init|].
  by eapply timeout_invariant_step.
Qed.

(** *** The order of a thread's statements *)

Lemma timeout_step_local s id ok ev s' :
  step s (id, ok) = Some (ev, s') →
  ∃ t t', philosophers s !! id = Some t ∧ local_next id ok t = Some (ev, t') ∧
          philosophers s' = <[id := t']> (philosophers s).
Proof.
  unfold step. simpl. intros Hstep.
  destruct (philosophers s !! id) as [[p m a]|] eqn:Hid; [|done].
  exists (Thread p m a). unfold local_next. simpl in *.
  destruct p; repeat case_match; simplify_option_eq; eauto.
Qed.

Lemma timeout_local_next_ok id ok t ev t' :
  local_next id ok t = Some (ev, t') → thread_ok t → thread_ok t'.
Proof.
  destruct t as [p m a]. unfold local_next, thread_ok. simpl.
  intros Hnext [Ha Hm].
  destruct p; repeat case_match; simplify_eq; simpl;
    repeat match goal with
           | H : _ && _ = true |- _ => apply andb_true_iff in H as [?%Nat.ltb_lt ?%Nat.ltb_lt]
           | H : _ && _ = false |- _ =>
               apply andb_false_iff in H as [?%Nat.ltb_ge|?%Nat.ltb_ge]
           end; lia.
Qed.

Lemma timeout_history_next id ok t ev t' outs l :
  local_next id ok t = Some (ev, t') → history id t outs l →
  ∃ outs', history id t' outs' (l ++ [ev]).
Proof.
  destruct t as [p m a]. unfold local_next, history. simpl.
  intros Hnext (-> & Hatt & Hmeals).
  assert (∀ o, concat (map (attempt_events id) (outs ++ [o]))
               = concat (map (attempt_events id) outs) ++ attempt_events id o) as Hsnoc.
  { intros o. rewrite map_app, concat_app. simpl. by rewrite app_nil_r. }
  assert (∀ o, occurrences is_ate (outs ++ [o])
               = occurrences is_ate outs + (if is_ate o then 1 else 0)) as Hocc.
  { intros o. rewrite occurrences_app. unfold occurrences. simpl. by destruct (is_ate o). }
  destruct p; repeat case_match; simplify_eq; simpl in *.
  all: try (exists outs; rewrite <- ?app_assoc; simpl;
            split; [reflexivity|split; simpl; lia]).
  - exists (outs ++ [Ate]). rewrite Hsnoc, Hocc, length_app, <- !app_assoc. simpl.
    split; [done|]. lia.
  - exists (outs ++ [SecondFailed]). rewrite Hsnoc, Hocc, length_app, <- !app_assoc. simpl.
    split; [done|]. lia.
  - exists (outs ++ [FirstFailed]). rewrite Hsnoc, Hocc, length_app, <- !app_assoc. simpl.
    split; [done|]. lia.
Qed.

Lemma timeout_threads_run tr s :
  timeout_run tr s →
  ∀ id t, philosophers s !! id = Some t →
          thread_ok t ∧ ∃ outs, history id t outs (proj id tr).
Proof.
  intros Hrun. induction Hrun as [|tr s [j ok] ev s' Hrun IH Hstep].
  - intros id t [-> _]%lookup_replicate. split.
    + unfold thread_ok. simpl. lia.
    + exists []. done.
  - apply timeout_step_local in Hstep as (t0 & t1 & Hj & Hnext & ->).
    intros id t Hid. simpl. destruct (decide (id = j)) as [->|Hne].
    + rewrite list_lookup_insert_eq in Hid by (by eapply lookup_lt_Some).
      simplify_eq. destruct (IH _ _ Hj) as [Hok [outs Hh]].
      split; [by eapply timeout_local_next_ok|].
      rewrite proj_snoc_eq. by eapply timeout_history_next.
    + rewrite list_lookup_insert_ne in Hid by done.
      rewrite proj_snoc_ne by done. eauto.
Qed.

(** *** Termination *)

Lemma timeout_local_next_remaining id ok t ev t' :
  local_next id ok t = Some (ev, t') → thread_ok t → remaining t' < remaining t.
Proof.
  destruct t as [p m a]. unfold local_next, thread_ok, remaining. simpl.
  intros Hnext [Ha Hm].
  destruct p; repeat case_match; simplify_eq; simpl;
    repeat match goal with
           | H : _ && _ = true |- _ => apply andb_true_iff in H as [?%Nat.ltb_lt ?%Nat.ltb_lt]
           end; lia.
Qed.

Lemma timeout_run_bounded tr s :
  timeout_run tr s →
  length tr + sum_list_with remaining (philosophers s) ≤ 71 * NUM_PHILOSOPHERS.
Proof.
  intros Hrun. induction Hrun as [|tr s [j ok] ev s' Hrun IH Hstep].
  - vm_compute. lia.
  - pose proof (timeout_threads_run _ _ Hrun) as Hok.
    apply timeout_step_local in Hstep as (t0 & t1 & Hj & Hnext & ->).
    destruct (Hok _ _ Hj) as [Hok0 _].
    pose proof (timeout_local_next_remaining _ _ _ _ _ Hnext Hok0).
    pose proof (sum_list_with_insert remaining _ _ _ t1 Hj).
    rewrite length_app. unfold NUM_PHILOSOPHERS in *. cbn [length]. lia.
Qed.

(** No statement of the loop can block for ever: a thread that has not
    finished can always run, if need be with its [try_lock_for] failing. *)
Lemma timeout_progress s id t :
  invariant s → philosophers s !! id = Some t → at_pc t ≠ Finished →
  ∃ ev s', step s (id, false) = Some (ev, s').
Proof.
  intros [_ _ Hag _] Hid Hnf. unfold step. simpl. rewrite Hid.
  destruct t as [p m a]. simpl in *.
  assert (∀ k, owns id p k = true →
               mutex_unlock id (chopsticks s) k = Some (<[k := None]> (chopsticks s)))
    as Hunlock.
  { intros k Hk. apply mutex_unlock_Some. split; [|done].
    apply Hag. exists (Thread p m a). eauto. }
  destruct p; simpl; try done; eauto.
  - destruct ((m <? 3) && (a <? 10)); eauto.
  - rewrite Hunlock; [simpl; eauto|]. unfold owns. simpl.
    by rewrite Nat.eqb_refl, orb_true_r.
  - rewrite Hunlock; [simpl; eauto|]. unfold owns. simpl. by rewrite Nat.eqb_refl.
  - rewrite Hunlock; [simpl; eauto|]. unfold owns. simpl. by rewrite Nat.eqb_refl.
Qed.

Lemma timeout_live s :
  invariant s → all_finished s ∨ ∃ c ev s', step s c = Some (ev, s').
Proof.
  intros Hinv.
  destruct (decide (Forall (λ t, is_finished t = true) (philosophers s))) as [Hall|Hex].
  - left. intros id t Ht. rewrite Forall_lookup in Hall. specialize (Hall _ _ Ht).
    unfold is_finished in Hall. by destruct (at_pc t).
  - right. apply not_Forall_Exists in Hex; [|apply _].
    apply Exists_exists in Hex as (t & [id Ht]%list_elem_of_lookup & Hnf).
    destruct (timeout_progress s id t Hinv Ht) as (ev & s' & Hstep); [|eauto].
    intros Hfin. apply Hnf. unfold is_finished. by rewrite Hfin.
Qed.

Lemma timeout_length_bounded tr s :
  timeout_run tr s → length tr ≤ 71 * NUM_PHILOSOPHERS.
Proof. intros Hrun. pose proof (timeout_run_bounded _ _ Hrun). lia. Qed.

(** *** Counting events *)

Lemma timeout_occurrences_attempts id outs :
  occurrences is_attempt (concat (map (attempt_events id) outs)) = length outs.
Proof.
  induction outs as [|o outs IH]; simpl; [done|].
  rewrite occurrences_app, IH. by destruct o.
Qed.

Lemma timeout_occurrences_successes id outs :
  occurrences is_success (concat (map (attempt_events id) outs)) = occurrences is_ate outs.
Proof.
  induction outs as [|o outs IH]; simpl; [done|].
  rewrite occurrences_app, IH. by destruct o.
Qed.

Lemma timeout_occurrences_eats id outs :
  occurrences is_eat (concat (map (attempt_events id) outs)) = occurrences is_ate outs.
Proof.
  induction outs as [|o outs IH]; simpl; [done|].
  rewrite occurrences_app, IH. by destruct o.
Qed.

Lemma timeout_history_counts id t outs l :
  history id t outs l →
  occurrences is_attempt l = attempts t ∧
  occurrences is_success l = meals_eaten t ∧
  occurrences is_eat l ≤ occurrences is_success l ∧
  (at_pc t = Eating → occurrences is_success l = occurrences is_eat l + 1).
Proof.
  intros (-> & -> & ->).
  rewrite !occurrences_app, timeout_occurrences_attempts, timeout_occurrences_successes, timeout_occurrences_eats.
  destruct (at_pc t); cbn; repeat split; try done; lia.
Qed.

(** A thread that owns its second chopstick owns its first one too. *)
Lemma timeout_second_then_first s id :
  invariant s → id < NUM_PHILOSOPHERS →
  chopsticks s !! second_chopstick id = Some (Some id) →
  chopsticks s !! first_chopstick id = Some (Some id).
Proof.
  intros [_ _ Hag _] Hid Hsecond.
  pose proof (timeout_first_second_distinct id Hid) as Hdist.
  apply Hag in Hsecond as (t & Ht & Howns). apply Hag. exists t. split; [done|].
  unfold owns in *. apply Nat.eqb_neq in Hdist.
  rewrite Nat.eqb_sym, Hdist, Nat.eqb_refl in Howns. rewrite Nat.eqb_refl.
  simpl in *. by destruct (at_pc t).
Qed.

(** *** The claims *)

Lemma timeout_step_effect s c ev s' :
  step s c = Some (ev, s') →
  match ev with
  | ETryLock k true =>
      chopsticks s !! k = Some None ∧ chopsticks s' = <[k := Some (fst c)]> (chopsticks s)
  | EUnlock k =>
      chopsticks s !! k = Some (Some (fst c)) ∧ chopsticks s' = <[k := None]> (chopsticks s)
  | _ => chopsticks s' = chopsticks s
  end.
Proof.
  destruct c as [id ok]. unfold step. simpl. intros Hstep.
  destruct (philosophers s !! id) as [[p m a]|] eqn:Hid; [|done]. simpl in Hstep.
  destruct p.
  - destruct ((m <? 3) && (a <? 10)); by simplify_eq.
  - destruct ok; [|by simplify_eq].
    destruct (mutex_lock _ _ _) as [cs|] eqn:Hl; simpl in Hstep; simplify_eq.
    by apply mutex_lock_Some in Hl as [? ->].
  - destruct ok; [|by simplify_eq].
    destruct (mutex_lock _ _ _) as [cs|] eqn:Hl; simpl in Hstep; simplify_eq.
    by apply mutex_lock_Some in Hl as [? ->].
  - by simplify_eq.
  - by simplify_eq.
  - destruct (mutex_unlock _ _ _) as [cs|] eqn:Hl; simpl in Hstep; simplify_eq.
    by apply mutex_unlock_Some in Hl as [? ->].
  - destruct (mutex_unlock _ _ _) as [cs|] eqn:Hl; simpl in Hstep; simplify_eq.
    by apply mutex_unlock_Some in Hl as [? ->].
  - by simplify_eq.
  - destruct (mutex_unlock _ _ _) as [cs|] eqn:Hl; simpl in Hstep; simplify_eq.
    by apply mutex_unlock_Some in Hl as [? ->].
  - by simplify_eq.
  - done.
Qed.

(** C4.  For every thread [id < NUM_PHILOSOPHERS]: the chopstick tried first
    is the smaller and the one tried second the larger of [id] and
    [(id + 1) mod NUM_PHILOSOPHERS]; in every state of every interleaving
    the thread tries its second chopstick only while it owns the first, it
    never owns the second without the first, and its events are passes
    through the loop body in which a meal is preceded by the successful
    [try_lock_for] of the first and then of the second chopstick.  A
    successful [try_lock_for] is an acquisition: it happens only on a free
    mutex and makes the thread its owner, [unlock] frees a mutex the thread
    owns, and no other statement changes a mutex; so the thread owns its
    first chopstick exactly from the first successful [try_lock_for] until
    it unlocks it, and its second chopstick exactly from the second
    successful [try_lock_for] until it unlocks it: while it eats it owns
    both. *)
Theorem timeout_ascending_order tr s id :
  timeout_run tr s → id < NUM_PHILOSOPHERS →
  acquisition_order id
  = (id `min` ((id + 1) mod NUM_PHILOSOPHERS), id `max` ((id + 1) mod NUM_PHILOSOPHERS)) ∧
  first_chopstick id < second_chopstick id ∧
  (∀ c ev s' ok, fst c = id → step s c = Some (ev, s') →
     ev = ETryLock (second_chopstick id) ok →
     chopsticks s !! first_chopstick id = Some (Some id)) ∧
  (chopsticks s !! second_chopstick id = Some (Some id) →
   chopsticks s !! first_chopstick id = Some (Some id)) ∧
  attempt_events id Ate
  = [EAttempt; ETryLock (first_chopstick id) true; ETryLock (second_chopstick id) true;
     ESuccess; EEat; EUnlock (second_chopstick id); EUnlock (first_chopstick id)] ∧
  (∃ t outs, philosophers s !! id = Some t ∧
     proj id tr = concat (map (attempt_events id) outs) ++ current_events id (at_pc t) ∧
     (chopsticks s !! first_chopstick id = Some (Some id)
      ↔ at_pc t = TrySecond ∨ at_pc t = Success ∨ at_pc t = Eating ∨
        at_pc t = UnlockSecond ∨ at_pc t = UnlockFirst ∨
        at_pc t = SecondTimedOut ∨ at_pc t = GiveBackFirst) ∧
     (chopsticks s !! second_chopstick id = Some (Some id)
      ↔ at_pc t = Success ∨ at_pc t = Eating ∨ at_pc t = UnlockSecond)) ∧
  (∀ c ev s', fst c = id → step s c = Some (ev, s') →
     match ev with
     | ETryLock k true =>
         chopsticks s !! k = Some None ∧
         chopsticks s' = <[k := Some id]> (chopsticks s)
     | EUnlock k =>
         chopsticks s !! k = Some (Some id) ∧
         chopsticks s' = <[k := None]> (chopsticks s)
     | _ => chopsticks s' = chopsticks s
     end).
Proof.
  intros Hrun Hid. pose proof (timeout_invariant_run _ _ Hrun) as Hinv.
  destruct (timeout_acquisition_order_spec id Hid) as (Horder & Hlt & _).
  split; [done|]. split; [done|]. split; [|split; [|split; [done|split]]].
  - intros [j b] ev s' ok Hj Hstep ->. simpl in Hj. subst j.
    pose proof (timeout_first_second_distinct id Hid) as Hdist.
    destruct Hinv as [_ _ Hag _]. unfold step in Hstep. simpl in Hstep.
    destruct (philosophers s !! id) as [[p m a]|] eqn:Ht; [|done]. simpl in Hstep.
    assert (holds_first p = true) as Hp.
    { destruct p; repeat case_match; simplify_option_eq; try done. }
    apply Hag. exists (Thread p m a). split; [done|]. unfold owns. simpl.
    by rewrite Nat.eqb_refl, Hp.
  - by apply timeout_second_then_first.
  - destruct Hinv as [Hlen _ Hag _].
    destruct (philosophers s !! id) as [t|] eqn:Ht;
      [|apply lookup_ge_None in Ht; lia].
    destruct (timeout_threads_run _ _ Hrun _ _ Ht) as [_ [outs (Htr & _)]].
    exists t, outs. split; [done|]. split; [done|].
    assert (∀ k, chopsticks s !! k = Some (Some id) ↔ owns id (at_pc t) k = true)
      as Hown.
    { intros k. rewrite (Hag k id). split.
      - intros (t' & Ht' & Ho). by simplify_eq.
      - intros Ho. exists t. eauto. }
    assert ((first_chopstick id =? second_chopstick id) = false) as Hfs
      by (apply Nat.eqb_neq; lia).
    assert ((second_chopstick id =? first_chopstick id) = false) as Hsf
      by (apply Nat.eqb_neq; lia).
    rewrite !Hown. unfold owns. rewrite !Nat.eqb_refl, Hfs, Hsf.
    split; destruct (at_pc t); simpl; intuition discriminate.
  - intros c ev s' <- Hstep. by apply timeout_step_effect.
Qed.

Lemma timeout_ascending_order_witness :
  acquisition_order 4 = (0, 4) ∧
  chopsticks (snd (after swapped)) !! 0 = Some (Some 4) ∧
  chopsticks (snd (after swapped)) !! 4 = Some (Some 4) ∧
  proj 4 (fst (after swapped)) = [EAttempt; ETryLock 0 true; ETryLock 4 true].
Proof.
  destruct (timeout_ascending_order (fst (after swapped)) (snd (after swapped)) 4)
    as (Horder & _ & _ & Hown & _ & (t & outs & Ht & _ & _ & Hsecond) & _).
  - apply (exec_run _ _ _ swapped). vm_compute. reflexivity.
  - unfold NUM_PHILOSOPHERS. lia.
  - assert (chopsticks (snd (after swapped)) !! second_chopstick 4 = Some (Some 4))
      as Hmine.
    { apply Hsecond. vm_compute in Ht. injection Ht as <-. by left. }
    split; [exact Horder|]. split; [exact (Hown Hmine)|].
    split; [exact Hmine|vm_compute; reflexivity].
Defined.

(** C5.  In every state of every interleaving a thread has made at most 10
    attempts, as many as it has [EAttempt] events; each of its steps
    either is the loop test succeeding (at the loop head, with
    [meals_eaten < 3] and [attempts < 10]) and adds exactly one to
    [attempts], or is the loop test failing and ends the thread, or is a
    statement of the body and leaves [attempts] alone; a finished thread
    with fewer than 3 meals has exactly 10 attempts; a thread that has not
    finished can always run its next statement; no interleaving is longer
    than 355 events, and each can be continued until every thread has
    finished. *)
Theorem timeout_attempts_bounded tr s id t :
  timeout_run tr s → philosophers s !! id = Some t →
  attempts t ≤ 10 ∧
  occurrences is_attempt (proj id tr) = attempts t ∧
  (at_pc t = Finished → meals_eaten t < 3 → attempts t = 10) ∧
  (∀ ok ev s', step s (id, ok) = Some (ev, s') →
     ∃ t', philosophers s' !! id = Some t' ∧
       ((at_pc t = LoopHead ∧ meals_eaten t < 3 ∧ attempts t < 10 ∧
         ev = EAttempt ∧ attempts t' = attempts t + 1) ∨
        (at_pc t = LoopHead ∧ ¬ (meals_eaten t < 3 ∧ attempts t < 10) ∧
         ev = EFinish ∧ at_pc t' = Finished ∧ attempts t' = attempts t) ∨
        (at_pc t ≠ LoopHead ∧ ev ≠ EAttempt ∧ ev ≠ EFinish ∧
         attempts t' = attempts t))) ∧
  (at_pc t ≠ Finished → ∃ ev s', step s (id, false) = Some (ev, s')) ∧
  length tr ≤ 355 ∧
  (∃ tr' s', timeout_run (tr ++ tr') s' ∧ all_finished s').
Proof.
  intros Hrun Ht. pose proof (timeout_invariant_run _ _ Hrun) as Hinv.
  destruct (timeout_threads_run _ _ Hrun _ _ Ht) as [[Ha Hok] [outs Hh]].
  destruct (timeout_history_counts _ _ _ _ Hh) as (Hatt & _).
  split; [done|]. split; [done|]. split; [|split; [|split; [|split]]].
  - intros Hfin Hm. rewrite Hfin in Hok. lia.
  - intros ok ev s' Hstep.
    apply timeout_step_local in Hstep as (t0 & t1 & Ht0 & Hnext & ->). simplify_eq.
    exists t1. split; [apply list_lookup_insert_eq; by eapply lookup_lt_Some|].
    clear Hh Hatt. destruct t as [p m a]. unfold local_next in Hnext. simpl in *.
    destruct p.
    + destruct (Nat.ltb_spec m 3), (Nat.ltb_spec a 10); simpl in Hnext; simplify_eq;
        [left; done|right; left; simpl; repeat split; try done; lia..].
    + right; right. destruct ok; by simplify_eq.
    + right; right. destruct ok; by simplify_eq.
    + right; right. by simplify_eq.
    + right; right. by simplify_eq.
    + right; right. by simplify_eq.
    + right; right. by simplify_eq.
    + right; right. by simplify_eq.
    + right; right. by simplify_eq.
    + right; right. by simplify_eq.
    + done.
  - intros Hnf. by eapply timeout_progress.
  - pose proof (timeout_run_bounded _ _ Hrun). unfold NUM_PHILOSOPHERS in *. lia.
  - eapply (run_completes step (λ c : nat * bool, fst c) init all_finished
              (71 * NUM_PHILOSOPHERS));
      [intros ???; by eapply timeout_length_bounded| |exact Hrun].
    intros tr0 s0 Hrun0. apply timeout_live. by eapply timeout_invariant_run.
Qed.

Lemma timeout_attempts_bounded_witness :
  philosophers (snd (after starved)) !! 4 = Some (Thread Finished 0 10) ∧
  occurrences is_attempt (proj 4 (fst (after starved))) = 10 ∧
  length (fst (after starved)) = 31.
Proof.
  destruct (timeout_attempts_bounded (fst (after starved)) (snd (after starved))
              4 (Thread Finished 0 10)) as (_ & Hcount & _).
  - apply (exec_run _ _ _ starved). vm_compute. reflexivity.
  - vm_compute. reflexivity.
  - split; [vm_compute; reflexivity|]. split; [exact Hcount|vm_compute; reflexivity].
Defined.




(** C10.  In every state of every interleaving, for every thread:
    [meals_eaten ≤ attempts], [meals_eaten ≤ min 3 10]; [attempts] counts
    the passes through the loop body begun so far and [meals_eaten] those
    that ended in a meal, each pass, whatever its outcome, beginning with
    the one increment of [attempts]; and the total of successful meals is
    at most 15. *)
Theorem timeout_meals_le_attempts tr s id t :
  timeout_run tr s → philosophers s !! id = Some t →
  meals_eaten t ≤ attempts t ∧
  meals_eaten t ≤ 3 `min` 10 ∧
  occurrences is_attempt (proj id tr) = attempts t ∧
  occurrences is_success (proj id tr) = meals_eaten t ∧
  (∃ outs, proj id tr = concat (map (attempt_events id) outs)
                        ++ current_events id (at_pc t) ∧
           attempts t = length outs + in_progress (at_pc t) ∧
           meals_eaten t = occurrences is_ate outs + eaten_now (at_pc t)) ∧
  (∀ o, head (attempt_events id o) = Some EAttempt ∧
        occurrences is_attempt (attempt_events id o) = 1) ∧
  successful_meals s ≤ 3 * NUM_PHILOSOPHERS.
Proof.
  intros Hrun Ht. pose proof (timeout_invariant_run _ _ Hrun) as Hinv.
  destruct (timeout_threads_run _ _ Hrun _ _ Ht) as [[Ha Hok] [outs Hh]].
  destruct (timeout_history_counts _ _ _ _ Hh) as (Hatt & Hsucc & _).
  assert (meals_eaten t ≤ 3 ∧ meals_eaten t ≤ attempts t) as [Hm3 Hma].
  { destruct (at_pc t); lia. }
  split; [done|]. split; [lia|]. split; [done|]. split; [done|].
  split; [by exists outs|]. split; [by intros []|].
  destruct Hinv as [Hlen _ _ ->]. rewrite <- Hlen.
  assert (∀ i x, philosophers s !! i = Some x → meals_eaten x ≤ 3) as Hall.
  { intros i x Hx. destruct (timeout_threads_run _ _ Hrun _ _ Hx) as [[_ Hx3] _].
    destruct (at_pc x); lia. }
  revert Hall. generalize (philosophers s). intros l.
  induction l as [|x l IH]; intros Hall; simpl; [lia|].
  pose proof (Hall 0 x eq_refl).
  assert (sum_list_with meals_eaten l ≤ 3 * length l); [|lia].
  apply IH. intros i y Hy. apply (Hall (S i) y Hy).
Qed.

Lemma timeout_meals_le_attempts_witness :
  philosophers (snd (after one_meal)) !! 0 = Some (Thread LoopHead 1 1) ∧
  occurrences is_attempt (proj 0 (fst (after one_meal))) = 1 ∧
  occurrences is_success (proj 0 (fst (after one_meal))) = 1.
Proof.
  destruct (timeout_meals_le_attempts (fst (after one_meal)) (snd (after one_meal))
              0 (Thread LoopHead 1 1)) as (_ & _ & Hatt & Hsucc & _).
  - apply (exec_run _ _ _ one_meal). vm_compute. reflexivity.
  - vm_compute. reflexivity.
  - split; [vm_compute; reflexivity|]. split; [exact Hatt|exact Hsucc].
Defined.

End TimeoutProofs.

(** * Further properties *)

(** ** Solution 1: the counting semaphore *)

Module SemaphoreMore.
Import DiningPhilosophersSemaphore SemaphoreProofs.

(** A thread that holds its right chopstick holds both. *)
Lemma sem_holds_both s id p meal :
  invariant s → philosophers s !! id = Some (p, meal) → holds_right p = true →
  chopsticks s !! left_chopstick id = Some (Some id) ∧
  chopsticks s !! right_chopstick id = Some (Some id).
Proof.
  intros [_ _ _ Hag] Hid Hp.
  split; apply Hag; exists (p, meal); (split; [done|]); unfold owns; simpl;
    rewrite Nat.eqb_refl, ?Hp, ?orb_true_r; [|done]. by destruct p.
Qed.

(** X1.  In every state of every interleaving, two threads that both hold
    their two chopsticks (they are eating, or have just eaten and not yet
    put the right chopstick down) are not neighbours, and no three threads
    hold both chopsticks at once. *)
Theorem sem_neighbours_never_eat_together tr s i j k pi mi pj mj pk mk :
  sem_run tr s →
  philosophers s !! i = Some (pi, mi) → holds_right pi = true →
  philosophers s !! j = Some (pj, mj) → holds_right pj = true →
  philosophers s !! k = Some (pk, mk) → holds_right pk = true →
  j ≠ (i + 1) mod NUM_PHILOSOPHERS ∧ ¬ (i ≠ j ∧ j ≠ k ∧ i ≠ k).
Proof.
  intros Hrun Hi Hpi Hj Hpj Hk Hpk.
  pose proof (sem_invariant_run _ _ Hrun) as Hinv.
  assert (∀ a b pa ma pb mb,
            philosophers s !! a = Some (pa, ma) → holds_right pa = true →
            philosophers s !! b = Some (pb, mb) → holds_right pb = true →
            b ≠ (a + 1) mod NUM_PHILOSOPHERS) as Hadj.
  { intros a b pa ma pb mb Ha Hpa Hb Hpb Heq.
    destruct (sem_holds_both _ _ _ _ Hinv Ha Hpa) as [_ Hra].
    destruct (sem_holds_both _ _ _ _ Hinv Hb Hpb) as [Hlb _].
    unfold right_chopstick, left_chopstick in *. rewrite <- Heq in Hra.
    assert (a = b) as -> by congruence.
    assert (b < NUM_PHILOSOPHERS).
    { destruct Hinv as [Hlen _ _ _]. rewrite <- Hlen. by eapply lookup_lt_Some. }
    by apply (sem_left_right_distinct b). }
  split; [by eapply Hadj|]. intros (Hij & Hjk & Hik).
  destruct Hinv as [Hlen _ _ _].
  assert (i < 5 ∧ j < 5 ∧ k < 5) as (? & ? & ?).
  { change 5 with NUM_PHILOSOPHERS. rewrite <- Hlen.
    repeat split; by eapply lookup_lt_Some. }
  destruct (ring_three_adjacent i j k) as [Hn|[Hn|[Hn|[Hn|[Hn|Hn]]]]]; try done;
    revert Hn; eapply Hadj; eauto.
Qed.

(** X2.  Only [acquire] and the two [lock] calls can make a thread wait:
    every other statement can run in every state of every interleaving.  In
    particular each [unlock] is called by the owner of the mutex, and each
    [release] finds the semaphore below its maximum [NUM_PHILOSOPHERS - 1]. *)
Theorem sem_only_acquisition_blocks tr s id p meal :
  sem_run tr s → philosophers s !! id = Some (p, meal) →
  dining_semaphore s ≤ NUM_PHILOSOPHERS - 1 ∧
  (p = SemRelease → dining_semaphore s < NUM_PHILOSOPHERS - 1) ∧
  (p = UnlockRight → chopsticks s !! right_chopstick id = Some (Some id)) ∧
  (p = UnlockLeft → chopsticks s !! left_chopstick id = Some (Some id)) ∧
  (p ≠ SemAcquire → p ≠ LockLeft → p ≠ LockRight → p ≠ Finished →
   ∃ ev s', step s id = Some (ev, s')).
Proof.
  intros Hrun Hid. pose proof (sem_invariant_run _ _ Hrun) as Hinv.
  pose proof Hinv as [_ _ Hperm Hag].
  assert (∀ k, owns id p k = true → chopsticks s !! k = Some (Some id)) as Hmine.
  { intros k Hk. apply Hag. exists (p, meal). eauto. }
  split; [lia|]. split; [|split; [|split]].
  - intros ->.
    pose proof (sum_list_with_lookup_le
                  (λ t : pc * nat, if admitted (fst t) then 1 else 0) _ _ _ Hid) as Hle.
    unfold attempting in Hperm. simpl in Hle. lia.
  - intros ->. apply Hmine. unfold owns. simpl. by rewrite Nat.eqb_refl, orb_true_r.
  - intros ->. apply Hmine. unfold owns. simpl. by rewrite Nat.eqb_refl.
  - intros H1 H2 H3 H4. unfold step. rewrite Hid.
    destruct p; try done; eauto.
    + destruct (meal <? 3); eauto.
    + unfold mutex_unlock. rewrite Hmine, Nat.eqb_refl; [simpl; eauto|].
      unfold owns. simpl. by rewrite Nat.eqb_refl, orb_true_r.
    + unfold mutex_unlock. rewrite Hmine, Nat.eqb_refl; [simpl; eauto|].
      unfold owns. simpl. by rewrite Nat.eqb_refl.
Qed.

(** X3.  When all five threads have finished, every chopstick is free and
    the semaphore holds all its [NUM_PHILOSOPHERS - 1] permits again. *)
Theorem sem_all_released_at_end tr s :
  sem_run tr s → all_finished s →
  chopsticks s = replicate NUM_PHILOSOPHERS None ∧
  dining_semaphore s = NUM_PHILOSOPHERS - 1.
Proof.
  intros Hrun Hfin. pose proof (sem_invariant_run _ _ Hrun) as [Hlen Hmlen Hperm Hag].
  split.
  - apply list_eq. intros k. destruct (decide (k < NUM_PHILOSOPHERS)) as [Hk|Hk].
    + rewrite lookup_replicate_2 by done.
      destruct (chopsticks s !! k) as [[o|]|] eqn:Hl; [|done|].
      * apply Hag in Hl as ([p m] & Ho & Howns). specialize (Hfin _ _ Ho).
        simpl in *. subst p. unfold owns in Howns. simpl in Howns.
        by rewrite !andb_false_r in Howns.
      * apply lookup_ge_None in Hl. lia.
    + rewrite !(proj2 (lookup_ge_None _ _)); [done|rewrite length_replicate; lia|lia].
  - assert (attempting s = 0 * length (philosophers s)) as Hnone; [|lia].
    apply sum_list_with_const. intros i [p m] Hi. specialize (Hfin _ _ Hi).
    simpl in *. by subst p.
Qed.

Lemma sem_neighbours_never_eat_together_witness :
  philosophers (snd (after two_eating)) !! 0 = Some (Eating, 0) ∧
  philosophers (snd (after two_eating)) !! 2 = Some (Eating, 0) ∧
  2 ≠ (0 + 1) mod NUM_PHILOSOPHERS.
Proof.
  destruct (sem_neighbours_never_eat_together
              (fst (after two_eating)) (snd (after two_eating))
              0 2 2 Eating 0 Eating 0 Eating 0) as [Hadj _].
  - apply (exec_run _ _ _ two_eating). vm_compute. reflexivity.
  - vm_compute. reflexivity.
  - reflexivity.
  - vm_compute. reflexivity.
  - reflexivity.
  - vm_compute. reflexivity.
  - reflexivity.
  - split; [vm_compute; reflexivity|]. split; [vm_compute; reflexivity|exact Hadj].
Defined.

Lemma sem_only_acquisition_blocks_witness :
  dining_semaphore (snd (after two_eating)) ≤ NUM_PHILOSOPHERS - 1 ∧
  ∃ ev s', step (snd (after two_eating)) 2 = Some (ev, s').
Proof.
  destruct (sem_only_acquisition_blocks
              (fst (after two_eating)) (snd (after two_eating)) 2 Eating 0)
    as (Hle & _ & _ & _ & Hruns).
  - apply (exec_run _ _ _ two_eating). vm_compute. reflexivity.
  - vm_compute. reflexivity.
  - split; [exact Hle|]. by apply Hruns.
Defined.

Lemma sem_all_released_at_end_witness :
  chopsticks (snd (after sequential)) = [None; None; None; None; None] ∧
  dining_semaphore (snd (after sequential)) = 4.
Proof.
  apply (sem_all_released_at_end (fst (after sequential)) (snd (after sequential))).
  - apply (exec_run _ _ _ sequential). vm_compute. reflexivity.
  - exact sem_sequential_finished.
Defined.

End SemaphoreMore.

(** ** Solution 2: the waiter *)

Module WaiterMore.
Import DiningPhilosophersWaiter WaiterProofs.

Lemma waiter_step_local s id ev s' :
  step s id = Some (ev, s') →
  ∃ t t' granted, philosophers s !! id = Some t ∧
                  local_next id granted t = Some (ev, t') ∧
                  philosophers s' = <[id := t']> (philosophers s).
Proof.
  unfold step. intros Hstep.
  destruct (philosophers s !! id) as [[p meal]|] eqn:Hid; [|done].
  exists (p, meal). unfold local_next, lock_waiter, unlock_waiter in *. simpl.
  destruct p; simpl in Hstep; repeat case_match; simplify_option_eq;
    try (by eexists _, true); by eexists _, false.
Qed.

(** What each statement does to the mutex and to the array. *)
Lemma waiter_step_effect s id ev s' :
  step s id = Some (ev, s') →
  match ev with
  | ELockWaiter | EWoken =>
      waiter_mutex s = None ∧ waiter_mutex s' = Some id ∧
      chopstick_available s' = chopstick_available s
  | EUnlockWaiter =>
      waiter_mutex s = Some id ∧ waiter_mutex s' = None ∧
      chopstick_available s' = chopstick_available s
  | EBlocked =>
      can_eat (chopstick_available s) id = Some false ∧
      waiter_mutex s = Some id ∧ waiter_mutex s' = None ∧
      chopstick_available s' = chopstick_available s
  | EGranted =>
      can_eat (chopstick_available s) id = Some true ∧
      waiter_mutex s' = waiter_mutex s ∧
      chopstick_available s' = chopstick_available s
  | ESet k b =>
      chopstick_available s' = <[k := b]> (chopstick_available s) ∧
      waiter_mutex s' = waiter_mutex s
  | _ => waiter_mutex s' = waiter_mutex s ∧
         chopstick_available s' = chopstick_available s
  end.
Proof.
  unfold step. intros Hstep.
  destruct (philosophers s !! id) as [[p meal]|] eqn:Hid; [|done].
  destruct p; simpl in Hstep.
  - destruct (meal <? 3); by simplify_eq.
  - destruct (lock_waiter s id) as [s1|] eqn:Hl; simpl in Hstep; simplify_eq.
    by apply waiter_lock_waiter_Some in Hl as [? ->].
  - destruct (can_eat (chopstick_available s) id) as [[]|] eqn:Hcan; [| |done].
    + by simplify_eq.
    + destruct (unlock_waiter s id) as [s1|] eqn:Hl; simpl in Hstep; simplify_eq.
      by apply waiter_unlock_waiter_Some in Hl as [? ->].
  - destruct (lock_waiter s id) as [s1|] eqn:Hl; simpl in Hstep; simplify_eq.
    by apply waiter_lock_waiter_Some in Hl as [? ->].
  - by simplify_eq.
  - by simplify_eq.
  - destruct (unlock_waiter s id) as [s1|] eqn:Hl; simpl in Hstep; simplify_eq.
    by apply waiter_unlock_waiter_Some in Hl as [? ->].
  - by simplify_eq.
  - destruct (lock_waiter s id) as [s1|] eqn:Hl; simpl in Hstep; simplify_eq.
    by apply waiter_lock_waiter_Some in Hl as [? ->].
  - by simplify_eq.
  - by simplify_eq.
  - by simplify_eq.
  - destruct (unlock_waiter s id) as [s1|] eqn:Hl; simpl in Hstep; simplify_eq.
    by apply waiter_unlock_waiter_Some in Hl as [? ->].
  - done.
Qed.

Lemma waiter_local_next_ok id granted t ev t' :
  local_next id granted t = Some (ev, t') → meal_ok t →
  meal_ok t' ∧
  meals_done t' = meals_done t + (if is_eat ev then 1 else 0) ∧
  (ev ≠ EWoken → weight t' < weight t).
Proof.
  destruct t as [p meal]. unfold local_next, meal_ok, meals_done, weight.
  intros Hnext Hok.
  destruct p; simpl in *; [destruct (Nat.ltb_spec meal 3)|..]; repeat case_match;
    simplify_eq; simpl; repeat split; try done; lia.
Qed.

Lemma waiter_threads_run tr s :
  waiter_run tr s →
  ∀ id t, philosophers s !! id = Some t →
          meal_ok t ∧ occurrences is_eat (proj id tr) = meals_done t.
Proof.
  intros Hrun. induction Hrun as [|tr s j ev s' Hrun IH Hstep].
  - intros id t [-> _]%lookup_replicate. split; [|done]. unfold meal_ok. simpl. lia.
  - apply waiter_step_local in Hstep as (t0 & t1 & g & Hj & Hnext & ->).
    intros id t Hid. destruct (decide (id = j)) as [->|Hne].
    + rewrite list_lookup_insert_eq in Hid by (by eapply lookup_lt_Some).
      simplify_eq. destruct (IH _ _ Hj) as [Hok Hcount].
      destruct (waiter_local_next_ok _ _ _ _ _ Hnext Hok) as (Hok' & Hmeals & _).
      split; [done|]. rewrite proj_snoc_eq, occurrences_app, Hcount, Hmeals.
      unfold occurrences. simpl. by destruct (is_eat ev).
    + rewrite list_lookup_insert_ne in Hid by done.
      rewrite proj_snoc_ne by done. eauto.
Qed.

Lemma waiter_meals_accounting tr s :
  waiter_run tr s →
  occurrences (λ x, is_eat (snd x)) tr = sum_list_with meals_done (philosophers s).
Proof.
  intros Hrun. induction Hrun as [|tr s j ev s' Hrun IH Hstep]; [done|].
  pose proof (waiter_threads_run _ _ Hrun) as Hthreads.
  apply waiter_step_local in Hstep as (t0 & t1 & g & Hj & Hnext & ->).
  destruct (Hthreads _ _ Hj) as [Hok _].
  destruct (waiter_local_next_ok _ _ _ _ _ Hnext Hok) as (_ & Hmeals & _).
  pose proof (sum_list_with_insert meals_done _ _ _ t1 Hj) as Hsum.
  rewrite occurrences_app, IH. unfold occurrences. simpl.
  destruct (is_eat ev); simpl; lia.
Qed.

Lemma waiter_can_eat_defined s id :
  invariant s → id < NUM_PHILOSOPHERS →
  ∃ b, can_eat (chopstick_available s) id = Some b.
Proof.
  intros [_ Hllen _ _ _] Hid. pose proof (waiter_right_of_lt id) as Hr.
  unfold can_eat, left_of.
  destruct (chopstick_available s !! id) as [a|] eqn:Ha;
    [|apply lookup_ge_None in Ha; lia].
  destruct (chopstick_available s !! right_of id) as [b|] eqn:Hb;
    [|apply lookup_ge_None in Hb; lia].
  simpl. eauto.
Qed.

(** The owner of [waiter_mutex] can always run, and so can a thread outside
    the critical sections that is not asleep when the mutex is free. *)
Lemma waiter_enabled s id p meal :
  invariant s → philosophers s !! id = Some (p, meal) →
  critical p = true ∨ (movable (p, meal) = true ∧ waiter_mutex s = None) →
  ∃ ev s', step s id = Some (ev, s') ∧ ev ≠ EWoken.
Proof.
  intros Hinv Hid Hcase.
  assert (id < NUM_PHILOSOPHERS) as Hlt.
  { destruct Hinv as [Hlen _ _ _ _]. rewrite <- Hlen. by eapply lookup_lt_Some. }
  unfold step, lock_waiter, unlock_waiter. rewrite Hid.
  destruct Hcase as [Hcrit|[Hmov Hfree]].
  - rewrite (waiter_critical_owner _ _ _ _ Hinv Hid Hcrit), Nat.eqb_refl.
    destruct p; try done; simpl; eauto.
    destruct (waiter_can_eat_defined s id Hinv Hlt) as [[] ->]; eauto.
  - rewrite Hfree. destruct p; try done; simpl; eauto.
    destruct (meal <? 3); eauto.
Qed.

Lemma waiter_notifier_runs p meal :
  will_notify p = true → critical p = true ∨ movable (p, meal) = true.
Proof. unfold movable. destruct p; simpl; try done; eauto. Qed.

Lemma waiter_marker_notifies i p k : marks i p k = true → will_notify p = true.
Proof.
  unfold marks. destruct p; simpl; rewrite ?andb_false_r; try done.
Qed.

(** ** The condition variable *)

Lemma waiter_step_cv_Some c id ev c' :
  step_cv c id = Some (ev, c') →
  step (shared c) id = Some (ev, shared c') ∧ blocked c id = false ∧
  waiter_cv c' = match ev with
                 | EBlocked => <[id := true]> (waiter_cv c)
                 | ENotifyAll => replicate (length (waiter_cv c)) false
                 | _ => waiter_cv c
                 end.
Proof.
  unfold step_cv. destruct (blocked c id); [done|].
  destruct (step (shared c) id) as [[ev0 s0]|]; [|done].
  destruct ev0; intros; simplify_eq; done.
Qed.

Lemma waiter_step_cv_lift c id ev s' :
  step (shared c) id = Some (ev, s') → blocked c id = false →
  ∃ c', step_cv c id = Some (ev, c').
Proof. unfold step_cv. intros -> ->. destruct ev; eauto. Qed.

(** Every interleaving with the condition variable is an interleaving of
    [step]: what holds of all runs of [step] holds with the condition
    variable too. *)
Lemma waiter_cv_refines tr c : cv_run tr c → waiter_run tr (shared c).
Proof.
  induction 1 as [|tr c id ev c' _ IH Hstep]; [constructor|].
  apply waiter_step_cv_Some in Hstep as (Hstep & _).
  by apply (run_step step (λ i : nat, i) init tr (shared c) id ev (shared c')).
Qed.

Lemma waiter_local_next_cv id granted t ev t' :
  local_next id granted t = Some (ev, t') → meal_ok t →
  match ev with
  | EBlocked => fst t = RequestCheck ∧ fst t' = RequestWait ∧
                cv_weight t' = cv_weight t + 1
  | ENotifyAll => cv_weight t' + 11 = cv_weight t
  | _ => cv_weight t' < cv_weight t ∧
         (will_notify (fst t) = true → will_notify (fst t') = true)
  end.
Proof.
  destruct t as [p meal]. unfold local_next, meal_ok, cv_weight.
  intros Hnext Hok.
  destruct p; simpl in *; [destruct (Nat.ltb_spec meal 3)|..]; repeat case_match;
    simplify_eq; simpl; repeat split; try done; lia.
Qed.

Lemma waiter_cv_awake c id :
  cv_invariant c → id < NUM_PHILOSOPHERS → blocked c id = false →
  waiter_cv c !! id = Some false.
Proof.
  intros [Hlen _ _] Hid. unfold blocked.
  destruct (waiter_cv c !! id) as [[]|] eqn:Hl; simpl; try done.
  apply lookup_ge_None in Hl. lia.
Qed.

Lemma waiter_cv_invariant_init : cv_invariant init_cv.
Proof.
  split.
  - done.
  - by intros id [? _]%lookup_replicate.
  - by intros id [? _]%lookup_replicate.
Qed.

Lemma waiter_cv_invariant_step tr c id ev c' :
  cv_run tr c → cv_invariant c → step_cv c id = Some (ev, c') → cv_invariant c'.
Proof.
  intros Hrun Hcv Hstepcv.
  pose proof (waiter_cv_refines _ _ Hrun) as Hwrun.
  pose proof (waiter_invariant_run _ _ Hwrun) as Hinv.
  pose proof Hinv as [Hlen Hllen _ [Hshown _] _].
  pose proof Hcv as [Hclen Hblocked Hnotifier].
  apply waiter_step_cv_Some in Hstepcv as (Hstep & Hnb & Hcv').
  pose proof (waiter_step_effect _ _ _ _ Hstep) as Heffect.
  apply waiter_step_local in Hstep as (t0 & t1 & g & Hj & Hnext & Hphil).
  assert (id < NUM_PHILOSOPHERS) as Hid
    by (rewrite <- Hlen; by eapply lookup_lt_Some).
  destruct (waiter_threads_run _ _ Hwrun _ _ Hj) as [Hok _].
  pose proof (waiter_local_next_cv _ _ _ _ _ Hnext Hok) as Hcase.
  pose proof (waiter_cv_awake _ _ Hcv Hid Hnb) as Hawake.
  assert (∀ i, waiter_cv c' !! i = Some true →
            (i = id ∧ ev = EBlocked) ∨ (i ≠ id ∧ waiter_cv c !! i = Some true ∧
                                        ev ≠ ENotifyAll)) as Hwho.
  { intros i Hi. rewrite Hcv' in Hi.
    assert (waiter_cv c !! i = Some true → i ≠ id) as Hne by (intros ? ->; congruence).
    destruct ev; try (right; by eauto).
    - destruct (decide (i = id)) as [->|Hni]; [by left|].
      rewrite list_lookup_insert_ne in Hi by done. right. by eauto.
    - by apply lookup_replicate in Hi as [? _]. }
  split.
  - rewrite Hcv'. destruct ev; rewrite ?length_insert, ?length_replicate; done.
  - intros i Hi. rewrite Hphil. destruct (Hwho i Hi) as [[-> ->]|(Hne & Hold & _)].
    + destruct Hcase as (_ & Hpc & _). exists (snd t1).
      rewrite list_lookup_insert_eq by (by eapply lookup_lt_Some).
      destruct t1 as [p1 m1]. simpl in *. by subst.
    + rewrite list_lookup_insert_ne by done. by apply Hblocked.
  - intros i Hi. rewrite Hphil. destruct (Hwho i Hi) as [[-> ->]|(Hne & Hold & HnN)].
    + destruct Hcase as (Hpc & _). destruct Heffect as (Hcan & _).
      assert (∃ k, chopstick_available (shared c) !! k = Some false) as [k Hk].
      { unfold can_eat in Hcan.
        destruct (chopstick_available (shared c) !! left_of id) as [[]|] eqn:Ha;
          simpl in Hcan; [|by eauto|done].
        destruct (chopstick_available (shared c) !! right_of id) as [[]|] eqn:Hb;
          simpl in Hcan; [done|by eauto|done]. }
      destruct (proj1 (Hshown k false Hk) eq_refl) as (j & [q m] & Hq & Hm).
      apply waiter_marker_notifies in Hm. simpl in Hm.
      exists j, q, m. split; [|done].
      rewrite list_lookup_insert_ne; [done|]. intros <-.
      rewrite Hj in Hq. simplify_eq. simpl in Hpc. by subst.
    + destruct (Hnotifier i Hold) as (j & p & m & Hq & Hwn).
      destruct (decide (j = id)) as [->|Hnj].
      * rewrite Hj in Hq. simplify_eq. exists id, (fst t1), (snd t1).
        rewrite list_lookup_insert_eq by (by eapply lookup_lt_Some).
        split; [by destruct t1|].
        destruct ev; simpl in Hcase; try done; try (by apply Hcase).
        destruct Hcase as (Hpc & _). simpl in Hpc. by subst.
      * exists j, p, m. by rewrite list_lookup_insert_ne.
Qed.

Lemma waiter_cv_invariant_run tr c : cv_run tr c → cv_invariant c.
Proof.
  induction 1 as [|tr c id ev c' Hrun IH Hstep];
    [apply waiter_cv_invariant_init|by eapply waiter_cv_invariant_step].
Qed.

(** Every step with the condition variable lowers the measure. *)
Lemma waiter_cv_potential_step tr c id ev c' :
  cv_run tr c → step_cv c id = Some (ev, c') → potential c' < potential c.
Proof.
  intros Hrun Hstepcv.
  pose proof (waiter_cv_refines _ _ Hrun) as Hwrun.
  pose proof (waiter_invariant_run _ _ Hwrun) as [Hlen _ _ _ _].
  pose proof (waiter_cv_invariant_run _ _ Hrun) as Hcv.
  pose proof Hcv as [Hclen _ _].
  apply waiter_step_cv_Some in Hstepcv as (Hstep & Hnb & Hcv').
  apply waiter_step_local in Hstep as (t0 & t1 & g & Hj & Hnext & Hphil).
  assert (id < NUM_PHILOSOPHERS) as Hid
    by (rewrite <- Hlen; by eapply lookup_lt_Some).
  destruct (waiter_threads_run _ _ Hwrun _ _ Hj) as [Hok _].
  pose proof (waiter_local_next_cv _ _ _ _ _ Hnext Hok) as Hcase.
  pose proof (waiter_cv_awake _ _ Hcv Hid Hnb) as Hawake.
  pose proof (sum_list_with_insert cv_weight _ _ _ t1 Hj) as Hsum.
  pose proof (sum_list_with_insert awake _ _ _ true Hawake) as Hsleep.
  assert (sum_list_with awake (replicate (length (waiter_cv c)) false)
          = NUM_PHILOSOPHERS) as Hall.
  { rewrite (sum_list_with_const awake _ 1), length_replicate; [lia|].
    by intros i x [-> _]%lookup_replicate. }
  unfold potential. rewrite Hphil, Hcv'. unfold NUM_PHILOSOPHERS in *.
  destruct ev; simpl in *; lia.
Qed.

Lemma waiter_cv_bounded tr c : cv_run tr c → length tr + potential c ≤ 465.
Proof.
  induction 1 as [|tr c id ev c' Hrun IH Hstep].
  - vm_compute. lia.
  - pose proof (waiter_cv_potential_step _ _ _ _ _ Hrun Hstep).
    rewrite length_app. simpl. lia.
Qed.

(** No lost wake-up: while some thread has not finished, some thread that
    is not blocked can run. *)
Lemma waiter_cv_progress tr c :
  cv_run tr c →
  all_finished (shared c) ∨ ∃ id ev c', step_cv c id = Some (ev, c').
Proof.
  intros Hrun. set (s := shared c).
  pose proof (waiter_cv_refines _ _ Hrun) as Hwrun.
  pose proof (waiter_invariant_run _ _ Hwrun) as Hinv. fold s in Hinv.
  pose proof (waiter_cv_invariant_run _ _ Hrun) as Hcv.
  pose proof Hcv as [Hclen Hblocked Hnotifier]. fold s in Hblocked, Hnotifier.
  assert (∀ id p meal, philosophers s !! id = Some (p, meal) →
            critical p = true ∨ (movable (p, meal) = true ∧ waiter_mutex s = None) →
            ∃ id ev c', step_cv c id = Some (ev, c')) as Hone.
  { intros id p meal Hid Hcase.
    destruct (waiter_enabled _ _ _ _ Hinv Hid Hcase) as (ev & s' & Hstep & _).
    assert (blocked c id = false) as Hnb.
    { unfold blocked. destruct (waiter_cv c !! id) as [[]|] eqn:Hl; try done.
      destruct (Hblocked _ Hl) as [m Hm]. rewrite Hid in Hm. simplify_eq.
      by destruct Hcase as [?|[? _]]. }
    destruct (waiter_step_cv_lift c id ev s' Hstep Hnb) as [c' Hc'].
    by eauto. }
  destruct (waiter_mutex s) as [o|] eqn:Hmx.
  { right. destruct Hinv as [_ _ Hag _ _].
    destruct (proj1 (Hag 0 o)) as ([p meal] & Ho & Hcrit); [by rewrite Hmx|].
    simpl in Hcrit. eapply Hone; eauto. }
  destruct (decide (Exists (λ t, movable t = true) (philosophers s))) as [Hmov|Hnomov].
  { right. apply Exists_exists in Hmov as ([p meal] & [id Hid]%list_elem_of_lookup & Hm).
    eapply Hone; eauto. }
  assert (∀ id p meal, philosophers s !! id = Some (p, meal) →
            critical p = false ∧ movable (p, meal) = false) as Hrest.
  { intros id p meal Hid. split.
    - destruct (critical p) eqn:Hc; [|done].
      pose proof (waiter_critical_owner _ _ _ _ Hinv Hid Hc). congruence.
    - destruct (movable (p, meal)) eqn:Hm; [|done]. exfalso. apply Hnomov.
      apply Exists_exists. exists (p, meal). split; [|done].
      apply list_elem_of_lookup. eauto. }
  destruct (decide (Exists (λ t, is_waiting t = true) (philosophers s))) as [Hw|Hnow].
  - right. apply Exists_exists in Hw as ([p meal] & [id Hid]%list_elem_of_lookup & Hw).
    unfold is_waiting in Hw. simpl in Hw. destruct p; try done. clear Hw.
    destruct (blocked c id) eqn:Hb.
    + exfalso. unfold blocked in Hb.
      destruct (waiter_cv c !! id) as [[]|] eqn:Hl; try done.
      destruct (Hnotifier _ Hl) as (j & q & m & Hq & Hwn).
      destruct (Hrest _ _ _ Hq) as [Hc Hv].
      destruct (waiter_notifier_runs q m Hwn); congruence.
    + assert (step s id
              = Some (EWoken, goto (with_mutex s (Some id)) id RequestCheck meal))
        as Hstep by (unfold step, lock_waiter; by rewrite Hid, Hmx).
      destruct (waiter_step_cv_lift c id _ _ Hstep Hb) as [c' Hc']. by eauto.
  - left. intros id [p meal] Hid. simpl.
    destruct (Hrest _ _ _ Hid) as [Hc Hv].
    destruct p; try done. exfalso. apply Hnow. apply Exists_exists.
    exists (RequestWait, meal). split; [|done]. apply list_elem_of_lookup. eauto.
Qed.



(** X5.  In a complete run of the waiter solution every thread has eaten
    exactly 3 times, and the run holds exactly 15 meals. *)
Theorem waiter_total_meals tr s :
  waiter_run tr s → all_finished s →
  (∀ id, id < NUM_PHILOSOPHERS → occurrences is_eat (proj id tr) = 3) ∧
  occurrences (λ x, is_eat (snd x)) tr = 3 * NUM_PHILOSOPHERS.
Proof.
  intros Hrun Hfin. pose proof (waiter_invariant_run _ _ Hrun) as [Hlen _ _ _ _].
  assert (∀ id t, philosophers s !! id = Some t → meals_done t = 3) as Hthree.
  { intros id [p meal] Ht. specialize (Hfin _ _ Ht). simpl in Hfin. subst p.
    destruct (waiter_threads_run _ _ Hrun _ _ Ht) as [Hok _].
    unfold meal_ok, meals_done in *. simpl in *. lia. }
  split.
  - intros id Hid. destruct (philosophers s !! id) as [t|] eqn:Ht;
      [|apply lookup_ge_None in Ht; lia].
    destruct (waiter_threads_run _ _ Hrun _ _ Ht) as [_ ->]. eauto.
  - rewrite (waiter_meals_accounting _ _ Hrun), <- Hlen.
    by apply sum_list_with_const.
Qed.

Lemma waiter_sequential_finished : all_finished (snd (after sequential)).
Proof.
  intros id t. vm_compute.
  do 5 (destruct id as [|id]; [intros ?; simplify_eq; reflexivity|]).
  intros ?. discriminate.
Defined.

Lemma waiter_total_meals_witness :
  occurrences is_eat (proj 3 (fst (after sequential))) = 3 ∧
  occurrences (λ x, is_eat (snd x)) (fst (after sequential)) = 15.
Proof.
  destruct (waiter_total_meals (fst (after sequential)) (snd (after sequential)))
    as [Heach Htotal].
  - apply (exec_run _ _ _ sequential). vm_compute. reflexivity.
  - exact waiter_sequential_finished.
  - split; [apply Heach; unfold NUM_PHILOSOPHERS; lia|exact Htotal].
Defined.

(** X6.  When all five threads have finished, every entry of
    [chopstick_available] is [true] again and [waiter_mutex] is free. *)
Theorem waiter_all_released_at_end tr s :
  waiter_run tr s → all_finished s →
  chopstick_available s = replicate NUM_PHILOSOPHERS true ∧ waiter_mutex s = None.
Proof.
  intros Hrun Hfin.
  pose proof (waiter_invariant_run _ _ Hrun) as [Hlen Hllen Hag [Hshown _] _].
  split.
  - apply list_eq. intros k. destruct (decide (k < NUM_PHILOSOPHERS)) as [Hk|Hk].
    + rewrite lookup_replicate_2 by done.
      destruct (chopstick_available s !! k) as [[]|] eqn:Hl;
        [done| |apply lookup_ge_None in Hl; lia].
      destruct (proj1 (Hshown k false Hl) eq_refl) as (i & [p m] & Hi & Hm).
      specialize (Hfin _ _ Hi). simpl in *. subst p.
      unfold marks in Hm. simpl in Hm. by rewrite !andb_false_r in Hm.
    + rewrite !(proj2 (lookup_ge_None _ _)); [done|rewrite length_replicate; lia|lia].
  - destruct (waiter_mutex s) as [o|] eqn:Hmx; [|done].
    destruct (proj1 (Hag 0 o)) as ([p m] & Ho & Hcrit); [by rewrite ?Hmx|].
    specialize (Hfin _ _ Ho). simpl in *. by subst p.
Qed.

Lemma waiter_all_released_at_end_witness :
  chopstick_available (snd (after sequential)) = [true; true; true; true; true] ∧
  waiter_mutex (snd (after sequential)) = None.
Proof.
  apply (waiter_all_released_at_end (fst (after sequential)) (snd (after sequential))).
  - apply (exec_run _ _ _ sequential). vm_compute. reflexivity.
  - exact waiter_sequential_finished.
Defined.

(** X7.  In every state of every interleaving a thread that is eating has
    both its entries set to [false]; two threads that have their pairs
    (from the return of [request_chopsticks] to the first assignment of
    [return_chopsticks]) are not neighbours, and no three threads have
    their pairs at once. *)
Theorem waiter_neighbours_never_eat_together tr s i j k pi mi pj mj pk mk :
  waiter_run tr s →
  philosophers s !! i = Some (pi, mi) → marked_left pi && marked_right pi = true →
  philosophers s !! j = Some (pj, mj) → marked_left pj && marked_right pj = true →
  philosophers s !! k = Some (pk, mk) → marked_left pk && marked_right pk = true →
  chopstick_available s !! i = Some false ∧
  chopstick_available s !! ((i + 1) mod NUM_PHILOSOPHERS) = Some false ∧
  j ≠ (i + 1) mod NUM_PHILOSOPHERS ∧ ¬ (i ≠ j ∧ j ≠ k ∧ i ≠ k).
Proof.
  intros Hrun Hi Hpi Hj Hpj Hk Hpk.
  pose proof (waiter_invariant_run _ _ Hrun) as [Hlen Hllen _ [Hshown Huniq] _].
  assert (∀ a pa ma, philosophers s !! a = Some (pa, ma) →
            marked_left pa && marked_right pa = true →
            a < 5 ∧ marks a pa a = true ∧ marks a pa ((a + 1) mod NUM_PHILOSOPHERS) = true)
    as Hboth.
  { intros a pa ma Ha [Hl Hr]%andb_true_iff. split.
    - change 5 with NUM_PHILOSOPHERS. rewrite <- Hlen. by eapply lookup_lt_Some.
    - unfold marks, left_of, right_of. by rewrite !Nat.eqb_refl, Hl, Hr, orb_true_r. }
  assert (∀ a b pa ma pb mb,
            philosophers s !! a = Some (pa, ma) → marked_left pa && marked_right pa = true →
            philosophers s !! b = Some (pb, mb) → marked_left pb && marked_right pb = true →
            b ≠ (a + 1) mod NUM_PHILOSOPHERS) as Hadj.
  { intros a b pa ma pb mb Ha Hpa Hb Hpb Heq.
    destruct (Hboth _ _ _ Ha Hpa) as (Hlt & _ & Hra).
    destruct (Hboth _ _ _ Hb Hpb) as (_ & Hlb & _). rewrite <- Heq in Hra.
    assert (a = b) as -> by (eapply (Huniq a b (pa, ma) (pb, mb)); eauto).
    by apply (waiter_left_right_distinct b). }
  destruct (Hboth _ _ _ Hi Hpi) as (Hilt & Hil & Hir).
  assert (∀ x, x < NUM_PHILOSOPHERS → marks i pi x = true →
               chopstick_available s !! x = Some false) as Hfalse.
  { intros x Hx Hm. destruct (chopstick_available s !! x) as [b|] eqn:Hl;
      [|apply lookup_ge_None in Hl; lia].
    f_equal. apply (Hshown x b Hl). exists i, (pi, mi). eauto. }
  split; [by apply Hfalse|]. split; [apply Hfalse; [apply waiter_right_of_lt|done]|].
  split; [by eapply Hadj|]. intros (Hij & Hjk & Hik).
  destruct (Hboth _ _ _ Hj Hpj) as (Hjlt & _). destruct (Hboth _ _ _ Hk Hpk) as (Hklt & _).
  destruct (ring_three_adjacent i j k) as [Hn|[Hn|[Hn|[Hn|[Hn|Hn]]]]]; try done;
    revert Hn; eapply Hadj; eauto.
Qed.

Lemma waiter_neighbours_never_eat_together_witness :
  chopstick_available (snd (after two_eating)) !! 0 = Some false ∧
  chopstick_available (snd (after two_eating)) !! 1 = Some false ∧
  2 ≠ (0 + 1) mod NUM_PHILOSOPHERS.
Proof.
  destruct (waiter_neighbours_never_eat_together
              (fst (after two_eating)) (snd (after two_eating))
              0 2 2 Eating 0 Eating 0 Eating 0) as (Hl & Hr & Hadj & _).
  - apply (exec_run _ _ _ two_eating). vm_compute. reflexivity.
  - vm_compute. reflexivity.
  - reflexivity.
  - vm_compute. reflexivity.
  - reflexivity.
  - vm_compute. reflexivity.
  - reflexivity.
  - split; [exact Hl|]. split; [exact Hr|exact Hadj].
Defined.

Ltac five_bools l :=
  destruct l as [|[] [|[] [|[] [|[] [|[] [|? ?]]]]]]; try discriminate.

Ltac five_ids id :=
  do 5 (try destruct id as [|id]); try lia.

(** X8.  When [request_chopsticks id] is granted, the array it leaves has
    the predicate [can_eat] false for [id] itself and for both its
    neighbours, and unchanged for the two other threads; after
    [return_chopsticks id] the predicate holds for [id] again. *)
Theorem waiter_grant_blocks_neighbours (l l' : list bool) id :
  id < NUM_PHILOSOPHERS → length l = NUM_PHILOSOPHERS →
  request_chopsticks l id = Some l' →
  can_eat l' id = Some false ∧
  can_eat l' ((id + 1) mod NUM_PHILOSOPHERS) = Some false ∧
  can_eat l' ((id + 4) mod NUM_PHILOSOPHERS) = Some false ∧
  (∀ j, j < NUM_PHILOSOPHERS → j ≠ id → j ≠ (id + 1) mod NUM_PHILOSOPHERS →
        j ≠ (id + 4) mod NUM_PHILOSOPHERS → can_eat l' j = can_eat l j) ∧
  can_eat (return_chopsticks l' id) id = Some true.
Proof.
  unfold NUM_PHILOSOPHERS. intros Hid Hlen Hreq.
  five_bools l; five_ids id; vm_compute in Hreq; simplify_eq;
    (repeat split; try reflexivity);
    intros j Hj H1 H2 H3; vm_compute in H2, H3; five_ids j; reflexivity.
Qed.

Lemma waiter_grant_blocks_neighbours_witness :
  can_eat [true; true; false; false; true] 1 = Some false ∧
  can_eat [true; true; false; false; true] 4 = Some true.
Proof.
  destruct (waiter_grant_blocks_neighbours
              [true; true; true; true; true] [true; true; false; false; true] 2)
    as (_ & _ & Hleft & Hothers & _).
  - unfold NUM_PHILOSOPHERS. lia.
  - reflexivity.
  - reflexivity.
  - split; [exact Hleft|]. rewrite Hothers; [reflexivity|..];
      unfold NUM_PHILOSOPHERS; simpl; lia.
Defined.

(** X9.  Two grants in a row touch different entries: if
    [request_chopsticks i] and then [request_chopsticks j] are both granted,
    they are also granted in the other order, with the same array; and
    after two grants no third request can be granted before a return. *)
Theorem waiter_grants_commute (l l1 l2 : list bool) i j :
  i < NUM_PHILOSOPHERS → j < NUM_PHILOSOPHERS → length l = NUM_PHILOSOPHERS →
  request_chopsticks l i = Some l1 → request_chopsticks l1 j = Some l2 →
  (∃ l1', request_chopsticks l j = Some l1' ∧ request_chopsticks l1' i = Some l2) ∧
  (∀ k, k < NUM_PHILOSOPHERS → request_chopsticks l2 k = None).
Proof.
  unfold NUM_PHILOSOPHERS. intros Hi Hj Hlen Hreq1 Hreq2.
  five_bools l; five_ids i; vm_compute in Hreq1; simplify_eq;
    five_ids j; vm_compute in Hreq2; simplify_eq;
    (split; [eexists; split; reflexivity|]);
    intros k Hk; five_ids k; reflexivity.
Qed.

Lemma waiter_grants_commute_witness :
  (∃ l1', request_chopsticks [true; true; true; true; true] 3 = Some l1' ∧
          request_chopsticks l1' 0 = Some [false; false; true; false; false]) ∧
  request_chopsticks [false; false; true; false; false] 2 = None.
Proof.
  destruct (waiter_grants_commute
              [true; true; true; true; true] [false; false; true; true; true]
              [false; false; true; false; false] 0 3) as [Hswap Hfull].
  - unfold NUM_PHILOSOPHERS. lia.
  - unfold NUM_PHILOSOPHERS. lia.
  - reflexivity.
  - reflexivity.
  - reflexivity.
  - split; [exact Hswap|]. apply Hfull. unfold NUM_PHILOSOPHERS. lia.
Defined.

Lemma waiter_neighbour_of i j :
  i < NUM_PHILOSOPHERS → j < NUM_PHILOSOPHERS → j ≠ i →
  (left_of i = right_of j → j = (i + 4) mod NUM_PHILOSOPHERS) ∧
  (right_of i = left_of j → j = (i + 1) mod NUM_PHILOSOPHERS) ∧
  right_of i ≠ right_of j.
Proof.
  unfold left_of, right_of, NUM_PHILOSOPHERS. intros Hi Hj Hne.
  five_ids i; five_ids j; vm_compute; repeat split; lia.
Qed.

(** X15.  [wait] sends a thread to sleep only when one of its two
    neighbours has its pair: whenever a thread's predicate fails, a
    neighbour has returned from [request_chopsticks] and is eating, or has
    eaten and is about to lock [waiter_mutex] in [return_chopsticks]. *)
Theorem waiter_blocked_only_by_neighbour tr s id s' :
  waiter_run tr s → step s id = Some (EBlocked, s') →
  ∃ j p meal,
    (j = (id + 1) mod NUM_PHILOSOPHERS ∨ j = (id + 4) mod NUM_PHILOSOPHERS) ∧
    philosophers s !! j = Some (p, meal) ∧ (p = Eating ∨ p = ReturnLock).
Proof.
  intros Hrun Hstep. pose proof (waiter_invariant_run _ _ Hrun) as Hinv.
  pose proof Hinv as [Hlen Hllen _ [Hshown _] _].
  unfold step in Hstep.
  destruct (philosophers s !! id) as [[p meal]|] eqn:Hid; [|done].
  assert (id < NUM_PHILOSOPHERS) as Hlt by (rewrite <- Hlen; by eapply lookup_lt_Some).
  pose proof (waiter_right_of_lt id) as Hrlt.
  destruct p; simpl in Hstep; repeat case_match; simplify_option_eq.
  assert (∃ k, (k = left_of id ∨ k = right_of id) ∧
               chopstick_available s !! k = Some false) as (k & Hk & Hfalse).
  { match goal with H : can_eat _ _ = Some false |- _ => unfold can_eat in H end.
    destruct (chopstick_available s !! left_of id) as [[]|] eqn:Hl;
      destruct (chopstick_available s !! right_of id) as [[]|] eqn:Hr;
      simplify_option_eq; eauto. }
  destruct (proj1 (Hshown k false Hfalse) eq_refl) as (j & [q m] & Hj & Hm).
  simpl in Hm.
  assert (j < NUM_PHILOSOPHERS) as Hjlt by (rewrite <- Hlen; by eapply lookup_lt_Some).
  assert (j ≠ id) as Hne.
  { intros ->. simplify_eq. unfold marks in Hm. simpl in Hm.
    by rewrite !andb_false_r in Hm. }
  assert (critical q = false) as Hout.
  { destruct (critical q) eqn:Hq; [|done]. exfalso. apply Hne.
    eapply (waiter_critical_unique s j id); eauto. }
  destruct (waiter_neighbour_of id j Hlt Hjlt Hne) as (Hprev & Hnext & Hrr).
  exists j, q, m. split; [|split; [done|]].
  - unfold marks in Hm.
    apply orb_true_iff in Hm as [[Hkj _]%andb_true_iff|[Hkj _]%andb_true_iff];
      apply Nat.eqb_eq in Hkj; destruct Hk as [-> | ->].
    + unfold left_of in Hkj. congruence.
    + left. by apply Hnext.
    + right. by apply Hprev.
    + done.
  - unfold marks in Hm. destruct q; simpl in Hm, Hout;
      rewrite ?andb_false_r in Hm; try done; eauto.
Qed.

Lemma waiter_blocked_only_by_neighbour_witness :
  ∃ j p meal,
    (j = (1 + 1) mod NUM_PHILOSOPHERS ∨ j = (1 + 4) mod NUM_PHILOSOPHERS) ∧
    philosophers (snd (after (replicate 6 0 ++ replicate 2 1))) !! j = Some (p, meal) ∧
    (p = Eating ∨ p = ReturnLock).
Proof.
  eapply (waiter_blocked_only_by_neighbour
            (fst (after (replicate 6 0 ++ replicate 2 1)))
            (snd (after (replicate 6 0 ++ replicate 2 1))) 1).
  - apply (exec_run _ _ _ (replicate 6 0 ++ replicate 2 1)). vm_compute. reflexivity.
  - vm_compute. reflexivity.
Defined.

Lemma waiter_local_next_trace id granted t ev t' :
  local_next id granted t = Some (ev, t') → meal_ok t →
  thread_trace id t' = thread_trace id t ++ (if is_wait_event ev then [] else [ev]).
Proof.
  destruct t as [p meal]. unfold local_next, meal_ok, thread_trace.
  intros Hnext Hok.
  destruct p; simpl in *; [destruct (Nat.ltb_spec meal 3)|..]; repeat case_match;
    simplify_eq; simpl; rewrite <- ?app_assoc, ?app_nil_r; try done.
  rewrite replicate_add, concat_app. simpl. by rewrite ?app_nil_r.
Qed.

(** X16.  The events of a thread in any interleaving, the rounds of
    [wait] left out, are whole passes through the loop body followed by the
    part of the current pass that lies before the thread's next statement;
    one pass is: think, lock [waiter_mutex], pass the predicate, set the left
    and the right entry to [false], unlock, eat, lock [waiter_mutex], set the
    left and the right entry to [true], notify all, unlock.  These events
    are what they are called: a lock (or the re-lock of [wait]) happens only
    on the free [waiter_mutex] and makes the thread its owner, an unlock
    (or the unlock of [wait] when the predicate fails) frees the mutex the
    thread owns, the predicate is passed only when [can_eat] holds, each
    store writes its entry, and no other statement changes the mutex or the
    array; so the thread owns [waiter_mutex] exactly at the statements
    between a lock and the next unlock, and its own entries are [false]
    from its store of [false] to its store of [true]. *)
Theorem waiter_cycle_order tr s id :
  waiter_run tr s → id < NUM_PHILOSOPHERS →
  cycle id
  = [EThink; ELockWaiter; EGranted; ESet id false;
     ESet ((id + 1) mod NUM_PHILOSOPHERS) false; EUnlockWaiter; EEat; ELockWaiter;
     ESet id true; ESet ((id + 1) mod NUM_PHILOSOPHERS) true; ENotifyAll;
     EUnlockWaiter] ∧
  (∃ p meal, philosophers s !! id = Some (p, meal) ∧ meal ≤ 3 ∧
     List.filter (λ e, negb (is_wait_event e)) (proj id tr)
     = concat (replicate meal (cycle id)) ++ take (progress_in_cycle p) (cycle id)
       ++ match p with Finished => [EFinish] | _ => [] end ∧
     (waiter_mutex s = Some id
      ↔ p = RequestCheck ∨ 3 ≤ progress_in_cycle p ≤ 5 ∨ 8 ≤ progress_in_cycle p ≤ 11) ∧
     (4 ≤ progress_in_cycle p ≤ 8 → chopstick_available s !! id = Some false) ∧
     (5 ≤ progress_in_cycle p ≤ 9 →
      chopstick_available s !! ((id + 1) mod NUM_PHILOSOPHERS) = Some false)) ∧
  (∀ ev s', step s id = Some (ev, s') →
     match ev with
     | ELockWaiter | EWoken =>
         waiter_mutex s = None ∧ waiter_mutex s' = Some id ∧
         chopstick_available s' = chopstick_available s
     | EUnlockWaiter =>
         waiter_mutex s = Some id ∧ waiter_mutex s' = None ∧
         chopstick_available s' = chopstick_available s
     | EBlocked =>
         can_eat (chopstick_available s) id = Some false ∧
         waiter_mutex s = Some id ∧ waiter_mutex s' = None ∧
         chopstick_available s' = chopstick_available s
     | EGranted =>
         can_eat (chopstick_available s) id = Some true ∧
         waiter_mutex s' = waiter_mutex s ∧
         chopstick_available s' = chopstick_available s
     | ESet k b =>
         chopstick_available s' = <[k := b]> (chopstick_available s) ∧
         waiter_mutex s' = waiter_mutex s
     | _ => waiter_mutex s' = waiter_mutex s ∧
            chopstick_available s' = chopstick_available s
     end).
Proof.
  intros Hrun Hid. split; [done|].
  split; [|intros ev s'; apply waiter_step_effect].
  assert (∀ i t, philosophers s !! i = Some t →
            List.filter (λ e, negb (is_wait_event e)) (proj i tr) = thread_trace i t)
    as Htrace.
  { clear Hid. induction Hrun as [|tr s j ev s' Hrun IH Hstep].
    - by intros i t [-> _]%lookup_replicate.
    - pose proof (waiter_threads_run _ _ Hrun) as Hthreads.
      apply waiter_step_local in Hstep as (t0 & t1 & g & Hj & Hnext & ->).
      intros i t Hi. destruct (decide (i = j)) as [->|Hne].
      + rewrite list_lookup_insert_eq in Hi by (by eapply lookup_lt_Some).
        simplify_eq. destruct (Hthreads _ _ Hj) as [Hok _].
        rewrite proj_snoc_eq, List.filter_app, (IH _ _ Hj),
          (waiter_local_next_trace _ _ _ _ _ Hnext Hok).
        simpl. by destruct (is_wait_event ev).
      + rewrite list_lookup_insert_ne in Hi by done.
        rewrite proj_snoc_ne by done. eauto. }
  pose proof (waiter_invariant_run _ _ Hrun) as Hinv.
  pose proof Hinv as [Hlen Hllen Hag [Hshown _] _].
  destruct (philosophers s !! id) as [[p meal]|] eqn:Ht;
    [|apply lookup_ge_None in Ht; lia].
  exists p, meal. split; [done|].
  split.
  { destruct (waiter_threads_run _ _ Hrun _ _ Ht) as [Hok _].
    unfold meal_ok in Hok. destruct p; simpl in Hok; lia. }
  split; [exact (Htrace id (p, meal) Ht)|].
  assert (∀ k, k < NUM_PHILOSOPHERS → marks id p k = true →
               chopstick_available s !! k = Some false) as Hfalse.
  { intros k Hk Hm. destruct (chopstick_available s !! k) as [b|] eqn:Hl;
      [|apply lookup_ge_None in Hl; lia].
    f_equal. apply (Hshown k b Hl). exists id, (p, meal). eauto. }
  split; [|split].
  - assert (waiter_mutex s = Some id ↔ critical p = true) as ->.
    { split.
      - intros Hmx. destruct (proj1 (Hag 0 id)) as ([q m] & Hq & Hc);
          [by rewrite Hmx|]. by simplify_eq.
      - intros Hc. by eapply waiter_critical_owner. }
    destruct p; simpl; split; intros; try done; try lia; eauto.
    all: repeat match goal with H : _ ∨ _ |- _ => destruct H as [H|H] end;
      try done; lia.
  - intros Hp. apply Hfalse; [done|]. unfold marks, left_of.
    rewrite Nat.eqb_refl. destruct p; simpl in *; try done; lia.
  - intros Hp. apply Hfalse; [apply waiter_right_of_lt|]. unfold marks.
    fold (right_of id). rewrite Nat.eqb_refl, orb_comm.
    destruct p; simpl in *; try done; lia.
Qed.

Lemma waiter_cycle_order_witness :
  List.filter (λ e, negb (is_wait_event e)) (proj 1 (fst (after neighbour_waits)))
  = [EThink; ELockWaiter] ∧
  proj 1 (fst (after neighbour_waits)) = [EThink; ELockWaiter; EBlocked] ∧
  waiter_mutex (snd (after half_granted)) = Some 1 ∧
  chopstick_available (snd (after half_granted)) !! 1 = Some false.
Proof.
  split; [|split; [vm_compute; reflexivity|]].
  - destruct (waiter_cycle_order (fst (after neighbour_waits))
                (snd (after neighbour_waits)) 1)
      as (_ & (p & meal & Ht & _ & Htr & _) & _).
    + apply (exec_run _ _ _ neighbour_waits). vm_compute. reflexivity.
    + unfold NUM_PHILOSOPHERS. lia.
    + vm_compute in Ht. injection Ht as <- <-. rewrite Htr. reflexivity.
  - destruct (waiter_cycle_order (fst (after half_granted)) (snd (after half_granted)) 1)
      as (_ & (p & meal & Ht & _ & _ & Hmx & Hleft & _) & _).
    + apply (exec_run _ _ _ half_granted). vm_compute. reflexivity.
    + unfold NUM_PHILOSOPHERS. lia.
    + vm_compute in Ht. injection Ht as <- <-.
      split; [apply Hmx; right; left; simpl; lia|apply Hleft; simpl; lia].
Defined.

End WaiterMore.

(** ** Solution 3: timeouts and back-off *)

Module TimeoutMore.
Import DiningPhilosophersTimeout TimeoutProofs.

Lemma timeout_threads_lt s id t :
  invariant s → philosophers s !! id = Some t → id < NUM_PHILOSOPHERS.
Proof. intros [Hlen _ _ _] Ht. rewrite <- Hlen. by eapply lookup_lt_Some. Qed.

(** The two counters against the events and against the threads. *)
Lemma timeout_counters_run tr s :
  timeout_run tr s →
  successful_meals s = occurrences (λ x, is_success (snd x)) tr ∧
  timeouts s = occurrences (λ x, is_timeout (snd x)) tr ∧
  successful_meals s + timeouts s + sum_list_with pending (philosophers s)
  = sum_list_with attempts (philosophers s).
Proof.
  intros Hrun. induction Hrun as [|tr s [id ok] ev s' Hrun (IHs & IHt & IH) Hstep];
    [done|].
  rewrite !occurrences_app. unfold occurrences at 2 4. simpl.
  unfold step in Hstep. simpl in Hstep.
  destruct (philosophers s !! id) as [[p m a]|] eqn:Hid; [|done]. simpl in Hstep.
  assert (∀ t', sum_list_with pending (<[id := t']> (philosophers s)) + pending (Thread p m a)
                = sum_list_with pending (philosophers s) + pending t') as Hp
    by (intros; by apply sum_list_with_insert).
  assert (∀ t', sum_list_with attempts (<[id := t']> (philosophers s)) + a
                = sum_list_with attempts (philosophers s) + attempts t') as Ha
    by (intros; by apply (sum_list_with_insert attempts _ _ (Thread p m a))).
  assert (∀ p' m' a', pending (Thread p' m' a')
            = match p' with
              | TryFirst | TrySecond | Success | SecondTimedOut | FirstTimedOut => 1
              | _ => 0
              end) as Hpe by done.
  destruct p; repeat case_match; simplify_option_eq;
    match goal with
    | |- context [<[id := ?t']> _] =>
        specialize (Hp t'); specialize (Ha t'); rewrite !Hpe in Hp; simpl in *
    end; repeat split; lia.
Qed.

Lemma occurrences_proj_le {Event : Type} (P : Event → bool) id (tr : list (nat * Event)) :
  occurrences P (proj id tr) ≤ occurrences (λ x, P (snd x)) tr.
Proof.
  unfold occurrences, proj. induction tr as [|[j e] tr IH]; simpl; [done|].
  destruct (j =? id); simpl; destruct (P e); simpl; lia.
Qed.

Lemma timeout_attempts_total tr s :
  timeout_run tr s →
  sum_list_with attempts (philosophers s) ≤ 10 * length (philosophers s).
Proof.
  intros Hrun.
  assert (∀ i t, philosophers s !! i = Some t → attempts t ≤ 10) as Hall.
  { intros i t Ht. by destruct (timeout_threads_run _ _ Hrun _ _ Ht) as [[? _] _]. }
  revert Hall. generalize (philosophers s). intros l.
  induction l as [|x l IH]; intros Hall; simpl; [lia|].
  pose proof (Hall 0 x eq_refl).
  assert (sum_list_with attempts l ≤ 10 * length l); [|lia].
  apply IH. intros i y Hy. apply (Hall (S i) y Hy).
Qed.

(** X10.  The two atomic counters count the events they stand for, and
    every pass through the loop body ends up in exactly one of them:
    [successful_meals + timeouts], plus the passes under way that are not
    yet counted, is the sum of the threads' [attempts], which is at most 50;
    when all threads have finished, [successful_meals + timeouts] is the
    number of attempts made. *)
Theorem timeout_counters_account tr s :
  timeout_run tr s →
  successful_meals s = occurrences (λ x, is_success (snd x)) tr ∧
  timeouts s = occurrences (λ x, is_timeout (snd x)) tr ∧
  successful_meals s + timeouts s + sum_list_with pending (philosophers s)
  = sum_list_with attempts (philosophers s) ∧
  sum_list_with attempts (philosophers s) ≤ 10 * NUM_PHILOSOPHERS ∧
  (all_finished s →
   successful_meals s + timeouts s = sum_list_with attempts (philosophers s)).
Proof.
  intros Hrun. destruct (timeout_counters_run _ _ Hrun) as (Hs & Ht & Hsum).
  pose proof (timeout_invariant_run _ _ Hrun) as [Hlen _ _ _].
  split; [done|]. split; [done|]. split; [done|]. split.
  - rewrite <- Hlen. by eapply timeout_attempts_total.
  - intros Hfin.
    assert (sum_list_with pending (philosophers s) = 0 * length (philosophers s))
      as Hnone; [|lia].
    apply sum_list_with_const. intros i t Hi. unfold pending. by rewrite (Hfin _ _ Hi).
Qed.

Lemma timeout_counters_account_witness :
  successful_meals (snd (after second_fails)) = 0 ∧
  timeouts (snd (after second_fails)) = 1 ∧
  sum_list_with attempts (philosophers (snd (after second_fails))) = 2 ∧
  sum_list_with pending (philosophers (snd (after second_fails))) = 1.
Proof.
  destruct (timeout_counters_account (fst (after second_fails)) (snd (after second_fails)))
    as (_ & _ & Hsum & _).
  - apply (exec_run _ _ _ second_fails). vm_compute. reflexivity.
  - repeat split; vm_compute; reflexivity.
Defined.

Lemma timeout_occurrences_timeouts id outs :
  occurrences is_timeout (concat (map (attempt_events id) outs)) + occurrences is_ate outs
  = length outs.
Proof.
  induction outs as [|o outs IH]; simpl; [done|].
  rewrite occurrences_app. change (o :: outs) with ([o] ++ outs).
  rewrite (occurrences_app is_ate). destruct o; cbn; lia.
Qed.

(** X11.  A thread that has finished has timed out [attempts - meals_eaten]
    times; if it ate fewer than 3 meals these are at least 8 time-outs, so a
    complete run whose [timeouts] counter is below 8 has all 15 meals. *)
Theorem timeout_hungry_thread_timed_out tr s id t :
  timeout_run tr s → philosophers s !! id = Some t → at_pc t = Finished →
  occurrences is_timeout (proj id tr) + meals_eaten t = attempts t ∧
  (meals_eaten t < 3 → 8 ≤ occurrences is_timeout (proj id tr) ∧ 8 ≤ timeouts s) ∧
  (all_finished s → timeouts s < 8 → successful_meals s = 3 * NUM_PHILOSOPHERS).
Proof.
  intros Hrun Ht Hfin.
  destruct (timeout_counters_run _ _ Hrun) as (_ & Htime & _).
  assert (∀ i x, philosophers s !! i = Some x → at_pc x = Finished →
            occurrences is_timeout (proj i tr) + meals_eaten x = attempts x ∧
            (meals_eaten x < 3 → 8 ≤ occurrences is_timeout (proj i tr))) as Hone.
  { intros i x Hx Hxf.
    destruct (timeout_threads_run _ _ Hrun _ _ Hx) as [[_ Hok] [outs (-> & Ha & Hm)]].
    rewrite Hxf in *. simpl in *.
    rewrite occurrences_app. pose proof (timeout_occurrences_timeouts i outs).
    cbn. split; lia. }
  destruct (Hone _ _ Ht Hfin) as [Hcount Hhungry].
  split; [done|]. split.
  - intros Hm. specialize (Hhungry Hm). split; [done|].
    pose proof (occurrences_proj_le is_timeout id tr). lia.
  - intros Hall Hfew. pose proof (timeout_invariant_run _ _ Hrun) as [Hlen _ _ ->].
    rewrite <- Hlen. apply sum_list_with_const. intros i x Hx.
    destruct (Hone _ _ Hx (Hall _ _ Hx)) as [_ Hx8].
    destruct (timeout_threads_run _ _ Hrun _ _ Hx) as [[_ Hok] _].
    rewrite (Hall _ _ Hx) in Hok.
    pose proof (occurrences_proj_le is_timeout i tr). lia.
Qed.

Lemma timeout_hungry_thread_timed_out_witness :
  occurrences is_timeout (proj 4 (fst (after starved))) + 0 = 10 ∧
  timeouts (snd (after starved)) = 10.
Proof.
  destruct (timeout_hungry_thread_timed_out (fst (after starved)) (snd (after starved))
              4 (Thread Finished 0 10)) as (Hcount & _).
  - apply (exec_run _ _ _ starved). vm_compute. reflexivity.
  - vm_compute. reflexivity.
  - reflexivity.
  - split; [exact Hcount|vm_compute; reflexivity].
Defined.

(** X12.  A thread that is at the loop test or has finished owns no
    chopstick, whichever way its last pass ended; when all threads have
    finished every chopstick is free. *)
Theorem timeout_all_released_at_end tr s :
  timeout_run tr s →
  (∀ id t k, philosophers s !! id = Some t →
             at_pc t = LoopHead ∨ at_pc t = Finished →
             chopsticks s !! k ≠ Some (Some id)) ∧
  (all_finished s → chopsticks s = replicate NUM_PHILOSOPHERS None).
Proof.
  intros Hrun. pose proof (timeout_invariant_run _ _ Hrun) as [Hlen Hmlen Hag _].
  assert (∀ id t k, philosophers s !! id = Some t →
            at_pc t = LoopHead ∨ at_pc t = Finished →
            chopsticks s !! k ≠ Some (Some id)) as Hnone.
  { intros id t k Ht Hpc Hk. apply Hag in Hk as (t' & Ht' & Howns). simplify_eq.
    unfold owns in Howns. destruct Hpc as [Hpc|Hpc]; rewrite Hpc in Howns;
      simpl in Howns; by rewrite !andb_false_r in Howns. }
  split; [done|]. intros Hfin.
  apply list_eq. intros k. destruct (decide (k < NUM_PHILOSOPHERS)) as [Hk|Hk].
  - rewrite lookup_replicate_2 by done.
    destruct (chopsticks s !! k) as [[o|]|] eqn:Hl; [|done|].
    + pose proof Hl as Hl'. apply Hag in Hl' as (t & Ho & _).
      exfalso. eapply Hnone; eauto.
    + apply lookup_ge_None in Hl. lia.
  - rewrite !(proj2 (lookup_ge_None _ _)); [done|rewrite length_replicate; lia|lia].
Qed.

Lemma timeout_all_released_at_end_witness :
  chopsticks (snd (after second_fails)) !! 1 ≠ Some (Some 1) ∧
  chopsticks (snd (after second_fails)) !! 0 = Some (Some 0).
Proof.
  destruct (timeout_all_released_at_end (fst (after second_fails))
              (snd (after second_fails))) as [Hfree _].
  - apply (exec_run _ _ _ second_fails). vm_compute. reflexivity.
  - split; [|vm_compute; reflexivity].
    apply (Hfree 1 (Thread LoopHead 0 1) 1); [vm_compute; reflexivity|by left].
Defined.

Lemma timeout_chopsticks_of id :
  id < NUM_PHILOSOPHERS →
  (first_chopstick id = id ∧ second_chopstick id = (id + 1) mod NUM_PHILOSOPHERS) ∨
  (first_chopstick id = (id + 1) mod NUM_PHILOSOPHERS ∧ second_chopstick id = id).
Proof.
  unfold first_chopstick, second_chopstick, NUM_PHILOSOPHERS. intros Hid.
  do 5 (destruct id as [|id]; [vm_compute; auto|]). lia.
Qed.

(** X13.  In every state of every interleaving, a thread that holds its
    second chopstick holds both; two such threads are not neighbours, and
    no three threads hold both their chopsticks at once. *)
Theorem timeout_neighbours_never_eat_together tr s i j k ti tj tk :
  timeout_run tr s →
  philosophers s !! i = Some ti → holds_second (at_pc ti) = true →
  philosophers s !! j = Some tj → holds_second (at_pc tj) = true →
  philosophers s !! k = Some tk → holds_second (at_pc tk) = true →
  chopsticks s !! i = Some (Some i) ∧
  chopsticks s !! ((i + 1) mod NUM_PHILOSOPHERS) = Some (Some i) ∧
  j ≠ (i + 1) mod NUM_PHILOSOPHERS ∧ ¬ (i ≠ j ∧ j ≠ k ∧ i ≠ k).
Proof.
  intros Hrun Hi Hpi Hj Hpj Hk Hpk.
  pose proof (timeout_invariant_run _ _ Hrun) as Hinv.
  pose proof Hinv as [Hlen _ Hag _].
  assert (∀ a ta, philosophers s !! a = Some ta → holds_second (at_pc ta) = true →
            a < 5 ∧ chopsticks s !! a = Some (Some a) ∧
            chopsticks s !! ((a + 1) mod NUM_PHILOSOPHERS) = Some (Some a)) as Hboth.
  { intros a ta Ha Hp.
    assert (a < NUM_PHILOSOPHERS) as Hlt by (by eapply timeout_threads_lt).
    assert (chopsticks s !! first_chopstick a = Some (Some a) ∧
            chopsticks s !! second_chopstick a = Some (Some a)) as [Hf Hs].
    { split; apply Hag; exists ta; (split; [done|]); unfold owns;
        rewrite Nat.eqb_refl, ?Hp, ?orb_true_r; [|done]. by destruct (at_pc ta). }
    split; [done|].
    destruct (timeout_chopsticks_of a Hlt) as [[Hf' Hs']|[Hf' Hs']];
      rewrite Hf' in Hf; rewrite Hs' in Hs; done. }
  assert (∀ a b ta tb,
            philosophers s !! a = Some ta → holds_second (at_pc ta) = true →
            philosophers s !! b = Some tb → holds_second (at_pc tb) = true →
            b ≠ (a + 1) mod NUM_PHILOSOPHERS) as Hadj.
  { intros a b ta tb Ha Hpa Hb Hpb Heq.
    destruct (Hboth _ _ Ha Hpa) as (Hlt & _ & Hra).
    destruct (Hboth _ _ Hb Hpb) as (_ & Hlb & _). rewrite <- Heq in Hra.
    assert (a = b) as -> by congruence.
    unfold NUM_PHILOSOPHERS in Heq.
    do 5 (destruct b as [|b]; [vm_compute in Heq; lia|]). lia. }
  destruct (Hboth _ _ Hi Hpi) as (Hilt & Hil & Hir).
  split; [done|]. split; [done|]. split; [by eapply Hadj|].
  intros (Hij & Hjk & Hik).
  destruct (Hboth _ _ Hj Hpj) as (Hjlt & _). destruct (Hboth _ _ Hk Hpk) as (Hklt & _).
  destruct (ring_three_adjacent i j k) as [Hn|[Hn|[Hn|[Hn|[Hn|Hn]]]]]; try done;
    revert Hn; eapply Hadj; eauto.
Qed.

Lemma timeout_neighbours_never_eat_together_witness :
  chopsticks (snd (after two_eating)) !! 0 = Some (Some 0) ∧
  chopsticks (snd (after two_eating)) !! 1 = Some (Some 0) ∧
  2 ≠ (0 + 1) mod NUM_PHILOSOPHERS.
Proof.
  destruct (timeout_neighbours_never_eat_together
              (fst (after two_eating)) (snd (after two_eating))
              0 2 2 (Thread Eating 1 1) (Thread Eating 1 1) (Thread Eating 1 1))
    as (Hl & Hr & Hadj & _).
  - apply (exec_run _ _ _ two_eating). vm_compute. reflexivity.
  - vm_compute. reflexivity.
  - reflexivity.
  - vm_compute. reflexivity.
  - reflexivity.
  - vm_compute. reflexivity.
  - reflexivity.
  - split; [exact Hl|]. split; [exact Hr|exact Hadj].
Defined.

Lemma timeout_enabled_true s id t :
  invariant s → philosophers s !! id = Some t →
  is_trying t = false → at_pc t ≠ Finished →
  ∃ ev s', step s (id, true) = Some (ev, s').
Proof.
  intros [_ _ Hag _] Hid Htry Hnf. unfold step. simpl. rewrite Hid.
  destruct t as [p m a]. unfold is_trying in Htry. simpl in *.
  assert (∀ k, owns id p k = true →
               mutex_unlock id (chopsticks s) k = Some (<[k := None]> (chopsticks s)))
    as Hunlock.
  { intros k Hk. apply mutex_unlock_Some. split; [|done].
    apply Hag. exists (Thread p m a). eauto. }
  destruct p; simpl; try done; eauto.
  - destruct ((m <? 3) && (a <? 10)); eauto.
  - rewrite Hunlock; [simpl; eauto|]. unfold owns. simpl.
    by rewrite Nat.eqb_refl, orb_true_r.
  - rewrite Hunlock; [simpl; eauto|]. unfold owns. simpl. by rewrite Nat.eqb_refl.
  - rewrite Hunlock; [simpl; eauto|]. unfold owns. simpl. by rewrite Nat.eqb_refl.
Qed.

(** When every unfinished thread is at a [try_lock_for], the owner of the
    highest chopstick in use can take its second one. *)
Lemma timeout_highest_owner_runs s :
  invariant s →
  (∀ id t, philosophers s !! id = Some t → is_trying t = true ∨ at_pc t = Finished) →
  (∃ id t, philosophers s !! id = Some t ∧ at_pc t ≠ Finished) →
  ∀ n, n ≤ NUM_PHILOSOPHERS →
       (∀ k, n ≤ k → k < NUM_PHILOSOPHERS → chopsticks s !! k = Some None) →
       ∃ id ev s', step s (id, true) = Some (ev, s').
Proof.
  intros Hinv Hall (id0 & t0 & Ht0 & Hnf0).
  pose proof Hinv as [Hlen Hmlen Hag _].
  assert (∀ id t, philosophers s !! id = Some t → owns id (at_pc t) (first_chopstick id) = true →
            chopsticks s !! second_chopstick id = Some None →
            at_pc t = TrySecond → ∃ ev s', step s (id, true) = Some (ev, s')) as Hsecond.
  { intros id [p m a] Ht _ Hfree Hp. simpl in Hp. subst p.
    unfold step, mutex_lock. simpl. rewrite Ht. simpl. rewrite Hfree. simpl. eauto. }
  induction n as [|n IH]; intros Hn Hfree.
  - assert (id0 < NUM_PHILOSOPHERS) as Hlt by (by eapply timeout_threads_lt).
    destruct (timeout_acquisition_order_spec id0 Hlt) as (_ & Hord & Hsnd).
    destruct t0 as [p m a]. destruct (Hall _ _ Ht0) as [Htry|Hfin]; [|done].
    unfold is_trying in Htry. simpl in *. destruct p; try done.
    + exists id0. unfold step, mutex_lock. simpl. rewrite Ht0. simpl.
      rewrite Hfree by lia. simpl. eauto.
    + assert (chopsticks s !! first_chopstick id0 = Some (Some id0)) as Hmine.
      { apply Hag. exists (Thread TrySecond m a). split; [done|].
        unfold owns. simpl. by rewrite Nat.eqb_refl. }
      rewrite Hfree in Hmine by lia. done.
  - destruct (chopsticks s !! n) as [[o|]|] eqn:Hl.
    + pose proof Hl as Hl'. apply Hag in Hl' as ([p m a] & Ho & Howns).
      assert (o < NUM_PHILOSOPHERS) as Hlt by (by eapply timeout_threads_lt).
      destruct (timeout_acquisition_order_spec o Hlt) as (_ & Hord & Hsnd).
      unfold owns in Howns. simpl in Howns.
      destruct (Hall _ _ Ho) as [Htry|Hfin].
      * unfold is_trying in Htry. simpl in Htry.
        destruct p; try done; simpl in Howns; rewrite ?andb_false_r in Howns;
          try done.
        rewrite andb_true_r, orb_false_r in Howns. apply Nat.eqb_eq in Howns.
        exists o. eapply (Hsecond o (Thread TrySecond m a)); eauto.
        -- unfold owns. simpl. by rewrite Nat.eqb_refl.
        -- apply Hfree; lia.
      * simpl in Hfin. subst p. simpl in Howns. by rewrite !andb_false_r in Howns.
    + apply IH; [lia|]. intros k Hk Hk5.
      destruct (decide (k = n)) as [->|Hne]; [done|]. apply Hfree; lia.
    + apply lookup_ge_None in Hl. lia.
Qed.

(** X14.  Taking the chopsticks in ascending order rules out a deadlock
    even without the time limit: in every state of every interleaving,
    unless all threads have finished, some thread can run its next
    statement with its [try_lock_for] succeeding. *)
Theorem timeout_order_prevents_deadlock tr s :
  timeout_run tr s →
  all_finished s ∨ ∃ id ev s', step s (id, true) = Some (ev, s').
Proof.
  intros Hrun. pose proof (timeout_invariant_run _ _ Hrun) as Hinv.
  destruct (decide (Forall (λ t, is_finished t = true) (philosophers s))) as [Hall|Hex].
  { left. intros id t Ht. rewrite Forall_lookup in Hall. specialize (Hall _ _ Ht).
    unfold is_finished in Hall. by destruct (at_pc t). }
  right. apply not_Forall_Exists in Hex; [|apply _].
  apply Exists_exists in Hex as (t0 & [id0 Ht0]%list_elem_of_lookup & Hnf0).
  assert (at_pc t0 ≠ Finished) as Hnf.
  { intros Hfin. apply Hnf0. unfold is_finished. by rewrite Hfin. }
  destruct (decide (Exists (λ t, negb (is_trying t) && negb (is_finished t) = true)
                      (philosophers s))) as [Hfree|Hnone].
  - apply Exists_exists in Hfree as (t & [id Ht]%list_elem_of_lookup & Hb).
    apply andb_true_iff in Hb as [Htry%negb_true_iff Hf%negb_true_iff].
    exists id. eapply timeout_enabled_true; eauto.
    intros Hfin. unfold is_finished in Hf. by rewrite Hfin in Hf.
  - apply (timeout_highest_owner_runs s Hinv) with (n := NUM_PHILOSOPHERS);
      [|eauto|done|intros; lia].
    intros id t Ht. destruct (is_trying t) eqn:Htry; [by left|right].
    destruct (at_pc t) eqn:Hpc; try done; exfalso; apply Hnone, Exists_exists;
      exists t; (split; [apply list_elem_of_lookup; eauto|]);
      unfold is_finished; by rewrite Htry, Hpc.
Qed.

Lemma timeout_order_prevents_deadlock_witness :
  all_finished (snd (after second_fails)) ∨
  ∃ id ev s', step (snd (after second_fails)) (id, true) = Some (ev, s').
Proof.
  apply (timeout_order_prevents_deadlock (fst (after second_fails))).
  apply (exec_run _ _ _ second_fails). vm_compute. reflexivity.
Defined.

End TimeoutMore.
